(** * The unified SDN controller: learning switch, port-stats poller and
      enforcement of the agent's per-port actions

    A shallow embedding of [controller/Controller_UnifiedController.py] and of
    the rate computation of [tools/parse_logs.py].

    Conventions of the embedding.
    - Python integers are [Z]. Python floats (wall-clock timestamps, rates)
      are IEEE doubles: a finite double is the rational it denotes, and an
      arithmetic operation gives its exact result rounded to the nearest
      double ([Double.round]), so [1e-9] is [Double.round (1 # 1000000000)].
    - The dictionaries of the controller are [gmap]s, the set of installed
      meters is a [gset].
    - A handler is a computation over a [World]: the controller object, the
      messages accepted by the switch handles, the log, the calls made to the
      agent, the rows appended to the CSV file, and a script of the outcomes of
      the coming [send_msg] calls (an exception or a success).
    - The decision maker [AgentManager.act] is a parameter of the
      development. *)

From Stdlib Require Import ZArith QArith List String Lia Sorted SpecFloat.
From stdpp Require Import gmap strings list fin_maps.

Local Open Scope Z_scope.

(** ** Constants *)

Module Const.

(** Module-level constants of the controller. *)
Definition POLL_INTERVAL : Q := 1.
Definition ACT_NOOP : Z := 0.
Definition ACT_METER : Z := 1.
Definition ACT_DROP : Z := 2.
Definition ACT_REROUTE : Z := 3.
Definition DEFAULT_LIMIT_KBPS : Z := 5000.
Definition DEFAULT_IDLE_TO : Z := 20.

(** Constants of OpenFlow 1.3 the controller reads from [dp.ofproto] and
    [ether_types]. *)
Definition OFPP_NORMAL : Z := 0xfffffffa.
Definition OFPP_FLOOD : Z := 0xfffffffb.
Definition OFPP_CONTROLLER : Z := 0xfffffffd.
Definition OFPP_ANY : Z := 0xffffffff.
Definition OFPCML_MAX : Z := 0xffe5.
Definition OFPCML_NO_BUFFER : Z := 0xffff.
Definition OFP_NO_BUFFER : Z := 0xffffffff.
Definition OFPIT_APPLY_ACTIONS : Z := 4.
Definition OFPMC_ADD : Z := 0.
Definition OFPMF_KBPS : Z := 1.
Definition ETH_TYPE_LLDP : Z := 0x88cc.

End Const.
Import Const.

(** ** Messages of the switch protocol *)

(** A switch handle ([datapath]): the switch identifier and the identity of
    the connection object. *)
Record Datapath := mkDatapath { dp_id : Z; dp_conn : nat }.

Inductive OFPAction :=
| OFPActionOutput (port : Z) (max_len : Z).

Inductive OFPInstruction :=
| OFPInstructionMeter (meter_id : Z)
| OFPInstructionActions (type_ : Z) (actions : list OFPAction).

Record OFPMatch := mkMatch {
  in_port : option Z;
  eth_dst : option string;
  eth_src : option string }.

Record OFPMeterBandDrop := mkBand { rate : Z; burst_size : Z }.

Inductive Msg :=
| OFPFlowMod (priority : Z) (match_ : OFPMatch)
    (instructions : list OFPInstruction) (idle_timeout hard_timeout : Z)
| OFPMeterMod (command flags meter_id : Z) (bands : list OFPMeterBandDrop)
| OFPPortStatsRequest (flags port_no : Z)
| OFPPacketOut (buffer_id pin_port : Z) (actions : list OFPAction)
    (data : option string).

Definition is_flow_mod (m : Msg) : bool :=
  match m with OFPFlowMod _ _ _ _ _ => true | _ => false end.

Definition is_meter_mod (m : Msg) : bool :=
  match m with OFPMeterMod _ _ _ _ => true | _ => false end.

(** A mutation of a switch table: a flow or a meter modification. *)
Definition is_mutation (m : Msg) : bool := is_flow_mod m || is_meter_mod m.

Definition flow_priority (m : Msg) : option Z :=
  match m with OFPFlowMod p _ _ _ _ => Some p | _ => None end.

Definition flow_match (m : Msg) : option OFPMatch :=
  match m with OFPFlowMod _ mt _ _ _ => Some mt | _ => None end.

Definition meter_of (m : Msg) : option Z :=
  match m with OFPMeterMod _ _ mid _ => Some mid | _ => None end.

(** ** Events *)

Inductive Dispatcher :=
| HANDSHAKE_DISPATCHER | CONFIG_DISPATCHER | MAIN_DISPATCHER | DEAD_DISPATCHER.

Record StateChange := mkStateChange { sc_datapath : Datapath; sc_state : Dispatcher }.

(** One entry of a port-stats reply. The byte counters are read as
    attributes; the other three are read with [getattr(stat, _, 0)]. *)
Record PortStat := mkPortStat {
  st_port_no : Z;
  st_rx_bytes : Z;
  st_tx_bytes : Z;
  st_rx_packets : option Z;
  st_tx_packets : option Z;
  st_duration_sec : option Z }.

Record PortStatsReply := mkReply { rp_datapath : Datapath; rp_body : list PortStat }.

Record Ethernet := mkEth { ethertype : Z; dst : string; src : string }.

Record PacketIn := mkPacketIn {
  pi_datapath : Datapath;
  pi_in_port : Z;
  pi_buffer_id : Z;
  pi_data : string;
  pi_eth : list Ethernet  (* pkt.get_protocols(ethernet.ethernet) *) }.

(** ** The controller object *)

(** The dictionary [cur] built for every entry of a reply. *)
Record Sample := mkSample {
  timestamp : Q;
  dpid : Z;
  port_no : Z;
  rx_bytes : Z;
  tx_bytes : Z;
  rx_packets : Z;
  tx_packets : Z;
  duration_sec : Z }.

Record Controller := mkController {
  mac_to_port : gmap Z (gmap string Z);     (* dpid -> {mac: port} *)
  datapaths : gmap Z Datapath;              (* dpid -> datapath *)
  last_stats : gmap (Z * Z) Sample;         (* (dpid,port) -> last sample *)
  meter_installed : gset (Z * Z)            (* {(dpid, meter_id)} *) }.

Definition init_controller : Controller :=
  mkController ∅ ∅ ∅ ∅.

Definition Exn := string.

Inductive LogRecord :=
| LogSwitchConnected (d : Z)
| LogAgentAction (d p : Z) (tx rx : Q) (action : Z)
| LogEnforceError (d p : Z) (e : Exn)
| LogInstalledMeterFlow (d p meter_id limit : Z)
| LogInstalledDrop (d p idle : Z)
| LogRerouteStub (d p : Z)
| LogCreatedMeter (d meter_id rate_kbps : Z)
| LogFailedWriteStats (e : Exn).

(** A call [agent_manager.act(dpid, port_no, tx_bps, rx_bps)]. *)
Record AgentCall := mkCall { ac_dpid : Z; ac_port : Z; ac_tx_bps : Q; ac_rx_bps : Q }.

Definition Row := (Q * list Z)%type.

Record World := mkWorld {
  ctl : Controller;
  wire : list (Datapath * Msg);        (* messages handed to a switch handle *)
  logs : list LogRecord;
  calls : list AgentCall;
  csv : list Row;                      (* rows of logs/stats_log.csv *)
  faults : list (option Exn);          (* outcomes of the coming send_msg calls *)
  csv_fault : option Exn               (* outcome of opening the CSV file *) }.

Definition set_ctl (c : Controller) (w : World) : World :=
  mkWorld c (wire w) (logs w) (calls w) (csv w) (faults w) (csv_fault w).

Definition init_world : World := mkWorld init_controller [] [] [] [] [] None.

(** ** Computations: state and exceptions *)

Inductive Result (A : Type) :=
| Ok (a : A)
| Raise (e : Exn).
Arguments Ok {A} a.
Arguments Raise {A} e.

Definition M (A : Type) : Type := World -> Result A * World.

Definition ret {A} (a : A) : M A := fun w => (Ok a, w).

Definition bind {A B} (m : M A) (k : A -> M B) : M B :=
  fun w => match m w with
           | (Ok a, w') => k a w'
           | (Raise e, w') => (Raise e, w')
           end.

Notation "x <- m ;; k" := (bind m (fun x => k))
  (at level 100, m at next level, right associativity).
Notation "m ;; k" := (bind m (fun _ => k))
  (at level 100, right associativity).

(** [try: m except Exception as e: h e] *)
Definition try_except {A} (m : M A) (h : Exn -> M A) : M A :=
  fun w => match m w with
           | (Ok a, w') => (Ok a, w')
           | (Raise e, w') => h e w'
           end.

Definition raise {A} (e : Exn) : M A := fun w => (Raise e, w).

Definition get_ctl : M Controller := fun w => (Ok (ctl w), w).

Definition modify_ctl (f : Controller -> Controller) : M unit :=
  fun w => (Ok tt, set_ctl (f (ctl w)) w).

Definition logger (r : LogRecord) : M unit :=
  fun w => (Ok tt, mkWorld (ctl w) (wire w) (logs w ++ [r]) (calls w) (csv w)
                           (faults w) (csv_fault w)).

(** [dp.send_msg(msg)]: the next outcome of the script decides whether the
    call raises; a message is on the wire only when the call returned. *)
Definition send_msg (dp : Datapath) (msg : Msg) : M unit :=
  fun w =>
    match faults w with
    | Some e :: rest =>
        (Raise e, mkWorld (ctl w) (wire w) (logs w) (calls w) (csv w) rest (csv_fault w))
    | None :: rest =>
        (Ok tt, mkWorld (ctl w) (wire w ++ [(dp, msg)]) (logs w) (calls w) (csv w)
                        rest (csv_fault w))
    | [] =>
        (Ok tt, mkWorld (ctl w) (wire w ++ [(dp, msg)]) (logs w) (calls w) (csv w)
                        [] (csv_fault w))
    end.

(** Appending the rows of one reply to the CSV file. *)
Definition write_rows (rows : list Row) : M unit :=
  fun w =>
    match csv_fault w with
    | Some e => (Raise e, w)
    | None => (Ok tt, mkWorld (ctl w) (wire w) (logs w) (calls w) (csv w ++ rows)
                              (faults w) (csv_fault w))
    end.

Fixpoint for_each {A} (l : list A) (body : A -> M unit) : M unit :=
  match l with
  | [] => ret tt
  | x :: l' => body x ;; for_each l' body
  end.

(** What a computation adds to the wire, to the log and to the agent calls. *)
Definition sent_by {A} (m : M A) (w : World) : list (Datapath * Msg) :=
  drop (length (wire w)) (wire (snd (m w))).

Definition logged_by {A} (m : M A) (w : World) : list LogRecord :=
  drop (length (logs w)) (logs (snd (m w))).

Definition calls_by {A} (m : M A) (w : World) : list AgentCall :=
  drop (length (calls w)) (calls (snd (m w))).

(** Python's [max(a, b)] on two numbers: [b] when [b > a], else [a]. *)
Definition py_max (a b : Q) : Q := if Qlt_le_dec a b then b else a.

(** ** Python floats *)

(** Arithmetic on IEEE 754 binary64 numbers, the floats of Python. A finite
    double is the rational it denotes. The result of an operation is the
    exact result rounded to 53 significant bits, to the nearest and to the
    even significand on a tie. The exponent range is left out: nothing
    overflows to infinity and there are no subnormal numbers (the byte
    counters of a switch are 64-bit integers and the clock readings are
    seconds since 1970, far from both ends of the range). *)
Module Double.

Definition prec : Z := 53.

(** The integer nearest to [n / d], for [0 <= n] and [0 < d]; the even one
    of the two when [n / d] is half-way. *)
Definition nearest_even (n d : Z) : Z :=
  let q := n / d in
  match 2 * (n mod d) ?= d with
  | Lt => q
  | Gt => q + 1
  | Eq => if Z.even q then q else q + 1
  end.

(** [a / d] rounded: with [s] and [k] such that [a * 2^s / (d * 2^k)] lies
    in [[2^52, 2^53)], the result is the nearest integer to that quotient
    times [2^(k - s)]. *)
Definition round_pos (a d : positive) : Q :=
  let s := Z.max 0 (prec + 1 + Z.log2 (Zpos d) - Z.log2 (Zpos a)) in
  let k := Z.log2 (Zpos a * 2 ^ s / Zpos d) + 1 - prec in
  Qred (Qmake (nearest_even (Zpos a * 2 ^ s) (Zpos d * 2 ^ k) * 2 ^ k) (Z.to_pos (2 ^ s))).

Definition round (q : Q) : Q :=
  match Qnum (Qred q) with
  | Z0 => 0%Q
  | Zpos a => round_pos a (Qden (Qred q))
  | Zneg a => (- round_pos a (Qden (Qred q)))%Q
  end.

(** The conversion of an integer operand, [x - y], [x * y] and [x / y] on
    floats, and the literal [1e-9]. *)
Definition of_int (z : Z) : Q := round (inject_Z z).
Definition sub (x y : Q) : Q := round (x - y).
Definition mul (x y : Q) : Q := round (x * y).
Definition div (x y : Q) : Q := round (x / y).
Definition lit_1e_9 : Q := round (1 # 1000000000).

(** The unit roundoff of the format, [2^-53]. *)
Definition u : Q := 1 # 9007199254740992.

(** [x] lies between [lo * y] and [hi * y]; [x] is [y] up to a relative
    error of [eps]. *)
Definition within (lo hi x y : Q) : Prop := (lo * y <= x)%Q /\ (x <= hi * y)%Q.
Definition near (eps x y : Q) : Prop := within (1 - eps) (1 + eps) x y.

(** A bound on the relative error of four roundings in a row, [2^-50]. *)
Definition tol : Q := 1 # 1125899906842624.

(** The rational a finite binary64 number of the Standard Library denotes,
    and the binary64 number of an integer. *)
Definition of_spec_float (x : spec_float) : option Q :=
  match x with
  | S754_zero _ => Some 0%Q
  | S754_finite s m e =>
      let v := if 0 <=? e then inject_Z (Zpos m * 2 ^ e)
               else Qmake (Zpos m) (Z.to_pos (2 ^ (- e))) in
      Some (Qred (if s then - v else v)%Q)
  | _ => None
  end.

Definition binary64 (z : Z) : spec_float := binary_normalize 53 1024 z 0 false.

End Double.

Arguments Double.round : simpl never.
Arguments Double.of_int : simpl never.
Arguments Double.sub : simpl never.
Arguments Double.mul : simpl never.
Arguments Double.div : simpl never.

(** ** The controller *)

Section Controller.

(** [self.agent_manager.act(dpid, port_no, tx_bps, rx_bps, explore=False)] *)
Variable agent_act : Z -> Z -> Q -> Q -> Z.

Definition agent_manager_act (d p : Z) (tx rx : Q) : M Z :=
  fun w => (Ok (agent_act d p tx rx),
            mkWorld (ctl w) (wire w) (logs w) (calls w ++ [mkCall d p tx rx]) (csv w)
                    (faults w) (csv_fault w)).

Definition _install_table_miss (dp : Datapath) : M unit :=
  let match_ := mkMatch None None None in
  let actions := [OFPActionOutput OFPP_CONTROLLER OFPCML_NO_BUFFER] in
  let inst := [OFPInstructionActions OFPIT_APPLY_ACTIONS actions] in
  send_msg dp (OFPFlowMod 0 match_ inst 0 0).

Definition switch_features_handler (dp : Datapath) : M unit :=
  let dpid := dp_id dp in
  logger (LogSwitchConnected dpid) ;;
  modify_ctl (fun c => mkController (mac_to_port c) (<[dpid := dp]> (datapaths c))
                                    (last_stats c) (meter_installed c)) ;;
  _install_table_miss dp.

Definition state_change_handler (ev : StateChange) : M unit :=
  let dp := sc_datapath ev in
  match sc_state ev with
  | MAIN_DISPATCHER =>
      modify_ctl (fun c => mkController (mac_to_port c) (<[dp_id dp := dp]> (datapaths c))
                                        (last_stats c) (meter_installed c))
  | DEAD_DISPATCHER =>
      modify_ctl (fun c => mkController (mac_to_port c) (delete (dp_id dp) (datapaths c))
                                        (last_stats c) (meter_installed c))
  | _ => ret tt
  end.

Definition _packet_in (ev : PacketIn) : M unit :=
  let dp := pi_datapath ev in
  let dpid := dp_id dp in
  match pi_eth ev with
  | [] => raise "IndexError"
  | eth :: _ =>
      if ethertype eth =? ETH_TYPE_LLDP then ret tt
      else
        let in_port := pi_in_port ev in
        let dst := dst eth in
        let src := src eth in
        c <- get_ctl ;;
        let table := <[src := in_port]> (default ∅ (mac_to_port c !! dpid)) in
        modify_ctl (fun c => mkController (<[dpid := table]> (mac_to_port c)) (datapaths c)
                                          (last_stats c) (meter_installed c)) ;;
        let out_port := match table !! dst with
                        | Some p => p
                        | None => OFPP_FLOOD
                        end in
        let actions := [OFPActionOutput out_port OFPCML_MAX] in
        (if negb (out_port =? OFPP_FLOOD) then
           let match_ := mkMatch (Some in_port) (Some dst) (Some src) in
           let inst := [OFPInstructionActions OFPIT_APPLY_ACTIONS actions] in
           send_msg dp (OFPFlowMod 1 match_ inst 60 0)
         else ret tt) ;;
        send_msg dp (OFPPacketOut (pi_buffer_id ev) in_port actions
                       (if negb (pi_buffer_id ev =? OFP_NO_BUFFER) then None
                        else Some (pi_data ev)))
  end.

Definition _request_port_stats (dp : Datapath) : M unit :=
  send_msg dp (OFPPortStatsRequest 0 OFPP_ANY).

(** One turn of the [while True] loop of [_monitor], up to the sleep. The
    requests go out in the order of the keys of the registry, where Python
    follows the order of insertion: the statements below speak of the
    requests of a round as a collection, never of their order. *)
Definition _monitor_round : M unit :=
  c <- get_ctl ;;
  for_each (map snd (map_to_list (datapaths c))) _request_port_stats.

Definition _ensure_meter (dp : Datapath) (meter_id rate_kbps : Z) : M unit :=
  let key := (dp_id dp, meter_id) in
  c <- get_ctl ;;
  if decide (key ∈ meter_installed c) then ret tt
  else
    let band := mkBand rate_kbps 0 in
    send_msg dp (OFPMeterMod OFPMC_ADD OFPMF_KBPS meter_id [band]) ;;
    modify_ctl (fun c => mkController (mac_to_port c) (datapaths c) (last_stats c)
                                      ({[key]} ∪ meter_installed c)) ;;
    logger (LogCreatedMeter (dp_id dp) meter_id rate_kbps).

Definition _enforce_action (dp : Datapath) (in_port action_id : Z) : M unit :=
  if action_id =? 0 then ret tt
  else if action_id =? 1 then
    let meter_id := 1000 + in_port in
    _ensure_meter dp meter_id DEFAULT_LIMIT_KBPS ;;
    let match_ := mkMatch (Some in_port) None None in
    let inst := [OFPInstructionMeter meter_id;
                 OFPInstructionActions OFPIT_APPLY_ACTIONS
                   [OFPActionOutput OFPP_NORMAL OFPCML_MAX]] in
    send_msg dp (OFPFlowMod 300 match_ inst DEFAULT_IDLE_TO 0) ;;
    logger (LogInstalledMeterFlow (dp_id dp) in_port meter_id DEFAULT_LIMIT_KBPS)
  else if action_id =? 2 then
    let match_ := mkMatch (Some in_port) None None in
    let inst := [] in
    send_msg dp (OFPFlowMod 400 match_ inst DEFAULT_IDLE_TO 0) ;;
    logger (LogInstalledDrop (dp_id dp) in_port DEFAULT_IDLE_TO)
  else if action_id =? 3 then
    let match_ := mkMatch (Some in_port) None None in
    let inst := [OFPInstructionActions OFPIT_APPLY_ACTIONS
                   [OFPActionOutput OFPP_FLOOD OFPCML_MAX]] in
    send_msg dp (OFPFlowMod 200 match_ inst DEFAULT_IDLE_TO 0) ;;
    logger (LogRerouteStub (dp_id dp) in_port)
  else ret tt.

(** The dictionary [cur] and the CSV row of one entry of a reply. *)
Definition cur_sample (now : Q) (d : Z) (stat : PortStat) : Sample :=
  mkSample now d (st_port_no stat) (st_rx_bytes stat) (st_tx_bytes stat)
           (default 0 (st_rx_packets stat)) (default 0 (st_tx_packets stat))
           (default 0 (st_duration_sec stat)).

Definition row_of (cur : Sample) : Row :=
  (timestamp cur, [dpid cur; port_no cur; rx_bytes cur; tx_bytes cur;
                   rx_packets cur; tx_packets cur; duration_sec cur]).

(** The rates of an interval, as the handler computes them. *)
Definition handler_dt (now : Q) (prev : Sample) : Q :=
  py_max Double.lit_1e_9 (Double.sub now (timestamp prev)).

Definition bps (d_bytes : Z) (dt : Q) : Q :=
  Double.div (Double.mul (Double.of_int d_bytes) 8) dt.

(** The body of the loop over [ev.msg.body], after the row was appended. *)
Definition stat_entry (now : Q) (dp : Datapath) (stat : PortStat) : M unit :=
  let d := dp_id dp in
  let p := st_port_no stat in
  let key := (d, p) in
  let cur := cur_sample now d stat in
  c <- get_ctl ;;
  match last_stats c !! key with
  | Some prev =>
      let dt := handler_dt now prev in
      let d_tx := tx_bytes cur - tx_bytes prev in
      let d_rx := rx_bytes cur - rx_bytes prev in
      if (0 <=? d_tx) && (0 <=? d_rx) then
        let tx_bps := bps d_tx dt in
        let rx_bps := bps d_rx dt in
        action <- agent_manager_act d p tx_bps rx_bps ;;
        logger (LogAgentAction d p tx_bps rx_bps action) ;;
        try_except (_enforce_action dp p action)
                   (fun e => logger (LogEnforceError d p e))
      else ret tt
  | None => ret tt
  end ;;
  modify_ctl (fun c => mkController (mac_to_port c) (datapaths c)
                                    (<[key := cur]> (last_stats c)) (meter_installed c)).

Definition _port_stats_reply_handler (now : Q) (ev : PortStatsReply) : M unit :=
  let dp := rp_datapath ev in
  let rows := map (fun stat => row_of (cur_sample now (dp_id dp) stat)) (rp_body ev) in
  for_each (rp_body ev) (stat_entry now dp) ;;
  try_except (write_rows rows) (fun e => logger (LogFailedWriteStats e)).

End Controller.

(** ** Dispatch of the events *)

(** The events the handlers are registered for with [set_ev_cls], and a turn
    of the monitor loop. *)
Inductive Event :=
| EventOFPSwitchFeatures (dp : Datapath)
| EventOFPStateChange (ev : StateChange)
| EventOFPPacketIn (ev : PacketIn)
| EventOFPPortStatsReply (now : Q) (ev : PortStatsReply)
| MonitorTick.

Definition dispatch (agent_act : Z -> Z -> Q -> Q -> Z) (ev : Event) : M unit :=
  match ev with
  | EventOFPSwitchFeatures dp => switch_features_handler dp
  | EventOFPStateChange ev => state_change_handler ev
  | EventOFPPacketIn ev => _packet_in ev
  | EventOFPPortStatsReply now ev => _port_stats_reply_handler agent_act now ev
  | MonitorTick => _monitor_round
  end.

(** The world after a sequence of events. An exception that leaves a handler
    ends that handler only; what it did before stays. *)
Definition run_events (agent_act : Z -> Z -> Q -> Q -> Z) (evs : list Event) (w : World)
  : World :=
  fold_left (fun w ev => snd (dispatch agent_act ev w)) evs w.

(** ** The feature extraction of [tools/parse_logs.py] *)

Module ParseLogs.

Record Feature := mkFeature {
  f_timestamp : Q;
  f_dpid : Z;
  f_port_no : Z;
  tx_bps : Q;
  rx_bps : Q;
  tx_pps : Q;
  rx_pps : Q }.

(** [groups[(r['dpid'], r['port_no'])].append(r)] on a [defaultdict(list)]:
    the groups in the order of their first row. *)
Fixpoint group_add (k : Z * Z) (r : Sample) (groups : list ((Z * Z) * list Sample))
  : list ((Z * Z) * list Sample) :=
  match groups with
  | [] => [(k, [r])]
  | (k', l) :: rest =>
      if decide (k = k') then (k', l ++ [r]) :: rest
      else (k', l) :: group_add k r rest
  end.

Definition group_rows (rows : list Sample) : list ((Z * Z) * list Sample) :=
  fold_left (fun g r => group_add (dpid r, port_no r) r g) rows [].

(** A stable sort by a strict order, as [list.sort(key=...)] is. *)
Fixpoint insert_sorted {A} (lt : A -> A -> bool) (x : A) (l : list A) : list A :=
  match l with
  | [] => [x]
  | y :: l' => if lt y x then y :: insert_sorted lt x l' else x :: y :: l'
  end.

Definition stable_sort {A} (lt : A -> A -> bool) (l : list A) : list A :=
  foldr (insert_sorted lt) [] l.

Definition Qlt_bool (a b : Q) : bool := negb (Qle_bool b a).

(** The body of [for cur in grp] once [prev] is set: the feature of the
    interval from [prev] to [cur], or nothing when the interval is skipped. *)
Definition interval (prev cur : Sample) : option Feature :=
  let dt := Double.sub (timestamp cur) (timestamp prev) in
  if Qle_bool dt 0 then None
  else
    let d_tx_bytes := tx_bytes cur - tx_bytes prev in
    let d_rx_bytes := rx_bytes cur - rx_bytes prev in
    let d_tx_pkts := tx_packets cur - tx_packets prev in
    let d_rx_pkts := rx_packets cur - rx_packets prev in
    if (d_tx_bytes <? 0) || (d_rx_bytes <? 0) || (d_tx_pkts <? 0) || (d_rx_pkts <? 0)
    then None
    else Some (mkFeature (timestamp cur) (dpid cur) (port_no cur)
                 (Double.div (Double.mul (Double.of_int d_tx_bytes) 8) dt)
                 (Double.div (Double.mul (Double.of_int d_rx_bytes) 8) dt)
                 (Double.div (Double.of_int d_tx_pkts) dt)
                 (Double.div (Double.of_int d_rx_pkts) dt)).

Fixpoint scan (prev : option Sample) (grp : list Sample) : list Feature :=
  match grp with
  | [] => []
  | cur :: rest =>
      match prev with
      | None => scan (Some cur) rest
      | Some p =>
          match interval p cur with
          | None => scan (Some cur) rest
          | Some f => f :: scan (Some cur) rest
          end
      end
  end.

(** The order of the tuples [(timestamp, dpid, port_no)]. *)
Definition feature_lt (a b : Feature) : bool :=
  if negb (Qeq_bool (f_timestamp a) (f_timestamp b))
  then Qlt_bool (f_timestamp a) (f_timestamp b)
  else if negb (f_dpid a =? f_dpid b) then f_dpid a <? f_dpid b
  else f_port_no a <? f_port_no b.

Definition compute_features (rows : list Sample) : list Feature :=
  let feats :=
    flat_map (fun g => scan None (stable_sort
                                    (fun a b => Qlt_bool (timestamp a) (timestamp b))
                                    (snd g)))
             (group_rows rows) in
  stable_sort feature_lt feats.

End ParseLogs.

(** ** Vocabulary of the statements *)

(** [proj] grew from [w] to [w'] by entries that all satisfy [P]. *)
Definition grows {X} (proj : World -> list X) (P : X -> Prop) (w w' : World) : Prop :=
  exists d, proj w' = proj w ++ d /\ Forall P d.

(** Whatever the world, the computation only appends to [proj] entries that
    satisfy [P]. *)
Definition keeps {X A} (proj : World -> list X) (P : X -> Prop) (m : M A) : Prop :=
  forall w, grows proj P w (snd (m w)).

Definition flow_priorities (l : list (Datapath * Msg)) : list Z :=
  omap (fun x => flow_priority (snd x)) l.

Definition mutations (l : list (Datapath * Msg)) : list (Datapath * Msg) :=
  filter (fun x => is_mutation (snd x) = true) l.

Definition meter_mods (l : list (Datapath * Msg)) : list (Datapath * Msg) :=
  filter (fun x => is_meter_mod (snd x) = true) l.

(** The computation leaves the component [f] of the world as it was. *)
Definition frames {X A} (f : World -> X) (m : M A) : Prop :=
  forall w, f (snd (m w)) = f w.

(** Every registered handle sits under its own identifier. *)
Definition registry_wf (c : Controller) : Prop :=
  forall k dp, datapaths c !! k = Some dp -> dp_id dp = k.

(** The messages of a rate-limit decision on port [p] of [dp]. *)
Definition meter_create (dp : Datapath) (p : Z) : Datapath * Msg :=
  (dp, OFPMeterMod OFPMC_ADD OFPMF_KBPS (1000 + p) [mkBand DEFAULT_LIMIT_KBPS 0]).

Definition meter_flow (dp : Datapath) (p : Z) : Datapath * Msg :=
  (dp, OFPFlowMod 300 (mkMatch (Some p) None None)
         [OFPInstructionMeter (1000 + p);
          OFPInstructionActions OFPIT_APPLY_ACTIONS [OFPActionOutput OFPP_NORMAL OFPCML_MAX]]
         DEFAULT_IDLE_TO 0).

Definition drop_flow (dp : Datapath) (p : Z) : Datapath * Msg :=
  (dp, OFPFlowMod 400 (mkMatch (Some p) None None) [] DEFAULT_IDLE_TO 0).

(** The call to the agent that an entry gives rise to, if any. *)
Definition entry_call (now : Q) (d : Z) (stat : PortStat) (prev : option Sample)
  : option AgentCall :=
  match prev with
  | Some prev =>
      let d_tx := st_tx_bytes stat - tx_bytes prev in
      let d_rx := st_rx_bytes stat - rx_bytes prev in
      if (0 <=? d_tx) && (0 <=? d_rx)
      then Some (mkCall d (st_port_no stat) (bps d_tx (handler_dt now prev))
                        (bps d_rx (handler_dt now prev)))
      else None
  | None => None
  end.

Definition record_sample (key : Z * Z) (cur : Sample) (w : World) : World :=
  set_ctl (mkController (mac_to_port (ctl w)) (datapaths (ctl w))
                        (<[key := cur]> (last_stats (ctl w))) (meter_installed (ctl w))) w.

(** The world once the agent was consulted with [c] and its answer [a] was
    logged. *)
Definition decided (c : AgentCall) (a : Z) (w : World) : World :=
  mkWorld (ctl w) (wire w)
          (logs w ++ [LogAgentAction (ac_dpid c) (ac_port c) (ac_tx_bps c) (ac_rx_bps c) a])
          (calls w ++ [c]) (csv w) (faults w) (csv_fault w).

(** The world once the next outcome of the script was consumed by a
    submission that raised. *)
Definition after_fault (rest : list (option Exn)) (w : World) : World :=
  mkWorld (ctl w) (wire w) (logs w) (calls w) (csv w) rest (csv_fault w).

(** ** Inputs of the examples *)

Module Ex.

(** An agent that always answers [a]. *)
Definition stub (a : Z) : Z -> Z -> Q -> Q -> Z := fun _ _ _ _ => a.

Definition dp1 : Datapath := mkDatapath 1 0.

Definition stat_t0 : PortStat := mkPortStat 3 1000 2000 None None None.
Definition stat_t1 : PortStat := mkPortStat 3 9000 10000 None None None.

Definition sample_t0 : Sample := mkSample 0 1 3 1000 2000 0 0 0.
Definition sample_t1 : Sample := mkSample 1 1 3 9000 10000 0 0 0.

(** Switch 1 connected and port 3 sampled once, at time 0. *)
Definition w_connected : World := snd (switch_features_handler dp1 init_world).

Definition w_sampled : World :=
  snd (_port_stats_reply_handler (stub ACT_NOOP) 0 (mkReply dp1 [stat_t0]) w_connected).

(** The switch has learnt an address on port 3 and a meter is installed. *)
Definition w_busy : World :=
  let w1 := snd (_packet_in (mkPacketIn dp1 3 OFP_NO_BUFFER "" [mkEth 0x0800 "bb" "aa"])
                   w_sampled) in
  let w2 := snd (_enforce_action dp1 3 ACT_METER w1) in
  w2.

Definition w_dead : World :=
  snd (state_change_handler (mkStateChange dp1 DEAD_DISPATCHER) w_busy).

(** Switch 1 comes back on a new connection before the end of the old one
    is noticed: the DEAD event of the old handle then removes the entry of the
    new one. *)
Definition dp1_again : Datapath := mkDatapath 1 1.

Definition w_reconnected : World :=
  let w1 := snd (switch_features_handler dp1_again w_busy) in
  let w2 := snd (state_change_handler (mkStateChange dp1_again MAIN_DISPATCHER) w1) in
  snd (state_change_handler (mkStateChange dp1 DEAD_DISPATCHER) w2).

(** The next two submissions: the first is accepted, the second raises. *)
Definition w_flaky : World :=
  mkWorld (ctl w_sampled) (wire w_sampled) (logs w_sampled) (calls w_sampled)
          (csv w_sampled) [None; Some "connection reset"] None.

(** Port 3 of switch 1 sampled once, at a clock reading of the year 2023,
    and the rows of that sample and of one three seconds later. *)
Definition w_epoch : World :=
  snd (_port_stats_reply_handler (stub ACT_NOOP) 1700000000 (mkReply dp1 [stat_t0])
         w_connected).

Definition sample_e0 : Sample := mkSample 1700000000 1 3 1000 2000 0 0 0.
Definition sample_e3 : Sample := mkSample 1700000003 1 3 9000 10000 0 0 0.

(** The next submission raises. *)
Definition w_broken : World :=
  mkWorld (ctl w_sampled) (wire w_sampled) (logs w_sampled) (calls w_sampled)
          (csv w_sampled) [Some "connection reset"] None.

End Ex.

(** ** The observation of [agents/multi/agent_manager.py] *)

Module AgentManager.

Definition SCALE : Q := 100000000.

(** Python's [min(a, b)] on two numbers: [b] when [b < a], else [a]. *)
Definition py_min (a b : Q) : Q := if Qlt_le_dec b a then b else a.

(** The four entries of the state vector, before the array stores them as
    32-bit floats. The quotients of [_normalize] are kept exact: what is
    stated of an observation are bounds and saturations, which the rounding of
    a quotient and the conversion to 32-bit floats keep. *)
Record Observation := mkObservation { tx_n : Q; rx_n : Q; dpid_n : Q; port_n : Q }.

Definition _normalize (dpid port_no : Z) (tx_bps rx_bps : Q) : Observation :=
  let tx_n := py_max 0 (py_min 1 (tx_bps / SCALE)) in
  let rx_n := py_max 0 (py_min 1 (rx_bps / SCALE)) in
  let dpid_n := py_min 1 (inject_Z dpid / 100) in
  let port_n := py_min 1 (inject_Z port_no / 100) in
  mkObservation tx_n rx_n dpid_n port_n.

(** [act]: the observation is normalised and handed to the decision agent,
    here the parameter [agent]. *)
Definition act (agent : Observation -> Z) (dpid port_no : Z) (tx_bps rx_bps : Q) : Z :=
  let state := _normalize dpid port_no tx_bps rx_bps in
  agent state.

End AgentManager.

(** ** More vocabulary *)

(** The port the forwarding table of switch [d] holds for [mac]. *)
Definition fwd_lookup (c : Controller) (d : Z) (mac : string) : option Z :=
  mac_to_port c !! d ≫= (fun t => t !! mac).

(** The messages of the learning switch, of a connection and of a poll. *)
Definition packet_out_of (ev : PacketIn) (out_port : Z) : Datapath * Msg :=
  (pi_datapath ev,
   OFPPacketOut (pi_buffer_id ev) (pi_in_port ev) [OFPActionOutput out_port OFPCML_MAX]
     (if pi_buffer_id ev =? OFP_NO_BUFFER then Some (pi_data ev) else None)).

Definition unicast_flow (ev : PacketIn) (eth : Ethernet) (out_port : Z) : Datapath * Msg :=
  (pi_datapath ev,
   OFPFlowMod 1 (mkMatch (Some (pi_in_port ev)) (Some (dst eth)) (Some (src eth)))
     [OFPInstructionActions OFPIT_APPLY_ACTIONS [OFPActionOutput out_port OFPCML_MAX]] 60 0).

Definition table_miss_flow (dp : Datapath) : Datapath * Msg :=
  (dp, OFPFlowMod 0 (mkMatch None None None)
         [OFPInstructionActions OFPIT_APPLY_ACTIONS
            [OFPActionOutput OFPP_CONTROLLER OFPCML_NO_BUFFER]] 0 0).

Definition reroute_flow (dp : Datapath) (p : Z) : Datapath * Msg :=
  (dp, OFPFlowMod 200 (mkMatch (Some p) None None)
         [OFPInstructionActions OFPIT_APPLY_ACTIONS [OFPActionOutput OFPP_FLOOD OFPCML_MAX]]
         DEFAULT_IDLE_TO 0).

Definition stats_request (dp : Datapath) : Datapath * Msg :=
  (dp, OFPPortStatsRequest 0 OFPP_ANY).

(** The (switch, meter) pairs of the meter modifications of a wire. *)
Definition meter_keys (l : list (Datapath * Msg)) : list (Z * Z) :=
  omap (fun x => (fun m => (dp_id (fst x), m)) <$> meter_of (snd x)) l.

(** From [w] to [w'] the wire grew, and the installed-meter record grew by
    the meters of the meter modifications that reached the wire. *)
Definition meter_step (w w' : World) : Prop :=
  exists d, wire w' = wire w ++ d /\
            meter_installed (ctl w') = list_to_set (meter_keys d) ∪ meter_installed (ctl w).

Definition syncs {A} (m : M A) : Prop := forall w, meter_step w (snd (m w)).

(** What an enforcement may put on the wire for port [p] of [dp]. *)
Definition mitigation_of (dp : Datapath) (p : Z) (x : Datapath * Msg) : Prop :=
  fst x = dp /\
  match snd x with
  | OFPFlowMod _ mt _ idle hard =>
      mt = mkMatch (Some p) None None /\ idle = DEFAULT_IDLE_TO /\ hard = 0
  | OFPMeterMod command flags mid bands =>
      command = OFPMC_ADD /\ flags = OFPMF_KBPS /\ mid = 1000 + p /\
      bands = [mkBand DEFAULT_LIMIT_KBPS 0]
  | _ => False
  end.

(** The switch handle an event comes with. *)
Definition event_handle (ev : Event) : option Datapath :=
  match ev with
  | EventOFPSwitchFeatures dp => Some dp
  | EventOFPStateChange ev => Some (sc_datapath ev)
  | EventOFPPacketIn ev => Some (pi_datapath ev)
  | EventOFPPortStatsReply _ ev => Some (rp_datapath ev)
  | MonitorTick => None
  end.

(** The handles of the registry and of the wire are among [known]. *)
Definition handles_within (known : list Datapath) (w : World) : Prop :=
  (forall k dp, datapaths (ctl w) !! k = Some dp -> dp ∈ known) /\
  Forall (fun x => fst x ∈ known) (wire w).

(** A world in which nothing happened yet, whatever the switch handles and
    the file system will do. *)
Definition fresh_world (fs : list (option Exn)) (cf : option Exn) : World :=
  mkWorld init_controller [] [] [] [] fs cf.

(** The key of a row of the log and the order of the features. *)
Definition row_key (r : Sample) : Z * Z := (dpid r, port_no r).

Definition feature_le (a b : ParseLogs.Feature) : Prop :=
  (ParseLogs.f_timestamp a < ParseLogs.f_timestamp b)%Q \/
  ((ParseLogs.f_timestamp a == ParseLogs.f_timestamp b)%Q /\
   (ParseLogs.f_dpid a < ParseLogs.f_dpid b \/
    (ParseLogs.f_dpid a = ParseLogs.f_dpid b /\
     ParseLogs.f_port_no a <= ParseLogs.f_port_no b))).

(** ** More inputs of the examples *)

Module Demo.

(** Host aa on port 3 of switch 1 sends an unbuffered frame to bb; bb, on
    port 5, answers with a frame the switch buffered under 7. *)
Definition frame_ab : Ethernet := mkEth 0x0800 "bb" "aa".
Definition frame_ba : Ethernet := mkEth 0x0800 "aa" "bb".
Definition frame_aa : Ethernet := mkEth 0x0800 "aa" "aa".
Definition frame_lldp : Ethernet := mkEth ETH_TYPE_LLDP "01:80:c2:00:00:0e" "aa".

Definition pkt_ab : PacketIn := mkPacketIn Ex.dp1 3 OFP_NO_BUFFER "payload" [frame_ab].
Definition pkt_ba : PacketIn := mkPacketIn Ex.dp1 5 7 "payload" [frame_ba].
Definition pkt_aa : PacketIn := mkPacketIn Ex.dp1 3 OFP_NO_BUFFER "payload" [frame_aa].
Definition pkt_lldp : PacketIn := mkPacketIn Ex.dp1 3 OFP_NO_BUFFER "payload" [frame_lldp].

(** Switch 1 once it has seen the frame of aa. *)
Definition w_learnt : World := snd (_packet_in pkt_ab Ex.w_connected).

Definition dp2 : Datapath := mkDatapath 2 0.

(** Switches 1 and 2 connected. *)
Definition w_two : World := snd (switch_features_handler dp2 Ex.w_connected).

(** Three samples of port 3 of switch 1, out of order in the file, with a
    counter reset in the last one, and one sample of port 4. *)
Definition log_rows : list Sample :=
  [ mkSample 2 1 3 9000 10000 90 100 2;
    mkSample 1 1 3 1000 2000 10 20 1;
    mkSample 1 1 4 500 600 5 6 1;
    mkSample 3 1 3 100 200 1 2 0 ].

Definition log_feature : ParseLogs.Feature :=
  ParseLogs.mkFeature 2 1 3 64000 64000 80 80.

End Demo.

(** * Properties *)

(** ** Growth of the wire, of the log and of the agent calls *)

Section Growth.

Context {X : Type} (proj : World -> list X) (P : X -> Prop).

Lemma grows_refl w : grows proj P w w.
Proof. exists []. split; [by rewrite app_nil_r | constructor]. Qed.

Lemma grows_same w w' : proj w' = proj w -> grows proj P w w'.
Proof. intros H. exists []. split; [by rewrite app_nil_r | constructor]. Qed.

Lemma grows_trans w1 w2 w3 :
  grows proj P w1 w2 -> grows proj P w2 w3 -> grows proj P w1 w3.
Proof.
  intros [d1 [E1 F1]] [d2 [E2 F2]]. exists (d1 ++ d2). split.
  - by rewrite E2, E1, app_assoc.
  - by apply Forall_app.
Qed.

Lemma grows_one w w' x : proj w' = proj w ++ [x] -> P x -> grows proj P w w'.
Proof. intros E H. exists [x]. split; [done | by repeat constructor]. Qed.

Lemma grows_drop w w' :
  grows proj P w w' -> Forall P (drop (length (proj w)) (proj w')).
Proof. intros [d [E F]]. by rewrite E, drop_app_length. Qed.

Lemma keeps_ret {A} (a : A) : keeps proj P (ret a).
Proof. intros w. apply grows_refl. Qed.

Lemma keeps_raise {A} e : keeps proj P (@raise A e).
Proof. intros w. apply grows_refl. Qed.

Lemma keeps_get_ctl : keeps proj P get_ctl.
Proof. intros w. apply grows_refl. Qed.

Lemma keeps_bind {A B} (m : M A) (k : A -> M B) :
  keeps proj P m -> (forall a, keeps proj P (k a)) -> keeps proj P (bind m k).
Proof.
  intros Hm Hk w. unfold bind. specialize (Hm w).
  destruct (m w) as [[a|e] w1]; simpl in *; [|done].
  eapply grows_trans; [exact Hm | apply Hk].
Qed.

Lemma keeps_try {A} (m : M A) h :
  keeps proj P m -> (forall e, keeps proj P (h e)) -> keeps proj P (try_except m h).
Proof.
  intros Hm Hh w. unfold try_except. specialize (Hm w).
  destruct (m w) as [[a|e] w1]; simpl in *; [done|].
  eapply grows_trans; [exact Hm | apply Hh].
Qed.

Lemma keeps_for_each {A} (l : list A) body :
  (forall x, x ∈ l -> keeps proj P (body x)) -> keeps proj P (for_each l body).
Proof.
  induction l as [|x l IH]; intros H; simpl.
  - apply keeps_ret.
  - apply keeps_bind; [apply H; left | intros _; apply IH; intros y Hy; apply H; by right].
Qed.

End Growth.

(** The wire. *)

Lemma keeps_send P dp msg : P (dp, msg) -> keeps wire P (send_msg dp msg).
Proof.
  intros H w. unfold send_msg.
  destruct (faults w) as [|[e|] r]; simpl;
    solve [ by apply grows_same | by eapply grows_one ].
Qed.

Lemma keeps_wire_logger P r : keeps wire P (logger r).
Proof. intros w. by apply grows_same. Qed.

Lemma keeps_wire_modify P f : keeps wire P (modify_ctl f).
Proof. intros w. by apply grows_same. Qed.

Lemma keeps_wire_agent P ag d p tx rx : keeps wire P (agent_manager_act ag d p tx rx).
Proof. intros w. by apply grows_same. Qed.

Lemma keeps_wire_write P rows : keeps wire P (write_rows rows).
Proof. intros w. unfold write_rows. destruct (csv_fault w); by apply grows_same. Qed.

Ltac keeps_step :=
  first
    [ apply keeps_ret | apply keeps_raise | apply keeps_get_ctl
    | apply keeps_bind; [|intros ?] | apply keeps_try; [|intros ?]
    | match goal with |- keeps _ _ (if ?c then _ else _) => destruct c end
    | match goal with |- keeps _ _ (match ?c with _ => _ end) => destruct c end ].

Ltac keeps_wire :=
  repeat first
    [ keeps_step
    | apply keeps_wire_logger | apply keeps_wire_modify | apply keeps_wire_agent
    | apply keeps_wire_write | apply keeps_send ].

(** The agent calls. *)

Lemma keeps_calls_send P dp msg : keeps calls P (send_msg dp msg).
Proof.
  intros w. unfold send_msg. destruct (faults w) as [|[e|] r]; by apply grows_same.
Qed.

Lemma keeps_calls_logger P r : keeps calls P (logger r).
Proof. intros w. by apply grows_same. Qed.

Lemma keeps_calls_modify P f : keeps calls P (modify_ctl f).
Proof. intros w. by apply grows_same. Qed.

Lemma keeps_calls_write P rows : keeps calls P (write_rows rows).
Proof. intros w. unfold write_rows. destruct (csv_fault w); by apply grows_same. Qed.

Lemma keeps_calls_agent (P : AgentCall -> Prop) ag d p tx rx :
  P (mkCall d p tx rx) -> keeps calls P (agent_manager_act ag d p tx rx).
Proof. intros H w. by eapply grows_one. Qed.

Ltac keeps_calls :=
  repeat first
    [ keeps_step
    | apply keeps_calls_logger | apply keeps_calls_modify | apply keeps_calls_send
    | apply keeps_calls_write ].

(** ** Enforcement *)

(** Every message of an enforcement is a flow or meter mutation submitted to
    the handle the enforcement was called with. *)
Lemma enforce_wire (P : Datapath * Msg -> Prop) dp p a :
  (forall m, is_mutation m = true -> P (dp, m)) ->
  keeps wire P (_enforce_action dp p a).
Proof.
  intros HP. unfold _enforce_action, _ensure_meter. keeps_wire; by apply HP.
Qed.

Lemma enforce_calls P dp p a : keeps calls P (_enforce_action dp p a).
Proof. unfold _enforce_action, _ensure_meter. keeps_calls. Qed.

Ltac run :=
  unfold _enforce_action, _ensure_meter, _install_table_miss, bind, ret, get_ctl,
    modify_ctl, logger, send_msg, try_except, set_ctl, agent_manager_act;
  simpl.

(** An enforcement touches nothing of the controller but the set of
    installed meters, which can only grow by the meter of the port. *)
Lemma enforce_frame dp p a w :
  let w' := snd (_enforce_action dp p a w) in
  last_stats (ctl w') = last_stats (ctl w) /\
  mac_to_port (ctl w') = mac_to_port (ctl w) /\
  datapaths (ctl w') = datapaths (ctl w) /\
  csv w' = csv w /\ csv_fault w' = csv_fault w /\
  (meter_installed (ctl w') = meter_installed (ctl w) \/
   meter_installed (ctl w') = {[(dp_id dp, 1000 + p)]} ∪ meter_installed (ctl w)).
Proof.
  unfold _enforce_action.
  destruct (a =? 0); [run; tauto|].
  destruct (a =? 1).
  { unfold _ensure_meter, bind, get_ctl. simpl.
    destruct (decide _) as [Hin|Hnin]; run.
    - destruct (faults w) as [|[e|] r]; simpl; tauto.
    - destruct (faults w) as [|[e|] [|[e'|] r]]; simpl; tauto. }
  destruct (a =? 2); [run; destruct (faults w) as [|[e|] r]; simpl; tauto|].
  destruct (a =? 3); [run; destruct (faults w) as [|[e|] r]; simpl; tauto|].
  run; tauto.
Qed.

Lemma enforce_frame_calls dp p a w :
  calls (snd (_enforce_action dp p a w)) = calls w.
Proof.
  unfold _enforce_action.
  destruct (a =? 0); [done|].
  destruct (a =? 1).
  { unfold _ensure_meter, bind, get_ctl. simpl.
    destruct (decide _) as [Hin|Hnin]; run.
    - by destruct (faults w) as [|[e|] r].
    - by destruct (faults w) as [|[e|] [|[e'|] r]]. }
  destruct (a =? 2); [run; by destruct (faults w) as [|[e|] r]|].
  destruct (a =? 3); [run; by destruct (faults w) as [|[e|] r]|].
  done.
Qed.

(** ** Priorities *)

Lemma flow_priorities_sent {A} (P : Z -> Prop) (m : M A) w :
  keeps wire (fun x => forall pr, flow_priority (snd x) = Some pr -> P pr) m ->
  Forall P (flow_priorities (sent_by m w)).
Proof.
  intros H. specialize (H w). apply grows_drop in H. fold (sent_by m w) in H.
  unfold flow_priorities. induction H as [|x l Hx Hl IH]; simpl; [constructor|].
  unfold omap in *. simpl. destruct (flow_priority (snd x)) eqn:E; simpl; auto.
Qed.

Ltac one_priority :=
  apply flow_priorities_sent; unfold _enforce_action, _ensure_meter, _packet_in,
    _install_table_miss, switch_features_handler; simpl;
  keeps_wire; simpl; intros; congruence.

Lemma drop_priority dp p w :
  Forall (fun pr => pr = 400) (flow_priorities (sent_by (_enforce_action dp p ACT_DROP) w)).
Proof. one_priority. Qed.

Lemma meter_priority dp p w :
  Forall (fun pr => pr = 300) (flow_priorities (sent_by (_enforce_action dp p ACT_METER) w)).
Proof. one_priority. Qed.

Lemma reroute_priority dp p w :
  Forall (fun pr => pr = 200) (flow_priorities (sent_by (_enforce_action dp p ACT_REROUTE) w)).
Proof. one_priority. Qed.

Lemma unicast_priority ev w :
  Forall (fun pr => pr = 1) (flow_priorities (sent_by (_packet_in ev) w)).
Proof. one_priority. Qed.

Lemma table_miss_priority dp w :
  Forall (fun pr => pr = 0) (flow_priorities (sent_by (switch_features_handler dp) w)).
Proof. one_priority. Qed.

Lemma Forall_below (P Q : Z -> Prop) (l k : list Z) :
  (forall a b, P a -> Q b -> b < a) -> Forall P l -> Forall Q k ->
  Forall (fun a => Forall (fun b => b < a) k) l.
Proof.
  intros H Hl Hk. eapply Forall_impl; [exact Hl|]. intros a Ha.
  eapply Forall_impl; [exact Hk|]. intros b Hb. by apply H.
Qed.

(** ** Meters *)

(** One rate-limit enforcement, by cases on whether the meter is recorded and
    on what the switch handle does with the submissions. *)
Lemma enforce_meter_cases dp p w :
  let key := (dp_id dp, 1000 + p) in
  let r := _enforce_action dp p ACT_METER w in
  let w' := snd r in
  ((key ∈ meter_installed (ctl w)) /\
   meter_installed (ctl w') = meter_installed (ctl w) /\
   (wire w' = wire w \/ wire w' = wire w ++ [meter_flow dp p]) /\
   (faults w = [] -> wire w' = wire w ++ [meter_flow dp p] /\ faults w' = [] /\ fst r = Ok tt))
  \/
  ((key ∉ meter_installed (ctl w)) /\
   ((meter_installed (ctl w') = meter_installed (ctl w) /\ wire w' = wire w /\
     (exists e, fst r = Raise e) /\ faults w <> [])
    \/
    (meter_installed (ctl w') = {[key]} ∪ meter_installed (ctl w) /\
     (wire w' = wire w ++ [meter_create dp p] \/
      wire w' = wire w ++ [meter_create dp p; meter_flow dp p]) /\
     (faults w = [] ->
      wire w' = wire w ++ [meter_create dp p; meter_flow dp p] /\ faults w' = [] /\
      fst r = Ok tt)))).
Proof.
  intros key r w'. subst r w'. unfold _enforce_action. simpl.
  unfold _ensure_meter, bind, get_ctl. simpl. fold key.
  destruct (decide (key ∈ meter_installed (ctl w))) as [Hin|Hnin]; [left|right];
    (split; [done|]); run.
  - destruct (faults w) as [|[e|] r]; simpl; (split; [done|]); split; auto; try done.
  - destruct (faults w) as [|[e|] [|[e'|] r]]; simpl; rewrite <- ?app_assoc; simpl;
      first [ left; repeat split; eauto; done
            | right; split; [done|]; split; [auto|]; done ].
Qed.


(** ** Rounding *)

Lemma nearest_even_spec n d : 0 < d -> Z.abs (2 * (Double.nearest_even n d * d - n)) <= d.
Proof.
  intros Hd. unfold Double.nearest_even.
  pose proof (Z.div_mod n d ltac:(lia)) as E.
  pose proof (Z.mod_pos_bound n d Hd) as B.
  destruct (Z.compare_spec (2 * (n mod d)) d) as [C|C|C].
  - destruct (Z.even (n / d)); nia.
  - nia.
  - nia.
Qed.

Lemma round_pos_scale (a d : positive) :
  let s := Z.max 0 (Double.prec + 1 + Z.log2 (Zpos d) - Z.log2 (Zpos a)) in
  let k := Z.log2 (Zpos a * 2 ^ s / Zpos d) + 1 - Double.prec in
  0 <= s /\ 0 <= k /\ 0 < 2 ^ s /\ 0 < 2 ^ k /\
  2 ^ 52 * (Zpos d * 2 ^ k) <= Zpos a * 2 ^ s.
Proof.
  intros s k.
  assert (Hs : 0 <= s) by (unfold s; lia).
  destruct (Z.log2_spec (Zpos a) ltac:(lia)) as [La Ua].
  destruct (Z.log2_spec (Zpos d) ltac:(lia)) as [Ld Ud].
  pose proof (Z.log2_nonneg (Zpos a)) as Na. pose proof (Z.log2_nonneg (Zpos d)) as Nd.
  set (la := Z.log2 (Zpos a)) in *. set (ld := Z.log2 (Zpos d)) in *.
  assert (P2s : 0 < 2 ^ s) by (apply Z.pow_pos_nonneg; lia).
  assert (H1 : 2 ^ 53 * Zpos d <= Zpos a * 2 ^ s).
  { assert (E : 2 ^ (la + s) = 2 ^ la * 2 ^ s) by (apply Z.pow_add_r; lia).
    assert (M : 2 ^ (53 + Z.succ ld) <= 2 ^ (la + s)).
    { apply Z.pow_le_mono_r; [lia|]. unfold s, Double.prec. lia. }
    rewrite Z.pow_add_r in M by lia. nia. }
  set (t := Zpos a * 2 ^ s / Zpos d) in *.
  assert (Ht : 2 ^ 53 <= t).
  { unfold t. apply Z.div_le_lower_bound; lia. }
  assert (Htd : t * Zpos d <= Zpos a * 2 ^ s).
  { unfold t. rewrite Z.mul_comm. apply Z.mul_div_le. lia. }
  destruct (Z.log2_spec t ltac:(lia)) as [Lt Ut].
  assert (HL : 53 <= Z.log2 t).
  { apply Z.log2_le_pow2; lia. }
  assert (Hk : 0 <= k) by (unfold k, Double.prec; lia).
  assert (P2k : 0 < 2 ^ k) by (apply Z.pow_pos_nonneg; lia).
  split; [done|]. split; [done|]. split; [done|]. split; [done|].
  assert (E : 2 ^ Z.log2 t = 2 ^ 52 * 2 ^ k).
  { rewrite <- Z.pow_add_r by lia. f_equal. unfold k, Double.prec. lia. }
  nia.
Qed.

Lemma round_pos_near (a d : positive) :
  Double.near Double.u (Double.round_pos a d) (Zpos a # d).
Proof.
  unfold Double.near, Double.within, Double.round_pos.
  destruct (round_pos_scale a d) as (Hs & Hk & P2s & P2k & Hscale).
  set (s := Z.max 0 _) in *. set (k := _ + 1 - Double.prec) in *.
  pose proof (nearest_even_spec (Zpos a * 2 ^ s) (Zpos d * 2 ^ k) ltac:(lia)) as Hm.
  set (m := Double.nearest_even _ _) in *.
  rewrite Qred_correct.
  unfold Qle, Double.u. simpl Qnum. simpl Qden.
  rewrite !Pos2Z.inj_mul, !Z2Pos.id by lia.
  change (2 ^ 52) with 4503599627370496 in Hscale.
  set (N := Z.pos a * 2 ^ s) in *. set (D := Z.pos d * 2 ^ k) in *.
  assert (E : m * 2 ^ k * (1 * 9007199254740992 * Z.pos d) = 9007199254740992 * (m * D))
    by (unfold D; ring).
  assert (E1 : (1 * 9007199254740992 + - (1) * 1) * Z.pos a * 2 ^ s = 9007199254740991 * N)
    by (unfold N; ring).
  assert (E2 : (1 * 9007199254740992 + 1 * 1) * Z.pos a * 2 ^ s = 9007199254740993 * N)
    by (unfold N; ring).
  rewrite E, E1, E2. clearbody N D m. lia.
Qed.

(** The rounding is a function of the number, not of the fraction that
    writes it. *)
Lemma round_comp (q q' : Q) : (q == q')%Q -> Double.round q = Double.round q'.
Proof. intros H. unfold Double.round. by rewrite (Qred_complete _ _ H). Qed.

(** The relative error of a rounding is at most [2^-53]. *)
Lemma round_near (q : Q) : (0 <= q)%Q -> Double.near Double.u (Double.round q) q.
Proof.
  intros Hq. unfold Double.round, Double.near, Double.within.
  assert (E : (Qred q == q)%Q) by apply Qred_correct.
  rewrite <- E in Hq. rewrite <- E at 1 4. clear E.
  destruct (Qred q) as [n d]. simpl Qnum. simpl Qden. destruct n as [|a|a].
  - split; unfold Qle; simpl; lia.
  - apply round_pos_near.
  - exfalso. unfold Qle in Hq. simpl in Hq. lia.
Qed.

Lemma round_opp (q : Q) : Double.round (- q) = (- Double.round q)%Q.
Proof.
  unfold Double.round. rewrite Qred_opp.
  destruct (Qred q) as [n d]. destruct n as [|a|a]; simpl; try reflexivity.
  destruct (Double.round_pos a d) as [n' d']. unfold Qopp. simpl.
  by rewrite Z.opp_involutive.
Qed.

(** The rounding keeps the sign. *)
Lemma round_nonneg (q : Q) : (0 <= q)%Q -> (0 <= Double.round q)%Q.
Proof.
  intros H. destruct (round_near q H) as [L _].
  eapply Qle_trans; [|exact L]. apply Qmult_le_0_compat; [discriminate | exact H].
Qed.

Lemma round_positive (q : Q) : (0 < q)%Q -> (0 < Double.round q)%Q.
Proof.
  intros H. destruct (round_near q (Qlt_le_weak _ _ H)) as [L _].
  eapply Qlt_le_trans; [|exact L]. apply Qmult_lt_0_compat; [reflexivity | exact H].
Qed.

Lemma round_nonpos (q : Q) : (q <= 0)%Q -> (Double.round q <= 0)%Q.
Proof.
  intros H.
  assert (N : (0 <= - q)%Q).
  { apply (Qopp_le_compat q 0) in H. exact H. }
  apply round_nonneg in N. rewrite round_opp in N.
  apply Qopp_le_compat in N. by rewrite Qopp_involutive in N.
Qed.

Lemma round_positive_inv (q : Q) : (0 < Double.round q)%Q -> (0 < q)%Q.
Proof.
  intros H. apply Qnot_le_lt. intros L. apply round_nonpos in L.
  by apply (Qlt_not_le _ _ H).
Qed.

(** Relative errors compose. *)
Lemma within_trans lo1 hi1 lo2 hi2 x y z :
  (0 <= lo1)%Q -> (0 <= hi1)%Q ->
  Double.within lo1 hi1 x y -> Double.within lo2 hi2 y z ->
  Double.within (lo1 * lo2) (hi1 * hi2) x z.
Proof.
  intros Hl Hh [L1 U1] [L2 U2]. split.
  - eapply Qle_trans; [|exact L1]. rewrite <- Qmult_assoc.
    rewrite (Qmult_comm lo1), (Qmult_comm lo1). by apply Qmult_le_compat_r.
  - eapply Qle_trans; [exact U1|]. rewrite <- Qmult_assoc.
    rewrite (Qmult_comm hi1), (Qmult_comm hi1). by apply Qmult_le_compat_r.
Qed.

Lemma within_refl x : Double.within 1 1 x x.
Proof. split; rewrite Qmult_1_l; apply Qle_refl. Qed.

Lemma within_weaken lo hi lo' hi' x y :
  (0 <= y)%Q -> (lo' <= lo)%Q -> (hi <= hi')%Q ->
  Double.within lo hi x y -> Double.within lo' hi' x y.
Proof.
  intros Hy Hl Hh [L U]. split.
  - eapply Qle_trans; [|exact L]. by apply Qmult_le_compat_r.
  - eapply Qle_trans; [exact U|]. by apply Qmult_le_compat_r.
Qed.

Lemma within_scale lo hi x y c :
  (0 <= c)%Q -> Double.within lo hi x y -> Double.within lo hi (x * c) (y * c).
Proof.
  intros Hc [L U]. split.
  - rewrite Qmult_assoc. by apply Qmult_le_compat_r.
  - rewrite Qmult_assoc. by apply Qmult_le_compat_r.
Qed.

Lemma within_nonneg lo hi x y :
  (0 <= lo)%Q -> (0 <= y)%Q -> Double.within lo hi x y -> (0 <= x)%Q.
Proof.
  intros Hl Hy [L _]. eapply Qle_trans; [|exact L]. by apply Qmult_le_0_compat.
Qed.

Lemma within_positive lo hi x y :
  (0 < lo)%Q -> (0 < y)%Q -> Double.within lo hi x y -> (0 < x)%Q.
Proof.
  intros Hl Hy [L _]. eapply Qlt_le_trans; [|exact L]. by apply Qmult_lt_0_compat.
Qed.

(** Dividing by a number known up to a relative error. *)
Lemma within_inv lo hi x y n :
  (0 < lo)%Q -> (0 < hi)%Q -> (0 < y)%Q -> (0 <= n)%Q ->
  Double.within lo hi x y -> Double.within (/ hi) (/ lo) (n / x) (n / y).
Proof.
  intros Hl Hh Hy Hn W.
  pose proof (within_positive _ _ _ _ Hl Hy W) as Hx. destruct W as [L U].
  assert (Hxn : ~ (x == 0)%Q) by (intros E; rewrite E in Hx; discriminate).
  assert (Hyn : ~ (y == 0)%Q) by (intros E; rewrite E in Hy; discriminate).
  assert (Hln : ~ (lo == 0)%Q) by (intros E; rewrite E in Hl; discriminate).
  assert (Hhn : ~ (hi == 0)%Q) by (intros E; rewrite E in Hh; discriminate).
  assert (Hc1 : (0 <= / hi * (n / y))%Q).
  { apply Qmult_le_0_compat; [apply Qinv_le_0_compat; by apply Qlt_le_weak|].
    apply Qmult_le_0_compat; [done|]. apply Qinv_le_0_compat. by apply Qlt_le_weak. }
  assert (Hc2 : (0 <= / lo * (n / y))%Q).
  { apply Qmult_le_0_compat; [apply Qinv_le_0_compat; by apply Qlt_le_weak|].
    apply Qmult_le_0_compat; [done|]. apply Qinv_le_0_compat. by apply Qlt_le_weak. }
  assert (E1 : (/ hi * (n / y) * (hi * y) == n)%Q) by (field; split; done).
  assert (E2 : (/ lo * (n / y) * (lo * y) == n)%Q) by (field; split; done).
  split.
  - apply Qle_shift_div_l; [done|]. rewrite <- E1 at 2.
    rewrite !(Qmult_comm (/ hi * (n / y))). by apply Qmult_le_compat_r.
  - apply Qle_shift_div_r; [done|]. rewrite <- E2 at 1.
    rewrite !(Qmult_comm (/ lo * (n / y))). by apply Qmult_le_compat_r.
Qed.

(** On the numbers of the examples the rounding gives what the binary64
    operations of the Standard Library give: [1e-9], [64000.0 / 3.0],
    [3.0 - 0.0] and [(8000 * 8.0) / 1e-9]. *)
Lemma round_agrees_with_binary64 :
  let b := Double.binary64 in
  let lit := SFdiv 53 1024 (b 1) (b 1000000000) in
  Double.of_spec_float lit = Some Double.lit_1e_9 /\
  Double.of_spec_float (SFdiv 53 1024 (b 64000) (b 3)) = Some (Double.div 64000 3) /\
  Double.of_spec_float (SFsub 53 1024 (b 3) (b 0)) = Some (Double.sub 3 0) /\
  Double.of_spec_float (SFdiv 53 1024 (SFmul 53 1024 (b 8000) (b 8)) lit)
  = Some (Double.div (Double.mul (Double.of_int 8000) 8) Double.lit_1e_9) /\
  Double.of_spec_float (b 9007199254740993) = Some (Double.of_int 9007199254740993).
Proof. vm_compute. repeat split; reflexivity. Qed.

(** The rate of an interval is the exact quotient up to three roundings. *)
Lemma bps_within d dt :
  0 <= d -> (0 < dt)%Q ->
  Double.within ((1 - Double.u) * ((1 - Double.u) * (1 - Double.u)))
                ((1 + Double.u) * ((1 + Double.u) * (1 + Double.u)))
                (bps d dt) (inject_Z d * 8 / dt).
Proof.
  intros Hd Hdt. unfold bps, Double.div, Double.mul, Double.of_int.
  assert (H0 : (0 <= inject_Z d)%Q) by (change 0%Q with (inject_Z 0); by rewrite <- Zle_Qle).
  assert (Hi : (0 <= / dt)%Q) by (apply Qinv_le_0_compat; by apply Qlt_le_weak).
  pose proof (round_near _ H0) as W1.
  assert (H1 : (0 <= Double.round (inject_Z d) * 8)%Q).
  { apply Qmult_le_0_compat; [by apply round_nonneg | discriminate]. }
  pose proof (round_near _ H1) as W2.
  assert (H2 : (0 <= Double.round (Double.round (inject_Z d) * 8) / dt)%Q).
  { apply Qmult_le_0_compat; [by apply round_nonneg | done]. }
  pose proof (round_near _ H2) as W3.
  eapply within_trans; [discriminate | discriminate | exact W3 |].
  unfold Qdiv. apply within_scale; [done|].
  eapply within_trans; [discriminate | discriminate | exact W2 |].
  apply within_scale; [discriminate | exact W1].
Qed.

Lemma bps_nonneg d dt : 0 <= d -> (0 < dt)%Q -> (0 <= bps d dt)%Q.
Proof.
  intros Hd Hdt. eapply within_nonneg; [| |by apply bps_within]; [discriminate|].
  apply Qmult_le_0_compat; [|apply Qinv_le_0_compat; by apply Qlt_le_weak].
  apply Qmult_le_0_compat; [|discriminate].
  change 0%Q with (inject_Z 0). by rewrite <- Zle_Qle.
Qed.

Lemma bps_comp d dt dt' : (dt == dt')%Q -> bps d dt = bps d dt'.
Proof. intros H. unfold bps, Double.div. apply round_comp. by rewrite H. Qed.

(** The rate over a rounded time difference, against the exact quotient. *)
Lemma bps_near d t1 t0 :
  0 <= d -> (0 < Double.sub t1 t0)%Q ->
  Double.near Double.tol (bps d (Double.sub t1 t0)) (inject_Z d * 8 / (t1 - t0)).
Proof.
  intros Hd Hdt.
  assert (Hr : (0 < t1 - t0)%Q) by (by apply round_positive_inv).
  pose proof (round_near _ (Qlt_le_weak _ _ Hr)) as Wd.
  assert (Hn : (0 <= inject_Z d * 8)%Q).
  { apply Qmult_le_0_compat; [|discriminate].
    change 0%Q with (inject_Z 0). by rewrite <- Zle_Qle. }
  assert (Wi : Double.within (/ (1 + Double.u)) (/ (1 - Double.u))
                 (inject_Z d * 8 / Double.round (t1 - t0)) (inject_Z d * 8 / (t1 - t0))).
  { apply within_inv; [reflexivity | reflexivity | done | done | exact Wd]. }
  assert (A1 : (0 <= (1 - Double.u) * ((1 - Double.u) * (1 - Double.u)))%Q) by discriminate.
  assert (A2 : (0 <= (1 + Double.u) * ((1 + Double.u) * (1 + Double.u)))%Q) by discriminate.
  pose proof (within_trans _ _ _ _ _ _ _ A1 A2 (bps_within d _ Hd Hdt) Wi) as W.
  unfold Double.near. eapply within_weaken; [| | |exact W].
  - apply Qmult_le_0_compat; [exact Hn|]. apply Qinv_le_0_compat. apply Qlt_le_weak, Hr.
  - vm_compute. discriminate.
  - vm_compute. discriminate.
Qed.

(** ** Sorting *)

Section StableSort.
Context {A : Type} (lt : A -> A -> bool) (le : A -> A -> Prop).
Hypothesis lt_le : forall a b, lt a b = true -> le a b.
Hypothesis not_lt_le : forall a b, lt a b = false -> le b a.
Hypothesis le_trans : forall a b c, le a b -> le b c -> le a c.

Lemma insert_sorted_perm x l : ParseLogs.insert_sorted lt x l ≡ₚ x :: l.
Proof.
  induction l as [|y l IH]; simpl; [done|].
  destruct (lt y x); [|done]. rewrite IH. apply Permutation_swap.
Qed.

Lemma stable_sort_perm l : ParseLogs.stable_sort lt l ≡ₚ l.
Proof.
  unfold ParseLogs.stable_sort. induction l as [|x l IH]; simpl; [done|].
  by rewrite insert_sorted_perm, IH.
Qed.

Lemma insert_sorted_sorted x l :
  StronglySorted le l -> StronglySorted le (ParseLogs.insert_sorted lt x l).
Proof.
  induction l as [|y l IH]; intros Hs; simpl.
  - repeat constructor.
  - apply StronglySorted_inv in Hs as [Hs Hy].
    destruct (lt y x) eqn:E.
    + constructor; [by apply IH|].
      rewrite insert_sorted_perm. constructor; [by apply lt_le | done].
    + constructor; [by constructor|].
      constructor; [by apply not_lt_le|].
      eapply Forall_impl; [exact Hy|]. intros z Hz.
      eapply le_trans; [|exact Hz]. by apply not_lt_le.
Qed.

Lemma stable_sort_sorted l : StronglySorted le (ParseLogs.stable_sort lt l).
Proof.
  unfold ParseLogs.stable_sort. induction l as [|x l IH]; simpl; [constructor|].
  by apply insert_sorted_sorted.
Qed.

End StableSort.

(** ** One entry of a stats reply *)

Lemma py_max_small (a b : Q) : (b <= a)%Q -> py_max a b = a.
Proof.
  intros H. unfold py_max. destruct (Qlt_le_dec a b) as [L|L]; [|done].
  exfalso. by apply (Qlt_not_le a b).
Qed.

Lemma py_max_big (a b : Q) : (a <= b)%Q -> (py_max a b == b)%Q.
Proof.
  intros H. unfold py_max. destruct (Qlt_le_dec a b) as [L|L]; [reflexivity|].
  by apply Qle_antisym.
Qed.

Lemma py_max_pos (a b : Q) : (0 < a)%Q -> (0 < py_max a b)%Q.
Proof.
  intros H. unfold py_max. destruct (Qlt_le_dec a b) as [L|L]; [|done].
  by apply Qlt_trans with a.
Qed.

Lemma lit_1e_9_pos : (0 < Double.lit_1e_9)%Q.
Proof. vm_compute. reflexivity. Qed.

Lemma handler_dt_pos now prev : (0 < handler_dt now prev)%Q.
Proof. unfold handler_dt. apply py_max_pos, lit_1e_9_pos. Qed.

(** A clock reading that is not after the previous sample: [dt] is the
    literal [1e-9]. *)
Lemma handler_dt_clamped now prev :
  (now - timestamp prev <= 0)%Q -> handler_dt now prev = Double.lit_1e_9.
Proof.
  intros H. unfold handler_dt. apply py_max_small.
  eapply Qle_trans; [apply round_nonpos, H | apply Qlt_le_weak, lit_1e_9_pos].
Qed.

(** What one entry does to the controller and to the agent, whatever the
    agent answers and whatever the switch handle does: it returns normally,
    records the sample, and consults the agent as [entry_call] says. *)
Lemma stat_entry_spec agent now dp stat w :
  let key := (dp_id dp, st_port_no stat) in
  let r := stat_entry agent now dp stat w in
  fst r = Ok tt /\
  last_stats (ctl (snd r)) = <[key := cur_sample now (dp_id dp) stat]> (last_stats (ctl w)) /\
  mac_to_port (ctl (snd r)) = mac_to_port (ctl w) /\
  datapaths (ctl (snd r)) = datapaths (ctl w) /\
  csv (snd r) = csv w /\ csv_fault (snd r) = csv_fault w /\
  calls (snd r) =
    calls w ++ option_list (entry_call now (dp_id dp) stat (last_stats (ctl w) !! key)).
Proof.
  intros key r. subst r key. unfold stat_entry.
  unfold bind, get_ctl, ret, modify_ctl, agent_manager_act, logger, try_except. simpl.
  destruct (last_stats (ctl w) !! (dp_id dp, st_port_no stat)) as [prev|] eqn:Hprev; simpl;
    [|by rewrite app_nil_r].
  destruct (_ && _) eqn:Hc; simpl; [|by rewrite app_nil_r].
  set (tx := bps _ _). set (rx := bps _ _).
  set (w1 := mkWorld _ _ _ _ _ _ _).
  pose proof (enforce_frame dp (st_port_no stat) (agent (dp_id dp) (st_port_no stat) tx rx) w1)
    as (Hl & Hm & Hd & Hcsv & Hcf & _).
  pose proof (enforce_frame_calls dp (st_port_no stat)
                (agent (dp_id dp) (st_port_no stat) tx rx) w1) as Hsame.
  destruct (_enforce_action dp _ _ w1) as [[[]|e] w2]; simpl in *;
    rewrite Hl, Hm, Hd, Hcsv, Hcf, Hsame; done.
Qed.

Lemma stat_entry_skip agent now dp stat w :
  entry_call now (dp_id dp) stat (last_stats (ctl w) !! (dp_id dp, st_port_no stat)) = None ->
  stat_entry agent now dp stat w
  = (Ok tt, record_sample (dp_id dp, st_port_no stat) (cur_sample now (dp_id dp) stat) w).
Proof.
  unfold stat_entry, entry_call, record_sample, set_ctl.
  unfold bind, get_ctl, ret, modify_ctl. simpl.
  destruct (last_stats (ctl w) !! (dp_id dp, st_port_no stat)) as [prev|]; simpl; [|done].
  destruct (_ && _); simpl; [discriminate | done].
Qed.

Lemma skip_is_silent {A} (m : M A) (a : A) key cur w :
  m w = (Ok a, record_sample key cur w) ->
  calls_by m w = [] /\ sent_by m w = [] /\ logged_by m w = [].
Proof.
  intros E. unfold calls_by, sent_by, logged_by. rewrite E. simpl.
  by rewrite !drop_all.
Qed.

Lemma calls_by_entry agent now dp stat w :
  calls_by (stat_entry agent now dp stat) w
  = option_list (entry_call now (dp_id dp) stat
                   (last_stats (ctl w) !! (dp_id dp, st_port_no stat))).
Proof.
  unfold calls_by.
  destruct (stat_entry_spec agent now dp stat w) as (_ & _ & _ & _ & _ & _ & E).
  by rewrite E, drop_app_length.
Qed.

(** ** Rates *)

(** Whatever the reply, the rates handed to the agent are not negative. *)
Lemma handler_calls_nonneg agent now ev :
  keeps calls (fun c => (0 <= ac_tx_bps c)%Q /\ (0 <= ac_rx_bps c)%Q)
        (_port_stats_reply_handler agent now ev).
Proof.
  unfold _port_stats_reply_handler.
  apply keeps_bind; [|intros ?; keeps_calls].
  apply keeps_for_each. intros stat _. unfold stat_entry.
  apply keeps_bind; [apply keeps_get_ctl|]. intros c.
  apply keeps_bind; [|intros ?; keeps_calls].
  destruct (last_stats c !! _) as [prev|]; [|apply keeps_ret].
  destruct (_ && _) eqn:Hc; [|apply keeps_ret].
  apply andb_true_iff in Hc as [Htx Hrx]. apply Z.leb_le in Htx, Hrx.
  apply keeps_bind.
  - apply keeps_calls_agent. simpl.
    split; apply bps_nonneg; auto using handler_dt_pos.
  - intros a. apply keeps_bind; [apply keeps_calls_logger|]. intros _.
    apply keeps_try; [apply enforce_calls|]. intros e. apply keeps_calls_logger.
Qed.

(** ** The registry of connections *)

Lemma handler_wire agent now dp body :
  keeps wire (fun x => fst x = dp /\ is_mutation (snd x) = true)
        (_port_stats_reply_handler agent now (mkReply dp body)).
Proof.
  unfold _port_stats_reply_handler. simpl.
  apply keeps_bind; [|intros ?; keeps_wire].
  apply keeps_for_each. intros stat _. unfold stat_entry.
  apply keeps_bind; [apply keeps_get_ctl|]. intros c.
  apply keeps_bind; [|intros ?; keeps_wire].
  destruct (last_stats c !! _) as [prev|]; [|apply keeps_ret].
  destruct (_ && _); [|apply keeps_ret].
  apply keeps_bind; [apply keeps_wire_agent|]. intros a.
  apply keeps_bind; [apply keeps_wire_logger|]. intros _.
  apply keeps_try; [|intros e; apply keeps_wire_logger].
  apply enforce_wire. intros m Hm. by split.
Qed.

Lemma request_all_wire (c : Controller) :
  keeps wire (fun x => snd x = OFPPortStatsRequest 0 OFPP_ANY /\
                       exists k, datapaths c !! k = Some (fst x))
        (for_each (map snd (map_to_list (datapaths c))) _request_port_stats).
Proof.
  apply keeps_for_each. intros dp Hdp. unfold _request_port_stats.
  apply keeps_send. simpl. split; [done|].
  apply list_elem_of_fmap in Hdp as [[k dp'] [-> Hk]].
  apply elem_of_map_to_list in Hk. by exists k.
Qed.

Lemma monitor_round_wire w :
  Forall (fun x => snd x = OFPPortStatsRequest 0 OFPP_ANY /\
                   exists k, datapaths (ctl w) !! k = Some (fst x))
         (sent_by _monitor_round w).
Proof.
  apply (grows_drop wire _ w (snd (_monitor_round w))).
  change (snd (_monitor_round w))
    with (snd (for_each (map snd (map_to_list (datapaths (ctl w)))) _request_port_stats w)).
  apply request_all_wire.
Qed.

(** ** The stats-reply handler returns normally *)

Lemma for_each_entries_ok agent now dp body w :
  fst (for_each body (stat_entry agent now dp) w) = Ok tt.
Proof.
  revert w. induction body as [|stat body IH]; intros w; simpl; [done|].
  unfold bind. destruct (stat_entry_spec agent now dp stat w) as (Hr & _).
  destruct (stat_entry agent now dp stat w) as [[[]|e] w1]; simpl in *; [apply IH | done].
Qed.

Lemma handler_ok agent now ev w :
  fst (_port_stats_reply_handler agent now ev w) = Ok tt.
Proof.
  unfold _port_stats_reply_handler, bind.
  pose proof (for_each_entries_ok agent now (rp_datapath ev) (rp_body ev) w) as H.
  destruct (for_each _ _ w) as [[[]|e] w1]; simpl in *; [|done].
  unfold try_except, write_rows, logger. by destruct (csv_fault w1).
Qed.

(** ** The registry stays well formed *)

Lemma registry_wf_init : registry_wf init_controller.
Proof. intros k dp H. simpl in H. by rewrite lookup_empty in H. Qed.

Lemma registry_wf_insert dp (m : gmap Z Datapath) :
  (forall k dp', m !! k = Some dp' -> dp_id dp' = k) ->
  forall k dp', <[dp_id dp := dp]> m !! k = Some dp' -> dp_id dp' = k.
Proof.
  intros Hm k dp' H. apply lookup_insert_Some in H as [[<- <-]|[_ H]]; [done | by apply Hm].
Qed.

Lemma registry_wf_connect dp w :
  registry_wf (ctl w) -> registry_wf (ctl (snd (switch_features_handler dp w))).
Proof.
  intros Hwf. unfold switch_features_handler. run.
  destruct (faults w) as [|[e|] r]; simpl;
    intros k dp' H; simpl in H; by apply (registry_wf_insert dp (datapaths (ctl w))).
Qed.

Lemma registry_wf_state_change ev w :
  registry_wf (ctl w) -> registry_wf (ctl (snd (state_change_handler ev w))).
Proof.
  intros Hwf. unfold state_change_handler.
  destruct (sc_state ev); simpl; try done.
  - intros k dp' H. simpl in H.
    by apply (registry_wf_insert (sc_datapath ev) (datapaths (ctl w))).
  - intros k dp H. simpl in H. apply lookup_delete_Some in H as [_ H]. by apply Hwf.
Qed.

Lemma entries_frame agent now dp body w :
  let w' := snd (for_each body (stat_entry agent now dp) w) in
  datapaths (ctl w') = datapaths (ctl w) /\ mac_to_port (ctl w') = mac_to_port (ctl w) /\
  csv w' = csv w /\ csv_fault w' = csv_fault w.
Proof.
  revert w. induction body as [|stat body IH]; intros w; simpl; [done|].
  unfold bind. destruct (stat_entry_spec agent now dp stat w) as (_ & _ & Hm & Hd & Hc & Hf & _).
  destruct (stat_entry agent now dp stat w) as [[[]|e] w1]; simpl in *; [|done].
  destruct (IH w1) as (Hd1 & Hm1 & Hc1 & Hf1). rewrite Hd1, Hm1, Hc1, Hf1. done.
Qed.

Lemma registry_wf_stats_reply agent now ev w :
  registry_wf (ctl w) -> registry_wf (ctl (snd (_port_stats_reply_handler agent now ev w))).
Proof.
  intros Hwf. unfold _port_stats_reply_handler, bind.
  destruct (entries_frame agent now (rp_datapath ev) (rp_body ev) w) as (Hd & _).
  destruct (for_each _ _ w) as [[[]|e] w1]; simpl in *.
  - unfold try_except, write_rows, logger.
    destruct (csv_fault w1); simpl; unfold registry_wf; by rewrite Hd.
  - unfold registry_wf. by rewrite Hd.
Qed.

Section Frames.
Context {X : Type} (f : World -> X).

Lemma frames_ret {A} (a : A) : frames f (ret a).
Proof. by intros w. Qed.

Lemma frames_raise {A} e : frames f (@raise A e).
Proof. by intros w. Qed.

Lemma frames_get_ctl : frames f get_ctl.
Proof. by intros w. Qed.

Lemma frames_bind {A B} (m : M A) (k : A -> M B) :
  frames f m -> (forall a, frames f (k a)) -> frames f (bind m k).
Proof.
  intros Hm Hk w. unfold bind. specialize (Hm w).
  destruct (m w) as [[a|e] w1]; simpl in *; [|done]. by rewrite Hk.
Qed.

Lemma frames_for_each {A} (l : list A) body :
  (forall x, frames f (body x)) -> frames f (for_each l body).
Proof.
  intros H. induction l as [|x l IH]; simpl; [apply frames_ret|].
  apply frames_bind; [apply H | intros _; apply IH].
Qed.

End Frames.

Lemma frames_registry_send dp msg : frames (fun w => datapaths (ctl w)) (send_msg dp msg).
Proof. intros w. unfold send_msg. by destruct (faults w) as [|[e|] r]. Qed.

Lemma frames_registry_packet_in ev : frames (fun w => datapaths (ctl w)) (_packet_in ev).
Proof.
  unfold _packet_in. destruct (pi_eth ev) as [|eth rest]; [apply frames_raise|].
  destruct (_ =? _); [apply frames_ret|].
  apply frames_bind; [apply frames_get_ctl|]. intros c.
  apply frames_bind; [by intros w|]. intros _.
  apply frames_bind; [|intros _; apply frames_registry_send].
  destruct (negb _); [apply frames_registry_send | apply frames_ret].
Qed.

Lemma frames_registry_monitor : frames (fun w => datapaths (ctl w)) _monitor_round.
Proof.
  unfold _monitor_round. apply frames_bind; [apply frames_get_ctl|]. intros c.
  apply frames_for_each. intros dp. apply frames_registry_send.
Qed.

Lemma registry_wf_connected : registry_wf (ctl Ex.w_connected).
Proof. apply registry_wf_connect, registry_wf_init. Qed.

(** Whatever events the controller has handled, every handle of the
    registry sits under its own identifier. *)
Lemma registry_wf_run agent evs w :
  registry_wf (ctl w) -> registry_wf (ctl (run_events agent evs w)).
Proof.
  revert w. induction evs as [|ev evs IH]; intros w Hwf; simpl; [done|].
  apply IH. destruct ev as [dp|sc|pin|now reply|]; simpl.
  - by apply registry_wf_connect.
  - by apply registry_wf_state_change.
  - unfold registry_wf. by rewrite (frames_registry_packet_in pin w).
  - by apply registry_wf_stats_reply.
  - unfold registry_wf. by rewrite (frames_registry_monitor w).
Qed.

(** ** A whole reply *)

(** The calls of a reply whose entries are for distinct ports: one for
    every entry with a previous sample and non-negative byte deltas, computed
    against the samples the controller held before the reply. *)
Lemma entries_calls agent now dp body w :
  NoDup (map st_port_no body) ->
  let w' := snd (for_each body (stat_entry agent now dp) w) in
  calls w' =
    calls w ++ omap (fun stat => entry_call now (dp_id dp) stat
                                   (last_stats (ctl w) !! (dp_id dp, st_port_no stat))) body.
Proof.
  revert w. induction body as [|stat body IH]; intros w Hnd; simpl.
  { by rewrite app_nil_r. }
  apply NoDup_cons in Hnd as [Hnotin Hnd].
  unfold bind.
  destruct (stat_entry_spec agent now dp stat w) as (Hr & Hl & _ & _ & _ & _ & Hc).
  destruct (stat_entry agent now dp stat w) as [[[]|e] w1]; simpl in *; [|done].
  rewrite (IH w1 Hnd), Hc, <- app_assoc. f_equal.
  assert (Hext : omap (fun s => entry_call now (dp_id dp) s
                                  (last_stats (ctl w1) !! (dp_id dp, st_port_no s))) body
               = omap (fun s => entry_call now (dp_id dp) s
                                  (last_stats (ctl w) !! (dp_id dp, st_port_no s))) body).
  { apply list_omap_ext. apply Forall_Forall2_diag, Forall_forall. intros s Hs.
    rewrite Hl, lookup_insert_ne; [done|].
    intros [= E]. apply Hnotin. rewrite E. apply list_elem_of_fmap. by exists s. }
  rewrite Hext.
  by destruct (entry_call now (dp_id dp) stat _).
Qed.

Lemma handler_calls agent now dp body w :
  NoDup (map st_port_no body) ->
  calls_by (_port_stats_reply_handler agent now (mkReply dp body)) w
  = omap (fun stat => entry_call now (dp_id dp) stat
                        (last_stats (ctl w) !! (dp_id dp, st_port_no stat))) body.
Proof.
  intros Hnd. unfold calls_by, _port_stats_reply_handler, bind. simpl.
  pose proof (entries_calls agent now dp body w Hnd) as Hc.
  pose proof (for_each_entries_ok agent now dp body w) as Hok.
  destruct (for_each body _ w) as [[[]|e] w1]; simpl in *; [|done].
  unfold try_except, write_rows, logger.
  destruct (csv_fault w1); simpl; by rewrite Hc, drop_app_length.
Qed.

Lemma same_port_same_entry (body : list PortStat) (s1 s2 : PortStat) :
  NoDup (map st_port_no body) -> s1 ∈ body -> s2 ∈ body ->
  st_port_no s1 = st_port_no s2 -> s1 = s2.
Proof.
  induction body as [|s body IH]; intros Hnd H1 H2 E; [by apply elem_of_nil in H1|].
  simpl in Hnd. apply NoDup_cons in Hnd as [Hnotin Hnd].
  assert (Hin : forall x, x ∈ body -> st_port_no x ∈ map st_port_no body).
  { intros x Hx. apply list_elem_of_fmap. by exists x. }
  apply elem_of_cons in H1 as [->|H1], H2 as [->|H2]; auto.
  - exfalso. apply Hnotin. rewrite E. by apply Hin.
  - exfalso. apply Hnotin. rewrite <- E. by apply Hin.
Qed.

(** In a reply with distinct ports, an entry that gives rise to no call
    leaves the agent without any call for its port. *)
Lemma handler_no_call agent now dp body w stat :
  NoDup (map st_port_no body) -> stat ∈ body ->
  entry_call now (dp_id dp) stat (last_stats (ctl w) !! (dp_id dp, st_port_no stat)) = None ->
  Forall (fun c => ac_port c <> st_port_no stat)
         (calls_by (_port_stats_reply_handler agent now (mkReply dp body)) w).
Proof.
  intros Hnd Hin Hnone. rewrite handler_calls by done.
  apply Forall_forall. intros c Hc Hport.
  apply list_elem_of_omap in Hc as [s [Hs Hcall]].
  assert (s = stat) as ->.
  { apply (same_port_same_entry body); auto.
    unfold entry_call in Hcall.
    destruct (last_stats (ctl w) !! (dp_id dp, st_port_no s)) as [prev|]; [|done].
    destruct (_ && _) in Hcall; [|done]. injection Hcall as <-. exact Hport. }
  congruence.
Qed.

(** ** Failures of a submission *)

(** An enforcement whose first submission raises: the exception leaves the
    enforcement and nothing but the script has changed. *)
Lemma enforce_first_fault dp p a e rest w :
  a = ACT_METER \/ a = ACT_DROP \/ a = ACT_REROUTE ->
  faults w = Some e :: rest ->
  _enforce_action dp p a w = (Raise e, after_fault rest w).
Proof.
  intros Ha F. unfold after_fault.
  destruct Ha as [-> | [-> | ->]]; run; [destruct (decide _); simpl|..]; by rewrite F.
Qed.

(** ** A decision and its enforcement *)

Lemma keeps_logs_send P dp msg : keeps logs P (send_msg dp msg).
Proof.
  intros w. unfold send_msg. destruct (faults w) as [|[e|] r]; by apply grows_same.
Qed.

Lemma keeps_logs_modify P f : keeps logs P (modify_ctl f).
Proof. intros w. by apply grows_same. Qed.

Lemma keeps_logs_logger (P : LogRecord -> Prop) r : P r -> keeps logs P (logger r).
Proof. intros H w. by eapply grows_one. Qed.

Lemma enforce_logs dp p a : keeps logs (fun _ => True) (_enforce_action dp p a).
Proof.
  unfold _enforce_action, _ensure_meter.
  repeat first [ keeps_step | apply keeps_logs_send | apply keeps_logs_modify
               | apply keeps_logs_logger; exact I ].
Qed.

(** An entry with a previous sample and counters that did not fall: the
    agent is consulted, its answer logged and enforced, a failure of the
    enforcement logged, and the sample recorded. *)
Lemma stat_entry_decides agent now dp stat w prev :
  let d := dp_id dp in
  let p := st_port_no stat in
  let c := mkCall d p (bps (st_tx_bytes stat - tx_bytes prev) (handler_dt now prev))
                      (bps (st_rx_bytes stat - rx_bytes prev) (handler_dt now prev)) in
  let a := agent d p (ac_tx_bps c) (ac_rx_bps c) in
  last_stats (ctl w) !! (d, p) = Some prev ->
  0 <= st_tx_bytes stat - tx_bytes prev -> 0 <= st_rx_bytes stat - rx_bytes prev ->
  stat_entry agent now dp stat w
  = (Ok tt, record_sample (d, p) (cur_sample now d stat)
              (snd (try_except (_enforce_action dp p a)
                               (fun e => logger (LogEnforceError d p e)) (decided c a w)))).
Proof.
  intros d p c a Hprev Htx Hrx. subst d p c a.
  unfold stat_entry, decided, record_sample, set_ctl.
  unfold bind, get_ctl, ret, modify_ctl, agent_manager_act, logger, try_except. simpl.
  rewrite Hprev. simpl. apply Z.leb_le in Htx, Hrx. rewrite Htx, Hrx. simpl.
  by destruct (_enforce_action _ _ _ _) as [[[]|e] w2].
Qed.

Lemma entry_enforces agent now dp stat w prev :
  let d := dp_id dp in
  let p := st_port_no stat in
  let m := stat_entry agent now dp stat in
  let c := mkCall d p (bps (st_tx_bytes stat - tx_bytes prev) (handler_dt now prev))
                      (bps (st_rx_bytes stat - rx_bytes prev) (handler_dt now prev)) in
  let a := agent d p (ac_tx_bps c) (ac_rx_bps c) in
  let r := _enforce_action dp p a (decided c a w) in
  last_stats (ctl w) !! (d, p) = Some prev ->
  0 <= st_tx_bytes stat - tx_bytes prev -> 0 <= st_rx_bytes stat - rx_bytes prev ->
  calls_by m w = [c] /\
  sent_by m w = sent_by (_enforce_action dp p a) (decided c a w) /\
  meter_installed (ctl (snd (m w))) = meter_installed (ctl (snd r)) /\
  faults (snd (m w)) = faults (snd r) /\
  logged_by m w
  = LogAgentAction d p (ac_tx_bps c) (ac_rx_bps c) a
    :: logged_by (_enforce_action dp p a) (decided c a w)
    ++ match fst r with Raise e => [LogEnforceError d p e] | Ok _ => [] end.
Proof.
  intros d p m c a r Hprev Htx Hrx.
  pose proof (stat_entry_decides agent now dp stat w prev Hprev Htx Hrx) as E.
  fold d p c a in E. fold m in E.
  pose proof (enforce_frame_calls dp p a (decided c a w)) as Hcalls.
  destruct (enforce_logs dp p a (decided c a w)) as (dl & Hlogs & _).
  assert (Hl1 : logs (decided c a w)
               = logs w ++ [LogAgentAction d p (ac_tx_bps c) (ac_rx_bps c) a]) by done.
  set (la := LogAgentAction d p (ac_tx_bps c) (ac_rx_bps c) a) in *.
  unfold calls_by, sent_by, logged_by. rewrite E. unfold try_except. fold r.
  fold r in Hcalls, Hlogs. rewrite Hl1 in Hlogs. rewrite Hl1.
  assert (Hw1 : wire (decided c a w) = wire w) by done. rewrite Hw1.
  assert (Hc1 : calls (decided c a w) = calls w ++ [c]) by done. rewrite Hc1 in Hcalls.
  clearbody la. clear E Hl1 Hw1 Hc1.
  destruct r as [[[]|e] w2]; simpl in *.
  - rewrite Hcalls, Hlogs, !drop_app_length, <- app_assoc, drop_app_length, app_nil_r.
    done.
  - rewrite Hcalls, Hlogs, !drop_app_length, <- !app_assoc, drop_app_length.
    done.
Qed.

(** What an enforcement sends when the switch handle accepts it. *)
Lemma enforce_accepted dp p w :
  faults w = [] ->
  sent_by (_enforce_action dp p ACT_DROP) w = [drop_flow dp p] /\
  sent_by (_enforce_action dp p ACT_REROUTE) w = [reroute_flow dp p] /\
  ((dp_id dp, 1000 + p) ∉ meter_installed (ctl w) ->
   sent_by (_enforce_action dp p ACT_METER) w = [meter_create dp p; meter_flow dp p]) /\
  ((dp_id dp, 1000 + p) ∈ meter_installed (ctl w) ->
   sent_by (_enforce_action dp p ACT_METER) w = [meter_flow dp p]).
Proof.
  intros F. unfold sent_by.
  split; [run; rewrite F; simpl; by rewrite drop_app_length|].
  split; [run; rewrite F; simpl; by rewrite drop_app_length|].
  split; intros H; run; destruct (decide _) as [Hin|Hnin]; try done; simpl; rewrite F; simpl.
  - by rewrite <- app_assoc, drop_app_length.
  - by rewrite drop_app_length.
Qed.

(** The meter-create of a rate limit is accepted and the flow installation
    after it raises. *)
Lemma enforce_second_fault dp p e rest w :
  faults w = None :: Some e :: rest ->
  (dp_id dp, 1000 + p) ∉ meter_installed (ctl w) ->
  let r := _enforce_action dp p ACT_METER w in
  fst r = Raise e /\
  wire (snd r) = wire w ++ [meter_create dp p] /\
  logs (snd r) = logs w ++ [LogCreatedMeter (dp_id dp) (1000 + p) DEFAULT_LIMIT_KBPS] /\
  meter_installed (ctl (snd r)) = {[(dp_id dp, 1000 + p)]} ∪ meter_installed (ctl w) /\
  faults (snd r) = rest.
Proof.
  intros F Hnin. run. destruct (decide _) as [Hin|_]; [done|]. simpl. rewrite F. simpl.
  repeat split; try reflexivity.
Qed.

(** ** Consecutive rows of a group *)

Lemma scan_adjacent prev l1 p c l2 f :
  ParseLogs.interval p c = Some f -> f ∈ ParseLogs.scan prev (l1 ++ p :: c :: l2).
Proof.
  revert prev. induction l1 as [|x l1 IH]; intros prev Hi; simpl.
  - assert (H : f ∈ ParseLogs.scan (Some p) (c :: l2)) by (simpl; rewrite Hi; left).
    destruct prev as [q|]; [|done]. destruct (ParseLogs.interval q p); [by right | done].
  - destruct prev as [q|]; [|by apply IH].
    destruct (ParseLogs.interval q x); [right|]; by apply IH.
Qed.

Lemma group_feature_computed rows k g f :
  (k, g) ∈ ParseLogs.group_rows rows ->
  f ∈ ParseLogs.scan None
        (ParseLogs.stable_sort (fun a b => ParseLogs.Qlt_bool (timestamp a) (timestamp b)) g) ->
  f ∈ ParseLogs.compute_features rows.
Proof.
  intros Hg Hf. unfold ParseLogs.compute_features. rewrite stable_sort_perm.
  apply list_elem_of_In, in_flat_map. exists (k, g). split; by apply list_elem_of_In.
Qed.

(** The feature of an interval with a later timestamp and no falling
    counter. *)
Lemma interval_rates prev cur :
  let dt := Double.sub (timestamp cur) (timestamp prev) in
  (0 < timestamp cur - timestamp prev)%Q ->
  0 <= tx_bytes cur - tx_bytes prev -> 0 <= rx_bytes cur - rx_bytes prev ->
  0 <= tx_packets cur - tx_packets prev -> 0 <= rx_packets cur - rx_packets prev ->
  ParseLogs.interval prev cur
  = Some (ParseLogs.mkFeature (timestamp cur) (dpid cur) (port_no cur)
            (bps (tx_bytes cur - tx_bytes prev) dt) (bps (rx_bytes cur - rx_bytes prev) dt)
            (Double.div (Double.of_int (tx_packets cur - tx_packets prev)) dt)
            (Double.div (Double.of_int (rx_packets cur - rx_packets prev)) dt)).
Proof.
  intros dt Hdt Htx Hrx Htp Hrp. unfold ParseLogs.interval. fold dt.
  assert (F : Qle_bool dt 0 = false).
  { destruct (Qle_bool dt 0) eqn:E; [|done].
    apply Qle_bool_iff in E. exfalso.
    apply (Qlt_not_le 0 dt); [by apply round_positive | done]. }
  rewrite F. apply Z.ltb_ge in Htx, Hrx, Htp, Hrp. by rewrite Htx, Hrx, Htp, Hrp.
Qed.

(** * The properties of the specification, C1 to C10 *)

(** C1 (as the code has it). The registry only decides which switches a
    poll round asks for statistics: once a switch is unregistered the round
    sends it nothing. The stats-reply handler and the enforcement do not
    consult the registry: every message they send is a flow or meter mutation
    submitted to the switch handle that came with the event, whether or not
    that switch is still registered. *)
Theorem C1_mutations_follow_the_event_handle
    (agent : Z -> Z -> Q -> Q -> Z) (now : Q) (dp : Datapath) (body : list PortStat)
    (w : World) :
  let to_dp := fun x : Datapath * Msg => fst x = dp /\ is_mutation (snd x) = true in
  let w' := snd (state_change_handler (mkStateChange dp DEAD_DISPATCHER) w) in
  Forall to_dp (sent_by (_port_stats_reply_handler agent now (mkReply dp body)) w) /\
  (forall p a, Forall to_dp (sent_by (_enforce_action dp p a) w)) /\
  datapaths (ctl w') = delete (dp_id dp) (datapaths (ctl w)) /\
  Forall (fun x => snd x = OFPPortStatsRequest 0 OFPP_ANY /\
                   exists k, k <> dp_id dp /\ datapaths (ctl w) !! k = Some (fst x))
         (sent_by _monitor_round w') /\
  (registry_wf (ctl w) ->
   Forall (fun x => dp_id (fst x) <> dp_id dp) (sent_by _monitor_round w')).
Proof.
  intros to_dp w'.
  assert (Hreg : datapaths (ctl w') = delete (dp_id dp) (datapaths (ctl w))) by reflexivity.
  assert (Hmon : Forall (fun x => snd x = OFPPortStatsRequest 0 OFPP_ANY /\
                   exists k, k <> dp_id dp /\ datapaths (ctl w) !! k = Some (fst x))
                  (sent_by _monitor_round w')).
  { eapply Forall_impl; [apply monitor_round_wire|]. intros x [Hx [k Hk]].
    split; [done|]. exists k. rewrite Hreg in Hk.
    apply lookup_delete_Some in Hk as [Hne Hk]. split; [congruence | done]. }
  split; [|split; [|split; [|split]]]; try done.
  - apply (grows_drop wire). apply handler_wire.
  - intros p a. apply (grows_drop wire). apply enforce_wire. intros m Hm. by split.
  - intros Hwf. eapply Forall_impl; [exact Hmon|]. intros x [_ [k [Hne Hk]]].
    by rewrite (Hwf _ _ Hk).
Qed.

(** The hypothesis of C1 on a connected switch: after its disconnect the
    poll round sends nothing to it. *)
Lemma C1_witness :
  Forall (fun x => dp_id (fst x) <> dp_id Ex.dp1)
    (sent_by _monitor_round
       (snd (state_change_handler (mkStateChange Ex.dp1 DEAD_DISPATCHER) Ex.w_connected))).
Proof.
  apply (C1_mutations_follow_the_event_handle (Ex.stub ACT_DROP) 1 Ex.dp1 [Ex.stat_t1]
           Ex.w_connected).
  exact registry_wf_connected.
Defined.

(** C1 as stated fails. Switch 1 is unregistered (its state change to
    DEAD was handled), and a stats reply of that switch, like a direct
    enforcement request, still puts mutations on its handle. The same happens
    on the live handle of a switch that reconnected before the DEAD event of
    its old connection was handled. *)
Lemma C1_counterexample :
  let reply := fun dp => _port_stats_reply_handler (Ex.stub ACT_DROP) 1 (mkReply dp [Ex.stat_t1]) in
  datapaths (ctl Ex.w_dead) !! 1 = None /\
  sent_by (reply Ex.dp1) Ex.w_dead = [drop_flow Ex.dp1 3] /\
  sent_by (_enforce_action Ex.dp1 4 ACT_METER) Ex.w_dead
  = [meter_create Ex.dp1 4; meter_flow Ex.dp1 4] /\
  is_mutation (snd (drop_flow Ex.dp1 3)) = true /\
  datapaths (ctl Ex.w_reconnected) !! 1 = None /\
  sent_by (reply Ex.dp1_again) Ex.w_reconnected = [drop_flow Ex.dp1_again 3].
Proof. vm_compute. repeat split; reflexivity. Qed.

(** C2 (as the code has it). Handling the disconnect of a switch removes
    its entry from the connection registry and nothing else: the forwarding
    table, the last-sample store and the installed-meter record are left as
    they were, and nothing is sent. *)
Theorem C2_disconnect_clears_registry_only (dp : Datapath) (w : World) :
  let r := state_change_handler (mkStateChange dp DEAD_DISPATCHER) w in
  fst r = Ok tt /\
  datapaths (ctl (snd r)) = delete (dp_id dp) (datapaths (ctl w)) /\
  datapaths (ctl (snd r)) !! dp_id dp = None /\
  mac_to_port (ctl (snd r)) = mac_to_port (ctl w) /\
  last_stats (ctl (snd r)) = last_stats (ctl w) /\
  meter_installed (ctl (snd r)) = meter_installed (ctl w) /\
  wire (snd r) = wire w.
Proof.
  simpl. repeat split. apply lookup_delete_eq.
Qed.

(** C2 as stated fails. Switch 1 had learnt an address, had a sample for
    port 3 and meter 1003 recorded; after its disconnect was handled only the
    registry entry is gone. *)
Lemma C2_counterexample :
  datapaths (ctl Ex.w_busy) !! 1 = Some Ex.dp1 /\
  datapaths (ctl Ex.w_dead) !! 1 = None /\
  (mac_to_port (ctl Ex.w_dead) !! 1) ≫= (fun t => t !! "aa") = Some 3 /\
  last_stats (ctl Ex.w_dead) !! (1, 3) = Some Ex.sample_t0 /\
  (1, 1003) ∈ meter_installed (ctl Ex.w_dead).
Proof.
  split; [vm_compute; reflexivity|]. split; [vm_compute; reflexivity|].
  split; [vm_compute; reflexivity|]. split; [vm_compute; reflexivity|].
  apply (bool_decide_unpack _). vm_compute. exact I.
Qed.

(** C3 (as the code has it). An entry always records the current sample
    as the new previous one. Without a previous sample nothing else
    happens: no decision, no enforcement. With a previous sample and
    dt = now - previous.timestamp <= 0 the round is not skipped: dt is
    clamped to 1e-9 and, when both byte deltas are non-negative, the agent is
    consulted with the rates (delta*8.0)/1e-9, its answer is logged and
    enforced: what the entry sends and what it records as installed meters is
    what the enforcement of that answer does, a flow of priority 400 on the
    port for DROP for instance when the switch handle accepts it. *)
Theorem C3_first_sample_skips_and_clamped_dt_decides
    (agent : Z -> Z -> Q -> Q -> Z) (now : Q) (dp : Datapath) (stat : PortStat) (w : World) :
  let d := dp_id dp in
  let p := st_port_no stat in
  let cur := cur_sample now d stat in
  let m := stat_entry agent now dp stat in
  (fst (m w) = Ok tt /\ last_stats (ctl (snd (m w))) !! (d, p) = Some cur) /\
  (last_stats (ctl w) !! (d, p) = None ->
   m w = (Ok tt, record_sample (d, p) cur w) /\ calls_by m w = [] /\ sent_by m w = [] /\
   forall body, NoDup (map st_port_no body) -> stat ∈ body ->
     Forall (fun c => ac_port c <> p)
            (calls_by (_port_stats_reply_handler agent now (mkReply dp body)) w)) /\
  (forall prev,
     last_stats (ctl w) !! (d, p) = Some prev ->
     (now - timestamp prev <= 0)%Q ->
     handler_dt now prev = Double.lit_1e_9 /\
     (0 <= st_tx_bytes stat - tx_bytes prev ->
      0 <= st_rx_bytes stat - rx_bytes prev ->
      let c := mkCall d p (bps (st_tx_bytes stat - tx_bytes prev) Double.lit_1e_9)
                          (bps (st_rx_bytes stat - rx_bytes prev) Double.lit_1e_9) in
      let a := agent d p (ac_tx_bps c) (ac_rx_bps c) in
      let enforced := _enforce_action dp p a (decided c a w) in
      calls_by m w = [c] /\
      (exists rest,
         logged_by m w = LogAgentAction d p (ac_tx_bps c) (ac_rx_bps c) a :: rest) /\
      sent_by m w = sent_by (_enforce_action dp p a) (decided c a w) /\
      meter_installed (ctl (snd (m w))) = meter_installed (ctl (snd enforced)) /\
      (faults w = [] ->
       (a = ACT_DROP -> sent_by m w = [drop_flow dp p]) /\
       (a = ACT_REROUTE -> sent_by m w = [reroute_flow dp p]) /\
       (a = ACT_METER -> (d, 1000 + p) ∉ meter_installed (ctl w) ->
        sent_by m w = [meter_create dp p; meter_flow dp p] /\
        (d, 1000 + p) ∈ meter_installed (ctl (snd (m w))))))).
Proof.
  intros d p cur m. subst d p cur m. split; [|split].
  - destruct (stat_entry_spec agent now dp stat w) as (Hr & Hl & _).
    split; [exact Hr|]. rewrite Hl. apply lookup_insert_eq.
  - intros Hnone.
    assert (E : stat_entry agent now dp stat w
                = (Ok tt, record_sample (dp_id dp, st_port_no stat)
                            (cur_sample now (dp_id dp) stat) w)).
    { apply stat_entry_skip. by rewrite Hnone. }
    split; [exact E|]. destruct (skip_is_silent _ _ _ _ _ E) as (Hc & Hs & _).
    split; [exact Hc|]. split; [exact Hs|].
    intros body Hnd Hin. apply handler_no_call; auto. by rewrite Hnone.
  - intros prev Hprev Hdt.
    pose proof (handler_dt_clamped now prev Hdt) as Hclamp.
    split; [exact Hclamp|]. intros Htx Hrx c a enforced.
    destruct (entry_enforces agent now dp stat w prev Hprev Htx Hrx)
      as (Hc & Hs & Hm & _ & Hl).
    rewrite Hclamp in Hc, Hs, Hm, Hl. fold c in Hc, Hs, Hm, Hl. fold a in Hs, Hm, Hl.
    split; [exact Hc|]. split; [eexists; exact Hl|]. split; [exact Hs|].
    split; [exact Hm|]. intros F.
    split; [intros Ea; rewrite Hs, Ea;
            apply (enforce_accepted dp (st_port_no stat) (decided c ACT_DROP w) F)|].
    split; [intros Ea; rewrite Hs, Ea;
            apply (enforce_accepted dp (st_port_no stat) (decided c ACT_REROUTE w) F)|].
    intros Ea Hnin.
    destruct (enforce_accepted dp (st_port_no stat) (decided c ACT_METER w) F)
      as (_ & _ & Hnew & _).
    split; [rewrite Hs, Ea; by apply Hnew|].
    rewrite Hm. unfold enforced. rewrite Ea.
    destruct (enforce_meter_cases dp (st_port_no stat) (decided c ACT_METER w))
      as [(Hin & _) | (_ & [(_ & _ & _ & Hf) | (Hk & _)])];
      [exfalso; exact (Hnin Hin) | exfalso; exact (Hf F) |].
    rewrite Hk. apply elem_of_union. left. by apply elem_of_singleton.
Qed.

(** C3 on switch 1: the first reply for port 3 makes no decision; a second
    one at the same clock reading does, and the DROP the agent answers is
    enforced. *)
Lemma C3_witness :
  (let m := stat_entry (Ex.stub ACT_DROP) 0 Ex.dp1 Ex.stat_t0 in
   calls_by m Ex.w_connected = [] /\ sent_by m Ex.w_connected = [] /\
   Forall (fun c => ac_port c <> 3)
     (calls_by (_port_stats_reply_handler (Ex.stub ACT_DROP) 0 (mkReply Ex.dp1 [Ex.stat_t0]))
               Ex.w_connected)) /\
  (let m := stat_entry (Ex.stub ACT_DROP) 0 Ex.dp1 Ex.stat_t1 in
   calls_by m Ex.w_sampled
   = [mkCall 1 3 (bps 8000 Double.lit_1e_9) (bps 8000 Double.lit_1e_9)] /\
   sent_by m Ex.w_sampled = [drop_flow Ex.dp1 3]).
Proof.
  split.
  - pose proof (C3_first_sample_skips_and_clamped_dt_decides
                  (Ex.stub ACT_DROP) 0 Ex.dp1 Ex.stat_t0 Ex.w_connected) as (_ & H & _).
    destruct H as (_ & Hc & Hs & Hb); [reflexivity |].
    split; [exact Hc|]. split; [exact Hs|].
    apply Hb; [apply NoDup_singleton | apply list_elem_of_singleton; reflexivity].
  - pose proof (C3_first_sample_skips_and_clamped_dt_decides
                  (Ex.stub ACT_DROP) 0 Ex.dp1 Ex.stat_t1 Ex.w_sampled) as (_ & _ & H).
    destruct (H Ex.sample_t0) as (_ & Hd); [reflexivity | discriminate |].
    destruct Hd as (Hc & _ & _ & _ & Hf); [vm_compute; discriminate..|].
    split; [exact Hc|].
    destruct (Hf eq_refl) as (Hdrop & _). exact (Hdrop eq_refl).
Defined.

(** C3 as stated fails. Port 3 of switch 1 was sampled at the clock
    reading 1700000000.0; a reply processed at the same clock reading has
    dt = 0, yet the agent is consulted (with the rates (8000*8.0)/1e-9, the
    double 63999999999999.99) and its DROP is enforced. *)
Lemma C3_counterexample :
  let now := 1700000000%Q in
  let h := _port_stats_reply_handler (Ex.stub ACT_DROP) now (mkReply Ex.dp1 [Ex.stat_t1]) in
  last_stats (ctl Ex.w_epoch) !! (1, 3) = Some Ex.sample_e0 /\
  (now - timestamp Ex.sample_e0 <= 0)%Q /\
  calls_by h Ex.w_epoch
  = [mkCall 1 3 (8191999999999999 # 128) (8191999999999999 # 128)] /\
  sent_by h Ex.w_epoch = [drop_flow Ex.dp1 3].
Proof. vm_compute. repeat split; try reflexivity. discriminate. Qed.

(** C4 (as the code has it). For consecutive samples of a port with
    non-negative byte deltas the rates are (delta*8.0)/dt evaluated in double
    arithmetic: the conversion of delta, the product, the difference dt of
    the two timestamps and the quotient are each rounded to the nearest
    double, so that the rate is delta*8/dt up to a relative error of 2^-50,
    and not always delta*8/dt itself. The controller hands these rates to the
    agent whenever the computed dt is at least 1e-9 (below that it is clamped
    to 1e-9); the feature extraction of the log parser puts them in the
    feature of every two rows that follow each other in the time-sorted group
    of a port, when the later timestamp is greater and the packet deltas are
    not negative either. Samples at t=0 {rx=1000, tx=2000} and t=1 {rx=9000,
    tx=10000} give exactly 64000 bits per second both ways, in both. *)
Theorem C4_rates_are_delta_times_8_over_dt_rounded :
  (forall (agent : Z -> Z -> Q -> Q -> Z) now dp stat w prev,
     let d_tx := st_tx_bytes stat - tx_bytes prev in
     let d_rx := st_rx_bytes stat - rx_bytes prev in
     let dt := Double.sub now (timestamp prev) in
     last_stats (ctl w) !! (dp_id dp, st_port_no stat) = Some prev ->
     0 <= d_tx -> 0 <= d_rx -> (Double.lit_1e_9 <= dt)%Q ->
     exists tx rx,
       calls_by (stat_entry agent now dp stat) w = [mkCall (dp_id dp) (st_port_no stat) tx rx] /\
       tx = Double.div (Double.mul (Double.of_int d_tx) 8) dt /\
       rx = Double.div (Double.mul (Double.of_int d_rx) 8) dt /\
       Double.near Double.tol tx (inject_Z d_tx * 8 / (now - timestamp prev)) /\
       Double.near Double.tol rx (inject_Z d_rx * 8 / (now - timestamp prev))) /\
  (forall rows k g l1 prev cur l2,
     let d_tx := tx_bytes cur - tx_bytes prev in
     let d_rx := rx_bytes cur - rx_bytes prev in
     let dt := Double.sub (timestamp cur) (timestamp prev) in
     (k, g) ∈ ParseLogs.group_rows rows ->
     ParseLogs.stable_sort (fun a b => ParseLogs.Qlt_bool (timestamp a) (timestamp b)) g
     = l1 ++ prev :: cur :: l2 ->
     (timestamp prev < timestamp cur)%Q ->
     0 <= d_tx -> 0 <= d_rx ->
     0 <= tx_packets cur - tx_packets prev -> 0 <= rx_packets cur - rx_packets prev ->
     exists f,
       f ∈ ParseLogs.compute_features rows /\
       ParseLogs.f_timestamp f = timestamp cur /\
       ParseLogs.f_dpid f = dpid cur /\ ParseLogs.f_port_no f = port_no cur /\
       ParseLogs.tx_bps f = Double.div (Double.mul (Double.of_int d_tx) 8) dt /\
       ParseLogs.rx_bps f = Double.div (Double.mul (Double.of_int d_rx) 8) dt /\
       Double.near Double.tol (ParseLogs.tx_bps f)
                   (inject_Z d_tx * 8 / (timestamp cur - timestamp prev)) /\
       Double.near Double.tol (ParseLogs.rx_bps f)
                   (inject_Z d_rx * 8 / (timestamp cur - timestamp prev))) /\
  calls_by (_port_stats_reply_handler (Ex.stub ACT_NOOP) 1 (mkReply Ex.dp1 [Ex.stat_t1]))
           Ex.w_sampled
  = [mkCall 1 3 64000 64000] /\
  ParseLogs.compute_features [Ex.sample_t0; Ex.sample_t1]
  = [ParseLogs.mkFeature 1 1 3 64000 64000 0 0].
Proof.
  split; [|split; [|split]].
  - intros agent now dp stat w prev d_tx d_rx dt Hprev Htx Hrx Hdt.
    assert (Hpos : (0 < dt)%Q) by (eapply Qlt_le_trans; [apply lit_1e_9_pos | exact Hdt]).
    assert (Hdt' : handler_dt now prev == dt) by (by apply py_max_big).
    exists (bps d_tx dt), (bps d_rx dt).
    split; [|split; [reflexivity|split; [reflexivity|]]].
    + rewrite calls_by_entry, Hprev. unfold entry_call. fold d_tx d_rx.
      apply Z.leb_le in Htx, Hrx. rewrite Htx, Hrx. simpl.
      by rewrite !(bps_comp _ _ _ Hdt').
    + split; by apply bps_near.
  - intros rows k g l1 prev cur l2 d_tx d_rx dt Hg Hsort Hlt Htx Hrx Htp Hrp.
    assert (Hr : (0 < timestamp cur - timestamp prev)%Q).
    { unfold Qminus. by apply -> Qlt_minus_iff. }
    pose proof (interval_rates prev cur Hr Htx Hrx Htp Hrp) as Hi.
    exists (ParseLogs.mkFeature (timestamp cur) (dpid cur) (port_no cur)
              (bps d_tx dt) (bps d_rx dt)
              (Double.div (Double.of_int (tx_packets cur - tx_packets prev)) dt)
              (Double.div (Double.of_int (rx_packets cur - rx_packets prev)) dt)).
    split; [|split; [reflexivity|split; [reflexivity|split; [reflexivity|]]]].
    + eapply group_feature_computed; [exact Hg|]. rewrite Hsort.
      apply scan_adjacent. exact Hi.
    + simpl. split; [reflexivity|]. split; [reflexivity|].
      assert (Hpos : (0 < dt)%Q) by (by apply round_positive).
      split; by apply bps_near.
  - vm_compute. reflexivity.
  - vm_compute. reflexivity.
Qed.

(** C4 on the samples of the scenario, two seconds and one second apart. *)
Lemma C4_witness :
  (exists tx rx,
     calls_by (stat_entry (Ex.stub ACT_NOOP) 2 Ex.dp1 Ex.stat_t1) Ex.w_sampled
     = [mkCall 1 3 tx rx] /\
     tx = Double.div (Double.mul (Double.of_int 8000) 8) (Double.sub 2 0) /\
     Double.near Double.tol tx (inject_Z 8000 * 8 / (2 - 0))) /\
  (exists f,
     f ∈ ParseLogs.compute_features [Ex.sample_t0; Ex.sample_t1] /\
     ParseLogs.tx_bps f = Double.div (Double.mul (Double.of_int 8000) 8) (Double.sub 1 0) /\
     Double.near Double.tol (ParseLogs.tx_bps f) (inject_Z 8000 * 8 / (1 - 0))).
Proof.
  destruct C4_rates_are_delta_times_8_over_dt_rounded as (Hc & Hp & _).
  split.
  - destruct (Hc (Ex.stub ACT_NOOP) 2%Q Ex.dp1 Ex.stat_t1 Ex.w_sampled Ex.sample_t0)
      as (tx & rx & H1 & H2 & _ & H3 & _).
    + reflexivity.
    + vm_compute. discriminate.
    + vm_compute. discriminate.
    + vm_compute. discriminate.
    + exists tx, rx. split; [exact H1|]. split; [exact H2 | exact H3].
  - destruct (Hp [Ex.sample_t0; Ex.sample_t1] (1, 3) [Ex.sample_t0; Ex.sample_t1]
                 [] Ex.sample_t0 Ex.sample_t1 [])
      as (f & H1 & _ & _ & _ & H2 & _ & H3 & _).
    + vm_compute. left.
    + vm_compute. reflexivity.
    + reflexivity.
    + vm_compute. discriminate.
    + vm_compute. discriminate.
    + vm_compute. discriminate.
    + vm_compute. discriminate.
    + exists f. split; [exact H1|]. split; [exact H2 | exact H3].
Defined.

(** C4 as stated fails. Port 3 of switch 1 was sampled at the clock
    reading 1700000000.0 and is sampled again three seconds later: the byte
    deltas are 8000 and dt is 3, but the rate of the controller and of the
    parser is the double 21333.333333333332, which is not 8000*8/3. *)
Lemma C4_counterexample :
  let now := 1700000003%Q in
  let rate := (5864062014805333 # 274877906944)%Q in
  last_stats (ctl Ex.w_epoch) !! (1, 3) = Some Ex.sample_e0 /\
  (now - timestamp Ex.sample_e0 == 3)%Q /\
  st_tx_bytes Ex.stat_t1 - tx_bytes Ex.sample_e0 = 8000 /\
  st_rx_bytes Ex.stat_t1 - rx_bytes Ex.sample_e0 = 8000 /\
  calls_by (stat_entry (Ex.stub ACT_NOOP) now Ex.dp1 Ex.stat_t1) Ex.w_epoch
  = [mkCall 1 3 rate rate] /\
  ParseLogs.compute_features [Ex.sample_e0; Ex.sample_e3]
  = [ParseLogs.mkFeature 1700000003 1 3 rate rate 0 0] /\
  ~ (rate == inject_Z 8000 * 8 / (now - timestamp Ex.sample_e0))%Q.
Proof.
  split; [vm_compute; reflexivity|]. split; [reflexivity|].
  split; [reflexivity|]. split; [reflexivity|].
  split; [vm_compute; reflexivity|]. split; [vm_compute; reflexivity|].
  vm_compute. discriminate.
Qed.

(** C5. When the transmit or the receive byte counter of a port is below
    its previous sample, the entry makes no call to the agent, logs and sends
    nothing, and only records the current sample as the new previous one. And
    no reply ever makes the handler call the agent with a negative rate. *)
Theorem C5_counter_decrease_skips_decision
    (agent : Z -> Z -> Q -> Q -> Z) (now : Q) (dp : Datapath) (stat : PortStat)
    (w : World) (prev : Sample) :
  let key := (dp_id dp, st_port_no stat) in
  let m := stat_entry agent now dp stat in
  last_stats (ctl w) !! key = Some prev ->
  st_tx_bytes stat < tx_bytes prev \/ st_rx_bytes stat < rx_bytes prev ->
  m w = (Ok tt, record_sample key (cur_sample now (dp_id dp) stat) w) /\
  calls_by m w = [] /\ sent_by m w = [] /\ logged_by m w = [] /\
  last_stats (ctl (snd (m w))) !! key = Some (cur_sample now (dp_id dp) stat) /\
  (forall body, NoDup (map st_port_no body) -> stat ∈ body ->
     Forall (fun c => ac_port c <> st_port_no stat)
            (calls_by (_port_stats_reply_handler agent now (mkReply dp body)) w)) /\
  forall now' ev w',
    Forall (fun c => (0 <= ac_tx_bps c)%Q /\ (0 <= ac_rx_bps c)%Q)
           (calls_by (_port_stats_reply_handler agent now' ev) w').
Proof.
  intros key m Hprev Hdec. subst key m.
  assert (Hnone : entry_call now (dp_id dp) stat
                    (last_stats (ctl w) !! (dp_id dp, st_port_no stat)) = None).
  { rewrite Hprev. unfold entry_call.
    destruct Hdec as [H|H].
    - assert (F : (0 <=? st_tx_bytes stat - tx_bytes prev) = false) by (apply Z.leb_gt; lia).
      by rewrite F.
    - assert (F : (0 <=? st_rx_bytes stat - rx_bytes prev) = false) by (apply Z.leb_gt; lia).
      rewrite F. by rewrite andb_false_r. }
  pose proof (stat_entry_skip agent now dp stat w Hnone) as E.
  destruct (skip_is_silent _ _ _ _ _ E) as (Hc & Hs & Hl).
  split; [exact E|]. split; [exact Hc|]. split; [exact Hs|]. split; [exact Hl|].
  split; [rewrite E; simpl; apply lookup_insert_eq|].
  split.
  - intros body Hnd Hin. by apply handler_no_call.
  - intros now' ev w'. apply (grows_drop calls). apply handler_calls_nonneg.
Qed.

(** C5 on port 3 of switch 1, whose transmit counter fell from 2000 to
    1500. *)
Lemma C5_witness :
  let stat := mkPortStat 3 9000 1500 None None None in
  let m := stat_entry (Ex.stub ACT_DROP) 1 Ex.dp1 stat in
  calls_by m Ex.w_sampled = [] /\ sent_by m Ex.w_sampled = [] /\
  last_stats (ctl (snd (m Ex.w_sampled))) !! (1, 3) = Some (cur_sample 1 1 stat).
Proof.
  destruct (C5_counter_decrease_skips_decision (Ex.stub ACT_DROP) 1 Ex.dp1
              (mkPortStat 3 9000 1500 None None None) Ex.w_sampled Ex.sample_t0)
    as (_ & Hc & Hs & _ & Hl & _).
  - reflexivity.
  - left. vm_compute. reflexivity.
  - split; [exact Hc|]. split; [exact Hs | exact Hl].
Defined.

(** C6. Two rate-limit enforcements for the same switch and port issue the
    meter-create at most once, whatever the switch handle does with the
    submissions, and exactly once (with two flow installations) when the
    meter was not recorded and the submissions are accepted. The meter
    identifier is 1000 plus the port number, and no create is issued when
    (switch, meter) is already recorded as installed. *)
Theorem C6_meter_created_once (dp : Datapath) (p : Z) (w : World) :
  let key := (dp_id dp, 1000 + p) in
  let w1 := snd (_enforce_action dp p ACT_METER w) in
  let w2 := snd (_enforce_action dp p ACT_METER w1) in
  let sent := drop (length (wire w)) (wire w2) in
  (meter_mods sent = [] \/ meter_mods sent = [meter_create dp p]) /\
  (key ∈ meter_installed (ctl w) -> meter_mods sent = []) /\
  (meter_mods (sent_by (_enforce_action dp p ACT_METER) w) <> [] ->
   key ∉ meter_installed (ctl w)) /\
  (faults w = [] -> key ∉ meter_installed (ctl w) ->
   sent = [meter_create dp p; meter_flow dp p; meter_flow dp p] /\
   key ∈ meter_installed (ctl w2)).
Proof.
  intros key w1 w2 sent.
  pose proof (enforce_meter_cases dp p w) as H1.
  pose proof (enforce_meter_cases dp p w1) as H2.
  cbv zeta in H1, H2. fold key in H1, H2. fold w1 in H1. fold w2 in H2.
  assert (Hsent : forall d, wire w2 = wire w ++ d -> sent = d).
  { intros d E. unfold sent. by rewrite E, drop_app_length. }
  assert (Hone : forall d, wire w1 = wire w ++ d ->
            sent_by (_enforce_action dp p ACT_METER) w = d).
  { intros d E. unfold sent_by. fold w1. by rewrite E, drop_app_length. }
  clearbody w1 w2.
  destruct H1 as [(Hin & Hm1 & Hw1 & Hf1) | (Hnin & [(Hm1 & Hw1 & He1 & Hf1) | (Hm1 & Hw1 & Hf1)])].
  - (* already recorded *)
    destruct H2 as [(Hin2 & Hm2 & Hw2 & Hf2) | (Hnin2 & _)];
      [|rewrite Hm1 in Hnin2; done].
    assert (Hnone : meter_mods sent = []).
    { destruct Hw1 as [E1|E1], Hw2 as [E2|E2]; rewrite E1 in E2.
      - rewrite (Hsent [] ltac:(by rewrite app_nil_r)). done.
      - by rewrite (Hsent _ E2).
      - by rewrite (Hsent _ E2).
      - rewrite <- app_assoc in E2. by rewrite (Hsent _ E2). }
    repeat split; auto; try done.
    intros Hne. exfalso. apply Hne.
    destruct Hw1 as [E1|E1].
    + rewrite (Hone [] ltac:(by rewrite app_nil_r)). done.
    + by rewrite (Hone _ E1).
  - (* the create was refused: the next enforcement tries again *)
    assert (Hcase : meter_mods sent = [] \/ meter_mods sent = [meter_create dp p]).
    { destruct H2 as [(Hin2 & _) | (Hnin2 & [(Hm2 & Hw2 & _) | (Hm2 & Hw2 & _)])].
      - rewrite Hm1 in Hin2. done.
      - left. rewrite Hw1 in Hw2. rewrite (Hsent [] ltac:(by rewrite app_nil_r)). done.
      - right. rewrite Hw1 in Hw2. destruct Hw2 as [E2|E2]; by rewrite (Hsent _ E2). }
    repeat split; auto; try done.
  - (* the create was accepted: the meter is recorded *)
    destruct H2 as [(Hin2 & Hm2 & Hw2 & Hf2) | (Hnin2 & _)];
      [|exfalso; apply Hnin2; rewrite Hm1; apply elem_of_union; left; by apply elem_of_singleton].
    assert (Hcase : meter_mods sent = [meter_create dp p]).
    { destruct Hw1 as [E1|E1], Hw2 as [E2|E2]; rewrite E1 in E2;
        rewrite <- ?app_assoc in E2; by rewrite (Hsent _ E2). }
    split; [by right|]. split; [done|]. split; [done|].
    intros F _. destruct (Hf1 F) as (E1 & F1 & _). destruct (Hf2 F1) as (E2 & _ & _).
    rewrite E1, <- app_assoc in E2. rewrite (Hsent _ E2). split; [done|].
    rewrite Hm2, Hm1. apply elem_of_union. left. by apply elem_of_singleton.
Qed.

(** C6 on port 3 of switch 1: one create for meter 1003, two flows. *)
Lemma C6_witness :
  let w1 := snd (_enforce_action Ex.dp1 3 ACT_METER Ex.w_sampled) in
  let w2 := snd (_enforce_action Ex.dp1 3 ACT_METER w1) in
  drop (length (wire Ex.w_sampled)) (wire w2)
    = [meter_create Ex.dp1 3; meter_flow Ex.dp1 3; meter_flow Ex.dp1 3] /\
  (1, 1003) ∈ meter_installed (ctl w2).
Proof.
  apply (C6_meter_created_once Ex.dp1 3 Ex.w_sampled).
  - reflexivity.
  - apply (bool_decide_unpack _). vm_compute. exact I.
Defined.

(** C7. The priorities of the flows the controller installs are strictly
    ordered by kind: every DROP flow (400) is above every RATE_LIMIT flow
    (300), which is above every REROUTE flow (200), which is above every
    unicast rule of the learning switch (1) and the table-miss rule (0). A
    switch that applies the matching entry of highest priority therefore
    prefers a mitigation to ordinary forwarding. The last three conjuncts
    give the flows themselves when the switch handle accepts them. *)
Theorem C7_priorities_strictly_ordered
    (dp_d dp_m dp_r dp_c : Datapath) (p_d p_m p_r : Z) (ev : PacketIn)
    (w_d w_m w_r w_u w_c : World) :
  let drops := flow_priorities (sent_by (_enforce_action dp_d p_d ACT_DROP) w_d) in
  let limits := flow_priorities (sent_by (_enforce_action dp_m p_m ACT_METER) w_m) in
  let reroutes := flow_priorities (sent_by (_enforce_action dp_r p_r ACT_REROUTE) w_r) in
  let unicasts := flow_priorities (sent_by (_packet_in ev) w_u) in
  let misses := flow_priorities (sent_by (switch_features_handler dp_c) w_c) in
  Forall (fun a => Forall (fun b => b < a) limits) drops /\
  Forall (fun a => Forall (fun b => b < a) reroutes) limits /\
  Forall (fun a => Forall (fun b => b < a) (unicasts ++ misses)) reroutes /\
  (faults w_d = [] ->
   mutations (sent_by (_enforce_action dp_d p_d ACT_DROP) w_d) = [drop_flow dp_d p_d]) /\
  (faults w_m = [] ->
   flow_priorities (sent_by (_enforce_action dp_m p_m ACT_METER) w_m) = [300]) /\
  (faults w_r = [] ->
   flow_priorities (sent_by (_enforce_action dp_r p_r ACT_REROUTE) w_r) = [200]).
Proof.
  intros drops limits reroutes unicasts misses.
  pose proof (drop_priority dp_d p_d w_d) as Hd.
  pose proof (meter_priority dp_m p_m w_m) as Hm.
  pose proof (reroute_priority dp_r p_r w_r) as Hr.
  pose proof (unicast_priority ev w_u) as Hu.
  pose proof (table_miss_priority dp_c w_c) as Hc.
  repeat split.
  - eapply Forall_below; [|exact Hd|exact Hm]. simpl. intros; lia.
  - eapply Forall_below; [|exact Hm|exact Hr]. simpl. intros; lia.
  - eapply (Forall_below _ (fun b => b = 1 \/ b = 0)); [|exact Hr|].
    + simpl. intros; lia.
    + apply Forall_app. split; (eapply Forall_impl; [eassumption|]); simpl; intros; lia.
  - intros F. unfold sent_by, mutations. run. rewrite F. simpl.
    by rewrite drop_app_length.
  - intros F. unfold sent_by. run.
    destruct (decide _); simpl; rewrite F; simpl;
      rewrite <- ?app_assoc, drop_app_length; reflexivity.
  - intros F. unfold sent_by. run. rewrite F. simpl.
    by rewrite drop_app_length.
Qed.

(** C7 on port 3 of switch 1, every submission accepted. *)
Lemma C7_witness :
  mutations (sent_by (_enforce_action Ex.dp1 3 ACT_DROP) Ex.w_sampled) = [drop_flow Ex.dp1 3] /\
  flow_priorities (sent_by (_enforce_action Ex.dp1 3 ACT_METER) Ex.w_sampled) = [300] /\
  flow_priorities (sent_by (_enforce_action Ex.dp1 3 ACT_REROUTE) Ex.w_sampled) = [200].
Proof.
  pose proof (C7_priorities_strictly_ordered Ex.dp1 Ex.dp1 Ex.dp1 Ex.dp1 3 3 3
                (mkPacketIn Ex.dp1 3 OFP_NO_BUFFER "" [mkEth 0x0800 "bb" "aa"])
                Ex.w_sampled Ex.w_sampled Ex.w_sampled Ex.w_sampled Ex.w_sampled)
    as (_ & _ & _ & Hd & Hm & Hr).
  split; [apply Hd; reflexivity|]. split; [apply Hm; reflexivity | apply Hr; reflexivity].
Defined.

(** C8 (as the code has it). A failure raised while an enforcement
    mutation is submitted is caught in the stats-reply handler: the entry and
    the handler return normally and the sample is still recorded. The error
    record is the last one the entry logs and carries the switch identifier,
    the port number and the exception; the action is in the record of the
    decision logged first. When the first submission of the enforcement is
    the one that fails, nothing reaches the switch and the installed-meter
    record is not updated, so that the next rate-limit enforcement issues the
    meter-create again. When the meter-create of a rate limit is accepted and
    the flow installation after it fails, the meter-create is all that
    reached the switch and the meter is recorded as installed, so that the
    next rate-limit enforcement sends the flow only. *)
Theorem C8_submission_failure_is_caught
    (agent : Z -> Z -> Q -> Q -> Z) (now : Q) (dp : Datapath) (stat : PortStat) (w : World) :
  let d := dp_id dp in
  let p := st_port_no stat in
  let m := stat_entry agent now dp stat in
  fst (m w) = Ok tt /\
  (forall ev, fst (_port_stats_reply_handler agent now ev w) = Ok tt) /\
  last_stats (ctl (snd (m w))) !! (d, p) = Some (cur_sample now d stat) /\
  (forall prev e rest,
    let tx := bps (st_tx_bytes stat - tx_bytes prev) (handler_dt now prev) in
    let rx := bps (st_rx_bytes stat - rx_bytes prev) (handler_dt now prev) in
    let a := agent d p tx rx in
    last_stats (ctl w) !! (d, p) = Some prev ->
    0 <= st_tx_bytes stat - tx_bytes prev -> 0 <= st_rx_bytes stat - rx_bytes prev ->
    a = ACT_METER \/ a = ACT_DROP \/ a = ACT_REROUTE ->
    faults w = Some e :: rest ->
    logged_by m w = [LogAgentAction d p tx rx a; LogEnforceError d p e] /\
    sent_by m w = [] /\
    meter_installed (ctl (snd (m w))) = meter_installed (ctl w) /\
    faults (snd (m w)) = rest /\
    (rest = [] -> (d, 1000 + p) ∉ meter_installed (ctl w) ->
     sent_by (_enforce_action dp p ACT_METER) (snd (m w)) = [meter_create dp p; meter_flow dp p])) /\
  (forall prev,
    let tx := bps (st_tx_bytes stat - tx_bytes prev) (handler_dt now prev) in
    let rx := bps (st_rx_bytes stat - rx_bytes prev) (handler_dt now prev) in
    let a := agent d p tx rx in
    last_stats (ctl w) !! (d, p) = Some prev ->
    0 <= st_tx_bytes stat - tx_bytes prev -> 0 <= st_rx_bytes stat - rx_bytes prev ->
    (forall e,
       fst (_enforce_action dp p a (decided (mkCall d p tx rx) a w)) = Raise e ->
       exists mid,
         logged_by m w = LogAgentAction d p tx rx a :: mid ++ [LogEnforceError d p e]) /\
    (forall e rest,
       a = ACT_METER ->
       (d, 1000 + p) ∉ meter_installed (ctl w) ->
       faults w = None :: Some e :: rest ->
       logged_by m w
       = [LogAgentAction d p tx rx a; LogCreatedMeter d (1000 + p) DEFAULT_LIMIT_KBPS;
          LogEnforceError d p e] /\
       sent_by m w = [meter_create dp p] /\
       meter_installed (ctl (snd (m w))) = {[(d, 1000 + p)]} ∪ meter_installed (ctl w) /\
       faults (snd (m w)) = rest /\
       (rest = [] ->
        sent_by (_enforce_action dp p ACT_METER) (snd (m w)) = [meter_flow dp p]))).
Proof.
  intros d p m. subst d p m.
  destruct (stat_entry_spec agent now dp stat w) as (Hr & Hl & _).
  split; [exact Hr|]. split; [intros ev; apply handler_ok|].
  split; [rewrite Hl; apply lookup_insert_eq|]. split.
  - intros prev e rest tx rx a Hprev Htx Hrx Ha F.
    assert (E : stat_entry agent now dp stat w
      = (Ok tt,
         record_sample (dp_id dp, st_port_no stat) (cur_sample now (dp_id dp) stat)
           (mkWorld (ctl w) (wire w)
              ((logs w ++ [LogAgentAction (dp_id dp) (st_port_no stat) tx rx a])
                 ++ [LogEnforceError (dp_id dp) (st_port_no stat) e])
              (calls w ++ [mkCall (dp_id dp) (st_port_no stat) tx rx]) (csv w) rest
              (csv_fault w)))).
    { unfold stat_entry.
      unfold bind, get_ctl, ret, modify_ctl, agent_manager_act, logger, try_except. simpl.
      rewrite Hprev. simpl. apply Z.leb_le in Htx, Hrx. rewrite Htx, Hrx. simpl.
      fold tx rx a.
      erewrite enforce_first_fault; [reflexivity | exact Ha | exact F]. }
    unfold logged_by, sent_by at 1. rewrite E. simpl.
    rewrite <- app_assoc, drop_app_length, drop_all.
    repeat split; try reflexivity.
    intros -> Hnin. unfold sent_by. run.
    destruct (decide _) as [Hin|_]; [done|]. simpl.
    rewrite <- app_assoc, drop_app_length. reflexivity.
  - intros prev tx rx a Hprev Htx Hrx.
    destruct (entry_enforces agent now dp stat w prev Hprev Htx Hrx)
      as (_ & Hs & Hm & Hf & Hlog).
    simpl in Hs, Hm, Hf, Hlog. fold tx rx in Hs, Hm, Hf, Hlog. fold a in Hs, Hm, Hf, Hlog.
    set (w1 := decided (mkCall (dp_id dp) (st_port_no stat) tx rx) a w) in *.
    split.
    + intros e He. rewrite He in Hlog. eexists. exact Hlog.
    + intros e rest Ea Hnin F.
      rewrite Ea in Hs, Hm, Hf, Hlog.
      destruct (enforce_second_fault dp (st_port_no stat) e rest w1 F Hnin)
        as (Hraise & Hwire & Hlogs & Hmeter & Hfaults).
      rewrite Hraise in Hlog. rewrite Hmeter in Hm. rewrite Hfaults in Hf.
      assert (Hsent : sent_by (stat_entry agent now dp stat) w
                      = [meter_create dp (st_port_no stat)]).
      { rewrite Hs. unfold sent_by. rewrite Hwire. apply drop_app_length. }
      assert (Hlogged : logged_by (_enforce_action dp (st_port_no stat) ACT_METER) w1
                        = [LogCreatedMeter (dp_id dp) (1000 + st_port_no stat)
                             DEFAULT_LIMIT_KBPS]).
      { unfold logged_by. rewrite Hlogs. apply drop_app_length. }
      rewrite Hlogged in Hlog.
      change (meter_installed (ctl w1)) with (meter_installed (ctl w)) in Hm.
      rewrite Ea.
      split; [exact Hlog|]. split; [exact Hsent|]. split; [exact Hm|]. split; [exact Hf|].
      intros ->.
      apply (enforce_accepted dp (st_port_no stat) _ Hf).
      rewrite Hm. apply elem_of_union. left. by apply elem_of_singleton.
Qed.

(** C8 on port 3 of switch 1: the handle raises on the next submission, or
    on the one after the next. *)
Lemma C8_witness :
  let m := stat_entry (Ex.stub ACT_METER) 1 Ex.dp1 Ex.stat_t1 in
  (logged_by m Ex.w_broken
   = [LogAgentAction 1 3 64000 64000 ACT_METER; LogEnforceError 1 3 "connection reset"] /\
   sent_by m Ex.w_broken = [] /\
   meter_installed (ctl (snd (m Ex.w_broken))) = meter_installed (ctl Ex.w_broken) /\
   faults (snd (m Ex.w_broken)) = [] /\
   sent_by (_enforce_action Ex.dp1 3 ACT_METER) (snd (m Ex.w_broken))
   = [meter_create Ex.dp1 3; meter_flow Ex.dp1 3]) /\
  (logged_by m Ex.w_flaky
   = [LogAgentAction 1 3 64000 64000 ACT_METER; LogCreatedMeter 1 1003 5000;
      LogEnforceError 1 3 "connection reset"] /\
   sent_by m Ex.w_flaky = [meter_create Ex.dp1 3] /\
   meter_installed (ctl (snd (m Ex.w_flaky))) = {[(1, 1003)]} ∪ meter_installed (ctl Ex.w_flaky) /\
   faults (snd (m Ex.w_flaky)) = [] /\
   sent_by (_enforce_action Ex.dp1 3 ACT_METER) (snd (m Ex.w_flaky)) = [meter_flow Ex.dp1 3]).
Proof.
  split.
  - destruct (C8_submission_failure_is_caught (Ex.stub ACT_METER) 1 Ex.dp1 Ex.stat_t1
                Ex.w_broken) as (_ & _ & _ & H & _).
    destruct (H Ex.sample_t0 "connection reset"%string []) as (Hlog & Hs & Hm & Hf & Hretry).
    + reflexivity.
    + vm_compute. discriminate.
    + vm_compute. discriminate.
    + left. reflexivity.
    + reflexivity.
    + split; [exact Hlog|]. split; [exact Hs|]. split; [exact Hm|]. split; [exact Hf|].
      apply Hretry; [reflexivity|].
      apply (bool_decide_unpack _). vm_compute. exact I.
  - destruct (C8_submission_failure_is_caught (Ex.stub ACT_METER) 1 Ex.dp1 Ex.stat_t1
                Ex.w_flaky) as (_ & _ & _ & _ & H).
    destruct (H Ex.sample_t0) as (_ & H2).
    + reflexivity.
    + vm_compute. discriminate.
    + vm_compute. discriminate.
    + destruct (H2 "connection reset"%string []) as (Hlog & Hs & Hm & Hf & Hnext).
      * reflexivity.
      * apply (bool_decide_unpack _). vm_compute. exact I.
      * reflexivity.
      * split; [exact Hlog|]. split; [exact Hs|]. split; [exact Hm|]. split; [exact Hf|].
        apply Hnext. reflexivity.
Defined.

(** C8 as stated fails. The meter-create of a rate-limit enforcement is
    accepted and the flow installation that follows raises: the failure is
    caught and logged, but the installed-meter record was updated, and the
    error record has no field for the action. *)
Lemma C8_counterexample :
  let m := stat_entry (Ex.stub ACT_METER) 1 Ex.dp1 Ex.stat_t1 in
  fst (_enforce_action Ex.dp1 3 ACT_METER Ex.w_flaky) = Raise "connection reset"%string /\
  logged_by m Ex.w_flaky
  = [LogAgentAction 1 3 64000 64000 ACT_METER; LogCreatedMeter 1 1003 5000;
     LogEnforceError 1 3 "connection reset"] /\
  ((1, 1003) ∉ meter_installed (ctl Ex.w_flaky)) /\
  ((1, 1003) ∈ meter_installed (ctl (snd (m Ex.w_flaky)))) /\
  meter_installed (ctl (snd (m Ex.w_flaky))) <> meter_installed (ctl Ex.w_flaky).
Proof.
  assert (Hout : (1, 1003) ∉ meter_installed (ctl Ex.w_flaky)).
  { apply (bool_decide_unpack _). vm_compute. exact I. }
  assert (Hin : (1, 1003) ∈ meter_installed
                  (ctl (snd (stat_entry (Ex.stub ACT_METER) 1 Ex.dp1 Ex.stat_t1 Ex.w_flaky)))).
  { apply (bool_decide_unpack _). vm_compute. exact I. }
  split; [vm_compute; reflexivity|]. split; [vm_compute; reflexivity|].
  split; [exact Hout|]. split; [exact Hin|].
  intros E. apply Hout. rewrite <- E. exact Hin.
Qed.

(** C9. Enforcing NOOP returns at once: no flow or meter mutation is sent
    and the whole world, with the installed-meter record and everything a
    former decision left, is as before. With an agent that answers NOOP, a
    whole stats reply sends nothing and leaves the installed meters alone. *)
Theorem C9_noop_is_inert (dp : Datapath) (p : Z) (w : World) :
  _enforce_action dp p ACT_NOOP w = (Ok tt, w) /\
  sent_by (_enforce_action dp p ACT_NOOP) w = [] /\
  forall now body,
    let h := _port_stats_reply_handler (Ex.stub ACT_NOOP) now (mkReply dp body) in
    sent_by h w = [] /\ meter_installed (ctl (snd (h w))) = meter_installed (ctl w).
Proof.
  split; [reflexivity|]. split.
  { unfold sent_by. simpl. by rewrite drop_all. }
  intros now body h.
  assert (Hstep : forall stat w0,
    let w1 := snd (stat_entry (Ex.stub ACT_NOOP) now dp stat w0) in
    fst (stat_entry (Ex.stub ACT_NOOP) now dp stat w0) = Ok tt /\
    wire w1 = wire w0 /\ meter_installed (ctl w1) = meter_installed (ctl w0) /\
    csv_fault w1 = csv_fault w0).
  { intros stat w0. unfold stat_entry. run.
    destruct (last_stats (ctl w0) !! _) as [prev|]; simpl; [|done].
    destruct (_ && _); simpl; done. }
  assert (Hloop : forall w0,
    let r := for_each body (stat_entry (Ex.stub ACT_NOOP) now dp) w0 in
    fst r = Ok tt /\ wire (snd r) = wire w0 /\
    meter_installed (ctl (snd r)) = meter_installed (ctl w0) /\
    csv_fault (snd r) = csv_fault w0).
  { induction body as [|stat body IH]; intros w0; simpl; [done|].
    unfold bind. destruct (Hstep stat w0) as (Hr & Hw & Hm & Hc).
    destruct (stat_entry _ now dp stat w0) as [[[]|e] w1]; simpl in *; [|done].
    destruct (IH w1) as (Hr' & Hw' & Hm' & Hc'). rewrite Hw', Hm', Hc'. by rewrite Hw, Hm, Hc. }
  unfold h, sent_by, _port_stats_reply_handler. simpl. unfold bind.
  destruct (Hloop w) as (Hr & Hw & Hm & Hc).
  destruct (for_each body _ w) as [[[]|e] w1]; simpl in *; [|done].
  unfold try_except, write_rows, logger.
  destruct (csv_fault w1); simpl; rewrite Hw, drop_all; done.
Qed.

(** C10. An action identifier outside 0..3 falls through every branch of
    the enforcement: it returns normally, sends nothing and changes nothing. *)
Theorem C10_unknown_action_is_inert (dp : Datapath) (p a : Z) (w : World) :
  a <> ACT_NOOP -> a <> ACT_METER -> a <> ACT_DROP -> a <> ACT_REROUTE ->
  _enforce_action dp p a w = (Ok tt, w) /\ sent_by (_enforce_action dp p a) w = [].
Proof.
  unfold ACT_NOOP, ACT_METER, ACT_DROP, ACT_REROUTE. intros H0 H1 H2 H3.
  assert (E : _enforce_action dp p a w = (Ok tt, w)).
  { unfold _enforce_action.
    apply Z.eqb_neq in H0, H1, H2, H3. by rewrite H0, H1, H2, H3. }
  split; [exact E|]. unfold sent_by. rewrite E. simpl. by rewrite drop_all.
Qed.

(** C10 for the action identifier 7. *)
Lemma C10_witness :
  _enforce_action Ex.dp1 3 7 Ex.w_busy = (Ok tt, Ex.w_busy) /\
  sent_by (_enforce_action Ex.dp1 3 7) Ex.w_busy = [].
Proof. apply (C10_unknown_action_is_inert Ex.dp1 3 7 Ex.w_busy); vm_compute; lia. Defined.

(** * Further properties of the code *)

(** ** The learning switch *)

Lemma frames_ctl_send dp msg : frames ctl (send_msg dp msg).
Proof. intros w. unfold send_msg. by destruct (faults w) as [|[e|] r]. Qed.

(** The table of the switch once the source of the frame was learnt, and
    the port the frame is sent to. *)
Lemma packet_in_ctl ev eth rest w :
  pi_eth ev = eth :: rest -> ethertype eth <> ETH_TYPE_LLDP ->
  let d := dp_id (pi_datapath ev) in
  let table := <[src eth := pi_in_port ev]> (default ∅ (mac_to_port (ctl w) !! d)) in
  ctl (snd (_packet_in ev w))
  = mkController (<[d := table]> (mac_to_port (ctl w))) (datapaths (ctl w))
                 (last_stats (ctl w)) (meter_installed (ctl w)).
Proof.
  intros Heth Hl d table. unfold _packet_in. rewrite Heth.
  apply Z.eqb_neq in Hl. rewrite Hl.
  unfold bind at 1. unfold get_ctl at 1. cbv iota beta.
  unfold bind at 1. unfold modify_ctl at 1. cbv iota beta.
  set (w1 := set_ctl _ w).
  assert (F : forall (m : M unit), frames ctl m -> ctl (snd (m w1)) = ctl w1) by auto.
  apply F. apply frames_bind; [|intros _; apply frames_ctl_send].
  destruct (negb _); [apply frames_ctl_send | apply frames_ret].
Qed.

Lemma packet_in_sent ev eth rest w :
  pi_eth ev = eth :: rest -> ethertype eth <> ETH_TYPE_LLDP -> faults w = [] ->
  let d := dp_id (pi_datapath ev) in
  let table := <[src eth := pi_in_port ev]> (default ∅ (mac_to_port (ctl w) !! d)) in
  let out := default OFPP_FLOOD (table !! dst eth) in
  fst (_packet_in ev w) = Ok tt /\
  sent_by (_packet_in ev) w
  = (if out =? OFPP_FLOOD then [] else [unicast_flow ev eth out]) ++ [packet_out_of ev out].
Proof.
  intros Heth Hl F d table out. unfold sent_by, _packet_in. rewrite Heth.
  apply Z.eqb_neq in Hl. rewrite Hl.
  unfold bind, get_ctl, modify_ctl, send_msg, ret. simpl. fold d table.
  assert (Hout : match table !! dst eth with Some p => p | None => OFPP_FLOOD end = out).
  { unfold out. by destruct (table !! dst eth). }
  rewrite Hout. unfold packet_out_of, unicast_flow.
  destruct (out =? OFPP_FLOOD); simpl; rewrite F; simpl;
    destruct (pi_buffer_id ev =? OFP_NO_BUFFER); simpl;
    rewrite <- ?app_assoc, drop_app_length; by split.
Qed.

Lemma fwd_lookup_learnt ev eth rest w mac :
  pi_eth ev = eth :: rest -> ethertype eth <> ETH_TYPE_LLDP ->
  let d := dp_id (pi_datapath ev) in
  <[src eth := pi_in_port ev]> (default ∅ (mac_to_port (ctl w) !! d)) !! mac
  = if decide (src eth = mac) then Some (pi_in_port ev) else fwd_lookup (ctl w) d mac.
Proof.
  intros _ _ d. rewrite lookup_insert. destruct (decide (src eth = mac)); [done|].
  unfold fwd_lookup. by destruct (mac_to_port (ctl w) !! d).
Qed.

(** X1. A packet-in that is not LLDP teaches the switch the source address:
    whatever the switch handle does afterwards, a lookup of the source on
    that switch gives the ingress port, and the entries of the other
    addresses and of the other switches are as before. *)
Theorem packet_in_learns_source (ev : PacketIn) (eth : Ethernet) (rest : list Ethernet)
    (w : World) :
  pi_eth ev = eth :: rest -> ethertype eth <> ETH_TYPE_LLDP ->
  let d := dp_id (pi_datapath ev) in
  let c' := ctl (snd (_packet_in ev w)) in
  fwd_lookup c' d (src eth) = Some (pi_in_port ev) /\
  (forall mac, mac <> src eth -> fwd_lookup c' d mac = fwd_lookup (ctl w) d mac) /\
  (forall d' mac, d' <> d -> fwd_lookup c' d' mac = fwd_lookup (ctl w) d' mac).
Proof.
  intros Heth Hl d c'. subst c'. rewrite (packet_in_ctl ev eth rest w Heth Hl).
  unfold fwd_lookup. simpl. fold d. split; [|split].
  - rewrite lookup_insert_eq. simpl. apply lookup_insert_eq.
  - intros mac Hne. rewrite lookup_insert_eq. simpl.
    rewrite lookup_insert_ne by congruence. by destruct (mac_to_port (ctl w) !! d).
  - intros d' mac Hne. by rewrite lookup_insert_ne by congruence.
Qed.

Lemma packet_in_learns_source_witness :
  fwd_lookup (ctl Demo.w_learnt) 1 "aa" = Some 3.
Proof.
  apply (packet_in_learns_source Demo.pkt_ab Demo.frame_ab [] Ex.w_connected).
  - reflexivity.
  - vm_compute. discriminate.
Defined.

(** X2. A frame for an address the switch has not learnt (or has learnt on
    the port numbered as the flood port) is flooded: when the switch handle
    accepts the submission, the only message is a packet-out to OFPP_FLOOD, which
    carries the data exactly when the switch did not buffer the frame; no flow
    is installed. *)
Theorem packet_in_unknown_destination_floods (ev : PacketIn) (eth : Ethernet)
    (rest : list Ethernet) (w : World) :
  pi_eth ev = eth :: rest -> ethertype eth <> ETH_TYPE_LLDP -> faults w = [] ->
  dst eth <> src eth ->
  fwd_lookup (ctl w) (dp_id (pi_datapath ev)) (dst eth) = None \/
  fwd_lookup (ctl w) (dp_id (pi_datapath ev)) (dst eth) = Some OFPP_FLOOD ->
  fst (_packet_in ev w) = Ok tt /\
  sent_by (_packet_in ev) w = [packet_out_of ev OFPP_FLOOD].
Proof.
  intros Heth Hl F Hne Hun.
  destruct (packet_in_sent ev eth rest w Heth Hl F) as [Hok Hs].
  split; [exact Hok|]. rewrite Hs.
  rewrite (fwd_lookup_learnt ev eth rest w (dst eth) Heth Hl).
  destruct (decide (src eth = dst eth)) as [E|_]; [congruence|].
  destruct Hun as [-> | ->]; reflexivity.
Qed.

Lemma packet_in_unknown_destination_witness :
  fst (_packet_in Demo.pkt_ab Ex.w_connected) = Ok tt /\
  sent_by (_packet_in Demo.pkt_ab) Ex.w_connected = [packet_out_of Demo.pkt_ab OFPP_FLOOD].
Proof.
  apply (packet_in_unknown_destination_floods Demo.pkt_ab Demo.frame_ab [] Ex.w_connected).
  - reflexivity.
  - vm_compute. discriminate.
  - reflexivity.
  - vm_compute. discriminate.
  - left. vm_compute. reflexivity.
Defined.

(** X3. A frame for an address the switch has learnt on port [q] gets a
    unicast rule: when the switch handle accepts the submissions, a flow of
    priority 1 that matches the ingress port and both addresses, outputs to
    [q] and idles out after 60 seconds is installed, and the frame itself is
    sent to [q]. *)
Theorem packet_in_known_destination_installs_unicast (ev : PacketIn) (eth : Ethernet)
    (rest : list Ethernet) (w : World) (q : Z) :
  pi_eth ev = eth :: rest -> ethertype eth <> ETH_TYPE_LLDP -> faults w = [] ->
  dst eth <> src eth ->
  fwd_lookup (ctl w) (dp_id (pi_datapath ev)) (dst eth) = Some q -> q <> OFPP_FLOOD ->
  fst (_packet_in ev w) = Ok tt /\
  sent_by (_packet_in ev) w = [unicast_flow ev eth q; packet_out_of ev q].
Proof.
  intros Heth Hl F Hne Hq Hnf.
  destruct (packet_in_sent ev eth rest w Heth Hl F) as [Hok Hs].
  split; [exact Hok|]. rewrite Hs.
  rewrite (fwd_lookup_learnt ev eth rest w (dst eth) Heth Hl).
  destruct (decide (src eth = dst eth)) as [E|_]; [congruence|].
  rewrite Hq. simpl. apply Z.eqb_neq in Hnf. by rewrite Hnf.
Qed.

Lemma packet_in_known_destination_witness :
  fst (_packet_in Demo.pkt_ba Demo.w_learnt) = Ok tt /\
  sent_by (_packet_in Demo.pkt_ba) Demo.w_learnt
  = [unicast_flow Demo.pkt_ba Demo.frame_ba 3; packet_out_of Demo.pkt_ba 3].
Proof.
  apply (packet_in_known_destination_installs_unicast Demo.pkt_ba Demo.frame_ba []
           Demo.w_learnt 3).
  - reflexivity.
  - vm_compute. discriminate.
  - reflexivity.
  - vm_compute. discriminate.
  - vm_compute. reflexivity.
  - vm_compute. discriminate.
Defined.

(** X4. The answer finds its way: once a frame of host [a] came in on port
    [p] of a switch, a frame of another host for [a] on the same switch is
    sent to [p] and a unicast rule to [p] is installed, whatever the table
    held before. *)
Theorem packet_in_answer_is_unicast (ev1 ev2 : PacketIn) (eth1 eth2 : Ethernet)
    (rest1 rest2 : list Ethernet) (w : World) :
  pi_eth ev1 = eth1 :: rest1 -> ethertype eth1 <> ETH_TYPE_LLDP ->
  pi_eth ev2 = eth2 :: rest2 -> ethertype eth2 <> ETH_TYPE_LLDP ->
  dp_id (pi_datapath ev2) = dp_id (pi_datapath ev1) ->
  dst eth2 = src eth1 -> src eth2 <> src eth1 -> pi_in_port ev1 <> OFPP_FLOOD ->
  faults w = [] ->
  sent_by (_packet_in ev2) (snd (_packet_in ev1 w))
  = [unicast_flow ev2 eth2 (pi_in_port ev1); packet_out_of ev2 (pi_in_port ev1)].
Proof.
  intros H1 L1 H2 L2 Hd Hdst Hsrc Hp F.
  set (w1 := snd (_packet_in ev1 w)).
  assert (F1 : faults w1 = []).
  { unfold w1, _packet_in. rewrite H1. apply Z.eqb_neq in L1. rewrite L1.
    unfold bind, get_ctl, modify_ctl, send_msg, ret. simpl.
    destruct (negb _); simpl; rewrite F; simpl; by rewrite ?F. }
  destruct (packet_in_sent ev2 eth2 rest2 w1 H2 L2 F1) as [_ Hs]. rewrite Hs.
  rewrite (fwd_lookup_learnt ev2 eth2 rest2 w1 (dst eth2) H2 L2).
  destruct (decide (src eth2 = dst eth2)) as [E|_]; [congruence|].
  assert (Hq : fwd_lookup (ctl w1) (dp_id (pi_datapath ev2)) (dst eth2)
               = Some (pi_in_port ev1)).
  { unfold w1. rewrite (packet_in_ctl ev1 eth1 rest1 w H1 L1), Hd, Hdst.
    unfold fwd_lookup. simpl. rewrite lookup_insert_eq. simpl. apply lookup_insert_eq. }
  rewrite Hq. simpl. apply Z.eqb_neq in Hp. by rewrite Hp.
Qed.

Lemma packet_in_answer_witness :
  sent_by (_packet_in Demo.pkt_ba) (snd (_packet_in Demo.pkt_ab Ex.w_connected))
  = [unicast_flow Demo.pkt_ba Demo.frame_ba 3; packet_out_of Demo.pkt_ba 3].
Proof.
  apply (packet_in_answer_is_unicast Demo.pkt_ab Demo.pkt_ba Demo.frame_ab Demo.frame_ba
           [] [] Ex.w_connected).
  - reflexivity.
  - vm_compute. discriminate.
  - reflexivity.
  - vm_compute. discriminate.
  - reflexivity.
  - reflexivity.
  - vm_compute. discriminate.
  - vm_compute. discriminate.
  - reflexivity.
Defined.

(** X5. The source is learnt before the destination is looked up, so a
    frame addressed to its own source is never flooded: it is sent back out
    of its ingress port, and a unicast rule doing so is installed. *)
Theorem packet_in_own_address_goes_back (ev : PacketIn) (eth : Ethernet)
    (rest : list Ethernet) (w : World) :
  pi_eth ev = eth :: rest -> ethertype eth <> ETH_TYPE_LLDP -> faults w = [] ->
  dst eth = src eth -> pi_in_port ev <> OFPP_FLOOD ->
  sent_by (_packet_in ev) w
  = [unicast_flow ev eth (pi_in_port ev); packet_out_of ev (pi_in_port ev)].
Proof.
  intros Heth Hl F Hsame Hp.
  destruct (packet_in_sent ev eth rest w Heth Hl F) as [_ Hs]. rewrite Hs.
  rewrite (fwd_lookup_learnt ev eth rest w (dst eth) Heth Hl).
  destruct (decide (src eth = dst eth)) as [_|E]; [|congruence].
  simpl. apply Z.eqb_neq in Hp. by rewrite Hp.
Qed.

Lemma packet_in_own_address_witness :
  sent_by (_packet_in Demo.pkt_aa) Ex.w_connected
  = [unicast_flow Demo.pkt_aa Demo.frame_aa 3; packet_out_of Demo.pkt_aa 3].
Proof.
  apply (packet_in_own_address_goes_back Demo.pkt_aa Demo.frame_aa [] Ex.w_connected).
  - reflexivity.
  - vm_compute. discriminate.
  - reflexivity.
  - reflexivity.
  - vm_compute. discriminate.
Defined.

Lemma world_eta w :
  mkWorld (mkController (mac_to_port (ctl w)) (datapaths (ctl w)) (last_stats (ctl w))
                        (meter_installed (ctl w)))
          (wire w) (logs w) (calls w) (csv w) (faults w) (csv_fault w) = w.
Proof. by destruct w as [[] ? ? ? ? ? ?]. Qed.

Lemma packet_in_wire ev :
  keeps wire (fun x => fst x = pi_datapath ev /\ is_meter_mod (snd x) = false)
        (_packet_in ev).
Proof. unfold _packet_in. keeps_wire; by split. Qed.

(** X6. A packet-in touches nothing but the forwarding table: the
    registry, the samples and the installed meters are as before, every
    message goes to the handle of the event and none is a meter modification.
    An LLDP frame changes and sends nothing at all, and a packet without an
    Ethernet header ends the handler with an IndexError before anything was
    done. *)
Theorem packet_in_touches_forwarding_only (ev : PacketIn) (w : World) :
  let w' := snd (_packet_in ev w) in
  datapaths (ctl w') = datapaths (ctl w) /\
  last_stats (ctl w') = last_stats (ctl w) /\
  meter_installed (ctl w') = meter_installed (ctl w) /\
  Forall (fun x => fst x = pi_datapath ev /\ is_meter_mod (snd x) = false)
         (sent_by (_packet_in ev) w) /\
  (forall eth rest, pi_eth ev = eth :: rest -> ethertype eth = ETH_TYPE_LLDP ->
     _packet_in ev w = (Ok tt, w)) /\
  (pi_eth ev = [] -> _packet_in ev w = (Raise "IndexError"%string, w)).
Proof.
  intros w'. subst w'.
  assert (Hcases : (exists eth rest, pi_eth ev = eth :: rest /\ ethertype eth <> ETH_TYPE_LLDP)
                   \/ _packet_in ev w = (Ok tt, w)
                   \/ _packet_in ev w = (Raise "IndexError"%string, w)).
  { unfold _packet_in. destruct (pi_eth ev) as [|eth rest]; [by right; right|].
    destruct (ethertype eth =? ETH_TYPE_LLDP) eqn:E; [by right; left|].
    left. exists eth, rest. split; [done|]. by apply Z.eqb_neq. }
  assert (Hctl : datapaths (ctl (snd (_packet_in ev w))) = datapaths (ctl w) /\
                 last_stats (ctl (snd (_packet_in ev w))) = last_stats (ctl w) /\
                 meter_installed (ctl (snd (_packet_in ev w))) = meter_installed (ctl w)).
  { destruct Hcases as [(eth & rest & Heth & Hl) | [E | E]].
    - by rewrite (packet_in_ctl ev eth rest w Heth Hl).
    - by rewrite E.
    - by rewrite E. }
  destruct Hctl as (Hd & Hs & Hm).
  split; [exact Hd|]. split; [exact Hs|]. split; [exact Hm|].
  split; [apply (grows_drop wire), packet_in_wire|]. split.
  - intros eth rest Heth Hl. unfold _packet_in. rewrite Heth, Hl. reflexivity.
  - intros Heth. unfold _packet_in. by rewrite Heth.
Qed.

Lemma packet_in_touches_forwarding_only_witness :
  _packet_in Demo.pkt_lldp Demo.w_learnt = (Ok tt, Demo.w_learnt).
Proof.
  destruct (packet_in_touches_forwarding_only Demo.pkt_lldp Demo.w_learnt)
    as (_ & _ & _ & _ & H & _).
  apply (H Demo.frame_lldp []); reflexivity.
Defined.

(** ** Connections *)

(** X7. A connecting switch is registered before its table-miss rule is
    submitted: whatever the switch handle does, the registry holds the handle
    under the switch identifier afterwards and the other entries, the
    forwarding table, the samples and the meters are as before. When the
    submission is accepted the only message is the table-miss flow (priority
    0, every packet to the controller, unbuffered); when it raises, the
    exception leaves the handler and nothing is on the wire. *)
Theorem switch_features_registers_then_installs_table_miss (dp : Datapath) (w : World) :
  let r := switch_features_handler dp w in
  datapaths (ctl (snd r)) = <[dp_id dp := dp]> (datapaths (ctl w)) /\
  mac_to_port (ctl (snd r)) = mac_to_port (ctl w) /\
  last_stats (ctl (snd r)) = last_stats (ctl w) /\
  meter_installed (ctl (snd r)) = meter_installed (ctl w) /\
  logged_by (switch_features_handler dp) w = [LogSwitchConnected (dp_id dp)] /\
  (faults w = [] \/ (exists rest, faults w = None :: rest) ->
   fst r = Ok tt /\ sent_by (switch_features_handler dp) w = [table_miss_flow dp]) /\
  (forall e rest, faults w = Some e :: rest ->
   fst r = Raise e /\ sent_by (switch_features_handler dp) w = []).
Proof.
  unfold switch_features_handler, logged_by, sent_by, table_miss_flow. run.
  destruct (faults w) as [|[e|] rest] eqn:F; simpl;
    rewrite ?drop_app_length, ?drop_all; repeat split; try done.
  - by destruct H as [H|[r H]].
  - by destruct H as [H|[r H]].
  - congruence.
Qed.

Lemma switch_features_witness :
  fst (switch_features_handler Demo.dp2 Ex.w_connected) = Ok tt /\
  sent_by (switch_features_handler Demo.dp2) Ex.w_connected = [table_miss_flow Demo.dp2].
Proof.
  apply (switch_features_registers_then_installs_table_miss Demo.dp2 Ex.w_connected).
  left. reflexivity.
Defined.

(** X8. The registry is keyed by the switch identifier alone. A state
    change to MAIN registers the handle; a state change to DEAD removes
    whatever handle sits under the identifier of the dead one, also a newer
    handle of the same switch. For a switch that was not registered, MAIN
    followed by DEAD gives back the world as it was, and DEAD alone changes
    nothing. *)
Theorem state_change_registers_and_unregisters_by_id (dp dp' : Datapath) (w : World) :
  dp_id dp' = dp_id dp ->
  let w1 := snd (state_change_handler (mkStateChange dp' MAIN_DISPATCHER) w) in
  let w2 := snd (state_change_handler (mkStateChange dp DEAD_DISPATCHER) w1) in
  datapaths (ctl w1) !! dp_id dp = Some dp' /\
  datapaths (ctl w2) = delete (dp_id dp) (datapaths (ctl w)) /\
  datapaths (ctl w2) !! dp_id dp' = None /\
  (datapaths (ctl w) !! dp_id dp = None ->
   w2 = w /\ snd (state_change_handler (mkStateChange dp DEAD_DISPATCHER) w) = w).
Proof.
  intros Hid w1 w2. subst w1 w2. unfold state_change_handler, modify_ctl, set_ctl. simpl.
  rewrite Hid. split; [apply lookup_insert_eq|]. split; [apply delete_insert_eq|].
  split; [rewrite delete_insert_eq; apply lookup_delete_eq|].
  intros Hnone. rewrite delete_insert_eq, (delete_id _ _ Hnone). split; apply world_eta.
Qed.

Lemma state_change_witness :
  let w1 := snd (state_change_handler (mkStateChange Demo.dp2 MAIN_DISPATCHER) Ex.w_connected) in
  let w2 := snd (state_change_handler (mkStateChange Demo.dp2 DEAD_DISPATCHER) w1) in
  w2 = Ex.w_connected /\
  snd (state_change_handler (mkStateChange Demo.dp2 DEAD_DISPATCHER) Ex.w_connected)
  = Ex.w_connected.
Proof.
  apply (state_change_registers_and_unregisters_by_id Demo.dp2 Demo.dp2 Ex.w_connected).
  - reflexivity.
  - vm_compute. reflexivity.
Defined.

(** X9. Whatever events the controller handles, and whatever the switch
    handles and the file system do, every handle of the registry sits under
    its own switch identifier. *)
Theorem registry_keys_are_switch_identifiers
    (agent : Z -> Z -> Q -> Q -> Z) (evs : list Event) (fs : list (option Exn))
    (cf : option Exn) (k : Z) (dp : Datapath) :
  datapaths (ctl (run_events agent evs (fresh_world fs cf))) !! k = Some dp ->
  dp_id dp = k.
Proof.
  apply (registry_wf_run agent evs (fresh_world fs cf)).
  intros k' dp' H. simpl in H. by rewrite lookup_empty in H.
Qed.

Lemma registry_keys_witness : dp_id Demo.dp2 = 2.
Proof.
  apply (registry_keys_are_switch_identifiers (Ex.stub ACT_DROP)
           [EventOFPSwitchFeatures Ex.dp1; EventOFPSwitchFeatures Demo.dp2;
            EventOFPStateChange (mkStateChange Ex.dp1 DEAD_DISPATCHER)]
           [] None 2 Demo.dp2).
  vm_compute. reflexivity.
Defined.

(** ** The poll round *)

Lemma request_all_accepted (l : list Datapath) (w : World) :
  faults w = [] ->
  for_each l _request_port_stats w
  = (Ok tt, mkWorld (ctl w) (wire w ++ map stats_request l) (logs w) (calls w) (csv w) []
                    (csv_fault w)).
Proof.
  revert w. induction l as [|dp l IH]; intros w F; simpl.
  - unfold ret. rewrite app_nil_r, <- F. by destruct w.
  - unfold bind, _request_port_stats at 1, send_msg. rewrite F.
    rewrite IH by done. simpl. by rewrite <- app_assoc.
Qed.

(** X10. When the switch handles accept the submissions, a poll round
    sends one port-stats request (all ports) to every handle of the registry
    and nothing else, and leaves the controller as it was. The requests are
    stated as a collection: nothing is said of the order they go out in. *)
Theorem monitor_round_polls_every_registered_switch (w : World) :
  faults w = [] ->
  let sent := sent_by _monitor_round w in
  fst (_monitor_round w) = Ok tt /\
  ctl (snd (_monitor_round w)) = ctl w /\
  sent ≡ₚ map stats_request (map snd (map_to_list (datapaths (ctl w)))) /\
  length sent = size (datapaths (ctl w)) /\
  forall dp, (exists k, datapaths (ctl w) !! k = Some dp) <-> stats_request dp ∈ sent.
Proof.
  intros F sent.
  assert (E : _monitor_round w
              = for_each (map snd (map_to_list (datapaths (ctl w)))) _request_port_stats w)
    by reflexivity.
  assert (Hs : sent = map stats_request (map snd (map_to_list (datapaths (ctl w))))).
  { unfold sent, sent_by. rewrite E, request_all_accepted by done. simpl.
    by rewrite drop_app_length. }
  rewrite E, request_all_accepted by done. simpl.
  split; [done|]. split; [done|]. split; [by rewrite Hs|]. split.
  - rewrite Hs, !length_map. apply length_map_to_list.
  - intros dp. rewrite Hs. split.
    + intros [k Hk]. apply list_elem_of_fmap. exists dp. split; [done|].
      apply list_elem_of_fmap. exists (k, dp). split; [done|].
      by apply elem_of_map_to_list.
    + intros H. apply list_elem_of_fmap in H as [dp' [Heq H]].
      injection Heq as <-.
      apply list_elem_of_fmap in H as [[k dp''] [-> H]].
      exists k. by apply elem_of_map_to_list.
Qed.

Lemma monitor_round_polls_witness :
  sent_by _monitor_round Demo.w_two ≡ₚ [stats_request Ex.dp1; stats_request Demo.dp2] /\
  length (sent_by _monitor_round Demo.w_two) = 2%nat.
Proof.
  destruct (monitor_round_polls_every_registered_switch Demo.w_two) as (_ & _ & Hs & Hl & _).
  - reflexivity.
  - split.
    + etransitivity; [exact Hs|]. vm_compute. apply Permutation_swap.
    + etransitivity; [exact Hl|]. vm_compute. reflexivity.
Defined.

(** X11. A failure of a stats request is not caught in the poll round:
    with a switch registered, an exception raised by the first submission
    leaves the round (and so the monitor loop) before anything was sent. With
    an empty registry the round does nothing. *)
Theorem monitor_round_failure_leaves_the_loop (w : World) (e : Exn)
    (rest : list (option Exn)) :
  (datapaths (ctl w) <> ∅ -> faults w = Some e :: rest ->
   _monitor_round w = (Raise e, after_fault rest w)) /\
  (datapaths (ctl w) = ∅ -> _monitor_round w = (Ok tt, w)).
Proof.
  assert (E : _monitor_round w
              = for_each (map snd (map_to_list (datapaths (ctl w)))) _request_port_stats w)
    by reflexivity.
  rewrite E. split.
  - intros Hne F.
    destruct (map_to_list (datapaths (ctl w))) as [|[k dp] l] eqn:Hl.
    { apply map_to_list_empty_iff in Hl. contradiction. }
    simpl. unfold bind, _request_port_stats at 1, send_msg. by rewrite F.
  - intros ->. by rewrite map_to_list_empty.
Qed.

Lemma monitor_round_failure_witness :
  _monitor_round Ex.w_broken = (Raise "connection reset"%string, after_fault [] Ex.w_broken).
Proof.
  apply (monitor_round_failure_leaves_the_loop Ex.w_broken "connection reset"%string []).
  - intros E. assert (H : datapaths (ctl Ex.w_broken) !! 1 = Some Ex.dp1) by reflexivity.
    rewrite E in H. by rewrite lookup_empty in H.
  - reflexivity.
Defined.

(** ** The rows and the samples of a reply *)

(** X12. Every entry of a stats reply gives one row of the CSV file, in
    the order of the reply, whatever was decided and whatever happened to the
    enforcement, as long as the file can be opened; the handler returns
    normally. *)
Theorem stats_reply_appends_one_row_per_entry
    (agent : Z -> Z -> Q -> Q -> Z) (now : Q) (dp : Datapath) (body : list PortStat)
    (w : World) :
  csv_fault w = None ->
  let r := _port_stats_reply_handler agent now (mkReply dp body) w in
  fst r = Ok tt /\
  csv (snd r) = csv w ++ map (fun stat => row_of (cur_sample now (dp_id dp) stat)) body /\
  length (csv (snd r)) = (length (csv w) + length body)%nat.
Proof.
  intros Hcf r. subst r. unfold _port_stats_reply_handler, bind. simpl.
  destruct (entries_frame agent now dp body w) as (_ & _ & Hc & Hf).
  pose proof (for_each_entries_ok agent now dp body w) as Hok.
  destruct (for_each body _ w) as [[[]|e] w1]; simpl in *; [|done].
  unfold try_except, write_rows. rewrite Hf, Hcf. simpl. rewrite Hc.
  split; [done|]. split; [done|]. by rewrite length_app, length_map.
Qed.

Lemma stats_reply_appends_witness :
  csv (snd (_port_stats_reply_handler (Ex.stub ACT_DROP) 1 (mkReply Ex.dp1 [Ex.stat_t1])
              Ex.w_flaky))
  = csv Ex.w_flaky ++ [row_of (cur_sample 1 1 Ex.stat_t1)].
Proof.
  apply (stats_reply_appends_one_row_per_entry (Ex.stub ACT_DROP) 1 Ex.dp1 [Ex.stat_t1]
           Ex.w_flaky).
  reflexivity.
Defined.

(** X13. When the CSV file cannot be opened, the rows of the reply are
    lost, the failure is the last thing logged, and the handler still returns
    normally with every decision made. *)
Theorem stats_reply_csv_failure_is_logged
    (agent : Z -> Z -> Q -> Q -> Z) (now : Q) (ev : PortStatsReply) (w : World) (e : Exn) :
  csv_fault w = Some e ->
  let r := _port_stats_reply_handler agent now ev w in
  fst r = Ok tt /\
  csv (snd r) = csv w /\
  last (logs (snd r)) = Some (LogFailedWriteStats e) /\
  calls (snd r) = calls (snd (for_each (rp_body ev) (stat_entry agent now (rp_datapath ev)) w)) /\
  wire (snd r) = wire (snd (for_each (rp_body ev) (stat_entry agent now (rp_datapath ev)) w)).
Proof.
  intros Hcf r. subst r. unfold _port_stats_reply_handler, bind.
  destruct (entries_frame agent now (rp_datapath ev) (rp_body ev) w) as (_ & _ & Hc & Hf).
  pose proof (for_each_entries_ok agent now (rp_datapath ev) (rp_body ev) w) as Hok.
  destruct (for_each (rp_body ev) _ w) as [[[]|e'] w1]; simpl in *; [|done].
  unfold try_except, write_rows, logger. rewrite Hf, Hcf. simpl.
  split; [done|]. split; [done|]. split; [apply last_snoc | done].
Qed.

Lemma stats_reply_csv_failure_witness :
  let w := mkWorld (ctl Ex.w_sampled) [] [] [] [] [] (Some "disk full"%string) in
  let r := _port_stats_reply_handler (Ex.stub ACT_DROP) 1 (mkReply Ex.dp1 [Ex.stat_t1]) w in
  fst r = Ok tt /\ csv (snd r) = [] /\
  last (logs (snd r)) = Some (LogFailedWriteStats "disk full").
Proof.
  destruct (stats_reply_csv_failure_is_logged (Ex.stub ACT_DROP) 1
              (mkReply Ex.dp1 [Ex.stat_t1])
              (mkWorld (ctl Ex.w_sampled) [] [] [] [] [] (Some "disk full"%string))
              "disk full"%string) as (Hr & Hc & Hl & _).
  - reflexivity.
  - split; [exact Hr|]. split; [exact Hc | exact Hl].
Defined.

Lemma entries_samples agent now dp body w :
  last_stats (ctl (snd (for_each body (stat_entry agent now dp) w)))
  = foldl (fun m stat => <[(dp_id dp, st_port_no stat) := cur_sample now (dp_id dp) stat]> m)
          (last_stats (ctl w)) body.
Proof.
  revert w. induction body as [|stat body IH]; intros w; simpl; [done|].
  unfold bind. destruct (stat_entry_spec agent now dp stat w) as (Hr & Hl & _).
  destruct (stat_entry agent now dp stat w) as [[[]|e] w1]; simpl in *; [|done].
  by rewrite IH, Hl.
Qed.

Lemma handler_samples agent now dp body w :
  last_stats (ctl (snd (_port_stats_reply_handler agent now (mkReply dp body) w)))
  = foldl (fun m stat => <[(dp_id dp, st_port_no stat) := cur_sample now (dp_id dp) stat]> m)
          (last_stats (ctl w)) body.
Proof.
  rewrite <- (entries_samples agent now dp body w).
  unfold _port_stats_reply_handler, bind. simpl.
  destruct (for_each body _ w) as [[[]|e] w1]; simpl; [|done].
  unfold try_except, write_rows, logger. by destruct (csv_fault w1).
Qed.

Lemma foldl_samples_other (now : Q) (d : Z) (body : list PortStat)
    (m : gmap (Z * Z) Sample) (key : Z * Z) :
  key ∉ map (fun stat => (d, st_port_no stat)) body ->
  foldl (fun m stat => <[(d, st_port_no stat) := cur_sample now d stat]> m) m body !! key
  = m !! key.
Proof.
  revert m. induction body as [|stat body IH]; intros m Hnotin; simpl; [done|].
  simpl in Hnotin. apply not_elem_of_cons in Hnotin as [Hne Hnotin].
  rewrite IH by done. by rewrite lookup_insert_ne.
Qed.

(** X14. After a stats reply whose entries are for distinct ports, the
    sample store holds, for every port of the reply, the counters of the
    reply stamped with the time of the reply; the samples of every other port
    and of every other switch are as before (for them the ports need not be
    distinct). *)
Theorem stats_reply_records_every_port
    (agent : Z -> Z -> Q -> Q -> Z) (now : Q) (dp : Datapath) (body : list PortStat)
    (w : World) :
  let w' := snd (_port_stats_reply_handler agent now (mkReply dp body) w) in
  (forall key, key ∉ map (fun stat => (dp_id dp, st_port_no stat)) body ->
     last_stats (ctl w') !! key = last_stats (ctl w) !! key) /\
  (NoDup (map st_port_no body) ->
   forall stat, stat ∈ body ->
     last_stats (ctl w') !! (dp_id dp, st_port_no stat)
     = Some (cur_sample now (dp_id dp) stat)).
Proof.
  intros w'. subst w'. rewrite handler_samples. split.
  - intros key. apply foldl_samples_other.
  - generalize (last_stats (ctl w)). induction body as [|s body IH]; intros m Hnd stat Hin.
    { by apply elem_of_nil in Hin. }
    simpl in Hnd. apply NoDup_cons in Hnd as [Hnotin Hnd].
    simpl. apply elem_of_cons in Hin as [-> | Hin]; [|by apply IH].
    rewrite foldl_samples_other; [apply lookup_insert_eq|].
    intros H. apply Hnotin. apply list_elem_of_fmap in H as [s' [[= E] Hs']].
    rewrite E. apply list_elem_of_fmap. by exists s'.
Qed.

Lemma stats_reply_records_witness :
  last_stats (ctl (snd (_port_stats_reply_handler (Ex.stub ACT_DROP) 1
                          (mkReply Ex.dp1 [Ex.stat_t1]) Ex.w_sampled))) !! (1, 3)
  = Some (cur_sample 1 1 Ex.stat_t1).
Proof.
  destruct (stats_reply_records_every_port (Ex.stub ACT_DROP) 1 Ex.dp1 [Ex.stat_t1]
              Ex.w_sampled) as [_ H].
  apply (H (NoDup_singleton _) Ex.stat_t1). apply list_elem_of_singleton. reflexivity.
Defined.

(** ** The installed meters and the wire *)

Lemma meter_keys_app l k : meter_keys (l ++ k) = meter_keys l ++ meter_keys k.
Proof. unfold meter_keys. apply omap_app. Qed.

Lemma meter_step_refl w : meter_step w w.
Proof.
  exists []. split; [by rewrite app_nil_r|]. simpl. by rewrite (left_id_L ∅ (∪)).
Qed.

Lemma meter_step_same w w' :
  wire w' = wire w -> meter_installed (ctl w') = meter_installed (ctl w) -> meter_step w w'.
Proof.
  intros Hw Hm. exists []. split; [by rewrite app_nil_r|].
  simpl. by rewrite (left_id_L ∅ (∪)).
Qed.

Lemma meter_step_trans w1 w2 w3 : meter_step w1 w2 -> meter_step w2 w3 -> meter_step w1 w3.
Proof.
  intros [d1 [E1 M1]] [d2 [E2 M2]]. exists (d1 ++ d2). split.
  - by rewrite E2, E1, app_assoc.
  - rewrite M2, M1, meter_keys_app, list_to_set_app_L.
    rewrite (assoc_L (∪)). f_equal. apply (comm_L (∪)).
Qed.

Lemma syncs_ret {A} (a : A) : syncs (ret a).
Proof. intros w. apply meter_step_refl. Qed.

Lemma syncs_raise {A} e : syncs (@raise A e).
Proof. intros w. apply meter_step_refl. Qed.

Lemma syncs_get_ctl : syncs get_ctl.
Proof. intros w. apply meter_step_refl. Qed.

Lemma syncs_logger r : syncs (logger r).
Proof. intros w. by apply meter_step_same. Qed.

Lemma syncs_agent ag d p tx rx : syncs (agent_manager_act ag d p tx rx).
Proof. intros w. by apply meter_step_same. Qed.

Lemma syncs_write rows : syncs (write_rows rows).
Proof. intros w. unfold write_rows. destruct (csv_fault w); by apply meter_step_same. Qed.

Lemma syncs_modify f :
  (forall c, meter_installed (f c) = meter_installed c) -> syncs (modify_ctl f).
Proof. intros H w. apply meter_step_same; [done | apply H]. Qed.

Lemma syncs_send dp msg : meter_of msg = None -> syncs (send_msg dp msg).
Proof.
  intros Hm w. unfold send_msg. destruct (faults w) as [|[e|] r]; simpl;
    try (by apply meter_step_same);
    (exists [(dp, msg)]; split; [done|]; unfold meter_keys; simpl; rewrite Hm; simpl;
     by rewrite (left_id_L ∅ (∪))).
Qed.

Lemma syncs_bind {A B} (m : M A) (k : A -> M B) :
  syncs m -> (forall a, syncs (k a)) -> syncs (bind m k).
Proof.
  intros Hm Hk w. unfold bind. specialize (Hm w).
  destruct (m w) as [[a|e] w1]; simpl in *; [|done].
  eapply meter_step_trans; [exact Hm | apply Hk].
Qed.

Lemma syncs_try {A} (m : M A) h :
  syncs m -> (forall e, syncs (h e)) -> syncs (try_except m h).
Proof.
  intros Hm Hh w. unfold try_except. specialize (Hm w).
  destruct (m w) as [[a|e] w1]; simpl in *; [done|].
  eapply meter_step_trans; [exact Hm | apply Hh].
Qed.

Lemma syncs_for_each {A} (l : list A) body :
  (forall x, syncs (body x)) -> syncs (for_each l body).
Proof.
  intros H. induction l as [|x l IH]; simpl; [apply syncs_ret|].
  apply syncs_bind; [apply H | intros _; apply IH].
Qed.

(** The meter is recorded exactly when its create reached the wire. *)
Lemma syncs_ensure_meter dp mid r : syncs (_ensure_meter dp mid r).
Proof.
  intros w. unfold _ensure_meter, bind, get_ctl. simpl.
  destruct (decide _) as [Hin|Hnin]; [apply meter_step_refl|].
  unfold send_msg, modify_ctl, logger, set_ctl.
  destruct (faults w) as [|[e|] rest]; simpl;
    try (by apply meter_step_same);
    (eexists [_]; split; [reflexivity|]; unfold meter_keys; simpl;
     by rewrite (right_id_L ∅ (∪))).
Qed.

Ltac syncs_step :=
  repeat first
    [ apply syncs_ret | apply syncs_raise | apply syncs_get_ctl | apply syncs_logger
    | apply syncs_agent | apply syncs_write | apply syncs_ensure_meter
    | apply syncs_send; reflexivity
    | apply syncs_modify; intros ?; reflexivity
    | apply syncs_bind; [|intros ?] | apply syncs_try; [|intros ?]
    | apply syncs_for_each; intros ?
    | match goal with |- syncs (if ?c then _ else _) => destruct c end
    | match goal with |- syncs (match ?c with _ => _ end) => destruct c end ].

Lemma syncs_enforce dp p a : syncs (_enforce_action dp p a).
Proof. unfold _enforce_action. syncs_step. Qed.

Lemma syncs_dispatch agent ev : syncs (dispatch agent ev).
Proof.
  destruct ev as [dp|sc|pin|now reply|]; simpl.
  - unfold switch_features_handler, _install_table_miss. syncs_step.
  - unfold state_change_handler. syncs_step.
  - unfold _packet_in. syncs_step.
  - unfold _port_stats_reply_handler, stat_entry. syncs_step. apply syncs_enforce.
  - unfold _monitor_round, _request_port_stats. syncs_step.
Qed.

Lemma meter_step_run agent evs w : meter_step w (run_events agent evs w).
Proof.
  revert w. induction evs as [|ev evs IH]; intros w; simpl; [apply meter_step_refl|].
  eapply meter_step_trans; [apply syncs_dispatch | apply IH].
Qed.

(** X15. Whatever events the controller handles and whatever the switch
    handles do, the installed-meter record and the wire agree: a meter is
    recorded for a switch exactly when a meter modification with that
    identifier was accepted by a handle of that switch. A create that raised is
    not recorded, and a recorded meter is never forgotten. *)
Theorem installed_meters_are_the_meters_created
    (agent : Z -> Z -> Q -> Q -> Z) (evs : list Event) (fs : list (option Exn))
    (cf : option Exn) (d mid : Z) :
  let w := run_events agent evs (fresh_world fs cf) in
  (d, mid) ∈ meter_installed (ctl w) <->
  exists dp msg, (dp, msg) ∈ wire w /\ dp_id dp = d /\ meter_of msg = Some mid.
Proof.
  intros w. destruct (meter_step_run agent evs (fresh_world fs cf)) as [l [Hw Hm]].
  fold w in Hw, Hm. simpl in Hw, Hm. rewrite Hw, Hm, (right_id_L ∅ (∪)).
  rewrite elem_of_list_to_set. unfold meter_keys. rewrite list_elem_of_omap. split.
  - intros [[dp msg] [Hin Hk]]. simpl in Hk.
    destruct (meter_of msg) as [m|] eqn:E; [|done]. simpl in Hk. injection Hk as <- <-.
    by exists dp, msg.
  - intros (dp & msg & Hin & <- & Hk). exists (dp, msg). split; [done|].
    simpl. by rewrite Hk.
Qed.

(** ** What an enforcement sends *)

(** X16. Whatever the action and whatever the switch handle does, an
    enforcement for port [p] submits nothing but mitigations of that port to
    its own handle: flows that match the ingress port [p] alone and expire
    after DEFAULT_IDLE_TO idle seconds with no hard timeout, and the creation
    of meter 1000 + p with a single drop band of DEFAULT_LIMIT_KBPS. With the
    submission accepted, REROUTE installs exactly the flood flow of priority
    200. *)
Theorem enforcement_sends_only_mitigations_of_the_port (dp : Datapath) (p a : Z) (w : World) :
  Forall (mitigation_of dp p) (sent_by (_enforce_action dp p a) w) /\
  (faults w = [] ->
   _enforce_action dp p ACT_REROUTE w
   = (Ok tt, mkWorld (ctl w) (wire w ++ [reroute_flow dp p])
                     (logs w ++ [LogRerouteStub (dp_id dp) p]) (calls w) (csv w) []
                     (csv_fault w))).
Proof.
  split.
  - assert (K : keeps wire (mitigation_of dp p) (_enforce_action dp p a)).
    { unfold _enforce_action, _ensure_meter. keeps_wire; by repeat split. }
    apply (grows_drop wire), K.
  - intros F. run. by rewrite F.
Qed.

Lemma enforcement_reroute_witness :
  sent_by (_enforce_action Ex.dp1 3 ACT_REROUTE) Ex.w_sampled = [reroute_flow Ex.dp1 3].
Proof.
  destruct (enforcement_sends_only_mitigations_of_the_port Ex.dp1 3 ACT_REROUTE Ex.w_sampled)
    as [_ H].
  unfold sent_by. rewrite H by reflexivity. simpl. by rewrite drop_app_length.
Defined.

(** ** The features of the log parser *)

Lemma Qlt_bool_true a b : ParseLogs.Qlt_bool a b = true -> (a < b)%Q.
Proof.
  unfold ParseLogs.Qlt_bool. intros H. apply negb_true_iff in H.
  apply Qnot_le_lt. intros L. apply Qle_bool_iff in L. congruence.
Qed.

Lemma Qlt_bool_false a b : ParseLogs.Qlt_bool a b = false -> (b <= a)%Q.
Proof.
  unfold ParseLogs.Qlt_bool. intros H. apply negb_false_iff in H.
  by apply Qle_bool_iff.
Qed.

Lemma feature_lt_le a b : ParseLogs.feature_lt a b = true -> feature_le a b.
Proof.
  unfold ParseLogs.feature_lt, feature_le.
  destruct (Qeq_bool _ _) eqn:Et; simpl.
  - apply Qeq_bool_iff in Et. destruct (_ =? _) eqn:Ed; simpl.
    + apply Z.eqb_eq in Ed. intros H. apply Z.ltb_lt in H. right. split; [done|]. right. lia.
    + intros H. apply Z.ltb_lt in H. right. split; [done|]. by left.
  - intros H. left. by apply Qlt_bool_true.
Qed.

Lemma feature_not_lt_le a b : ParseLogs.feature_lt a b = false -> feature_le b a.
Proof.
  unfold ParseLogs.feature_lt, feature_le.
  destruct (Qeq_bool _ _) eqn:Et; simpl.
  - apply Qeq_bool_iff in Et. destruct (_ =? _) eqn:Ed; simpl.
    + apply Z.eqb_eq in Ed. intros H. apply Z.ltb_ge in H.
      right. split; [by symmetry|]. right. lia.
    + apply Z.eqb_neq in Ed. intros H. apply Z.ltb_ge in H.
      right. split; [by symmetry|]. left. lia.
  - intros H. apply Qlt_bool_false in H. left.
    apply Qle_lteq in H as [H|H]; [done|].
    apply Qeq_bool_neq in Et. exfalso. apply Et. by symmetry.
Qed.

Lemma feature_le_trans a b c : feature_le a b -> feature_le b c -> feature_le a c.
Proof.
  unfold feature_le. intros [H1|[E1 H1]] [H2|[E2 H2]].
  - left. by apply Qlt_trans with (ParseLogs.f_timestamp b).
  - left. by rewrite <- E2.
  - left. by rewrite E1.
  - right. split; [by rewrite E1|]. lia.
Qed.

Lemma Q_div_nonneg (a b : Q) : (0 <= a)%Q -> (0 < b)%Q -> (0 <= a / b)%Q.
Proof.
  intros Ha Hb. unfold Qdiv. apply Qmult_le_0_compat; [done|].
  apply Qinv_le_0_compat. by apply Qlt_le_weak.
Qed.

Lemma inject_Z_nonneg (z : Z) : 0 <= z -> (0 <= inject_Z z)%Q.
Proof. intros H. change 0%Q with (inject_Z 0). by rewrite <- Zle_Qle. Qed.

(** What an interval that gives a feature looks like. *)
Lemma interval_Some prev cur f :
  ParseLogs.interval prev cur = Some f ->
  (timestamp prev < timestamp cur)%Q /\
  ParseLogs.f_timestamp f = timestamp cur /\
  ParseLogs.f_dpid f = dpid cur /\ ParseLogs.f_port_no f = port_no cur /\
  (0 <= ParseLogs.tx_bps f)%Q /\ (0 <= ParseLogs.rx_bps f)%Q /\
  (0 <= ParseLogs.tx_pps f)%Q /\ (0 <= ParseLogs.rx_pps f)%Q.
Proof.
  unfold ParseLogs.interval.
  destruct (Qle_bool _ 0) eqn:Edt; [done|].
  destruct (_ || _) eqn:Ed; [done|]. intros [= <-]. simpl.
  assert (Hdt : (0 < Double.sub (timestamp cur) (timestamp prev))%Q).
  { apply Qnot_le_lt. intros L. apply Qle_bool_iff in L. congruence. }
  apply orb_false_iff in Ed as [Ed Hrp]. apply orb_false_iff in Ed as [Ed Htp].
  apply orb_false_iff in Ed as [Htx Hrx].
  apply Z.ltb_ge in Htx, Hrx, Htp, Hrp.
  split.
  { apply Qlt_minus_iff. by apply round_positive_inv. }
  split; [reflexivity|]. split; [reflexivity|]. split; [reflexivity|].
  split; [by apply bps_nonneg|]. split; [by apply bps_nonneg|].
  split; apply round_nonneg, Q_div_nonneg; try exact Hdt;
    by apply round_nonneg, inject_Z_nonneg.
Qed.

Lemma scan_elem f prev l :
  f ∈ ParseLogs.scan prev l ->
  exists p c, ParseLogs.interval p c = Some f /\ c ∈ l /\ (prev = Some p \/ p ∈ l).
Proof.
  revert prev. induction l as [|cur l IH]; intros prev Hf; simpl in Hf.
  { by apply elem_of_nil in Hf. }
  assert (Hrest : f ∈ ParseLogs.scan (Some cur) l ->
                  exists p c, ParseLogs.interval p c = Some f /\ c ∈ cur :: l /\
                              (prev = Some p \/ p ∈ cur :: l)).
  { intros H. destruct (IH _ H) as (p & c & Hi & Hc & Hp).
    exists p, c. split; [done|]. split; [by right|].
    right. destruct Hp as [[= ->]|Hp]; [by left | by right]. }
  destruct prev as [p|]; [|by apply Hrest].
  destruct (ParseLogs.interval p cur) as [g|] eqn:Ei; [|by apply Hrest].
  apply elem_of_cons in Hf as [-> | Hf]; [|by apply Hrest].
  exists p, cur. split; [done|]. split; [by left | by left].
Qed.

Lemma scan_length prev l :
  (length (ParseLogs.scan prev l) <= length l)%nat /\
  (prev = None -> (length (ParseLogs.scan prev l) <= length l - 1)%nat).
Proof.
  revert prev. induction l as [|cur l IH]; intros prev; simpl; [split; lia|].
  destruct (IH (Some cur)) as [H1 _].
  destruct prev as [p|].
  - split; [|done]. destruct (ParseLogs.interval p cur); simpl; lia.
  - split; [lia|]. intros _. lia.
Qed.

(** The groups. *)

Lemma group_rows_snoc rows r :
  ParseLogs.group_rows (rows ++ [r])
  = ParseLogs.group_add (row_key r) r (ParseLogs.group_rows rows).
Proof. unfold ParseLogs.group_rows. by rewrite fold_left_app. Qed.

Lemma group_add_keys (k : Z * Z) (r : Sample) (g : list ((Z * Z) * list Sample)) :
  map fst (ParseLogs.group_add k r g)
  = if decide (k ∈ map fst g) then map fst g else map fst g ++ [k].
Proof.
  induction g as [|[k' l] g IH]; simpl; [done|].
  destruct (decide (k = k')) as [->|Hne]; simpl.
  - rewrite decide_True; [done | by left].
  - rewrite IH. destruct (decide (k ∈ map fst g)) as [Hin|Hnin].
    + rewrite decide_True; [done | by right].
    + rewrite decide_False; [done|].
      intros H. apply elem_of_cons in H as [H|H]; [congruence | contradiction].
Qed.

Lemma group_add_elem (k : Z * Z) (r : Sample) (g : list ((Z * Z) * list Sample))
    (k' : Z * Z) (l' : list Sample) :
  NoDup (map fst g) ->
  (k', l') ∈ ParseLogs.group_add k r g ->
  (k' = k /\ ((exists l, (k, l) ∈ g /\ l' = l ++ [r]) \/ ((k ∉ map fst g) /\ l' = [r])))
  \/ (k' <> k /\ (k', l') ∈ g).
Proof.
  induction g as [|[k0 l0] g IH]; simpl; intros Hnd Hin.
  - apply list_elem_of_singleton in Hin as [= -> ->]. left. split; [done|]. right.
    split; [apply not_elem_of_nil | done].
  - apply NoDup_cons in Hnd as [Hnotin Hnd].
    destruct (decide (k = k0)) as [->|Hne].
    + apply elem_of_cons in Hin as [[= -> ->] | Hin].
      * left. split; [done|]. left. exists l0. split; [by left | done].
      * right. split; [|by right]. intros ->. apply Hnotin.
        apply list_elem_of_fmap. by exists (k0, l').
    + apply elem_of_cons in Hin as [[= -> ->] | Hin].
      * right. split; [congruence | by left].
      * destruct (IH Hnd Hin) as [[-> [(l & Hl & ->) | [Hk ->]]] | [Hk Hl]].
        -- left. split; [done|]. left. exists l. split; [by right | done].
        -- left. split; [done|]. right. split; [|done].
           intros H. apply elem_of_cons in H as [H|H]; [congruence | contradiction].
        -- right. split; [done | by right].
Qed.

Lemma group_rows_inv rows :
  NoDup (map fst (ParseLogs.group_rows rows)) /\
  (forall k l, (k, l) ∈ ParseLogs.group_rows rows ->
     l <> [] /\ l = filter (fun r => row_key r = k) rows) /\
  (forall r, r ∈ rows -> row_key r ∈ map fst (ParseLogs.group_rows rows)).
Proof.
  induction rows as [|r rows IH] using rev_ind.
  { split; [constructor|]. split.
    - intros k l H. by apply elem_of_nil in H.
    - intros r H. by apply elem_of_nil in H. }
  destruct IH as (Hnd & Hgrp & Hall). rewrite group_rows_snoc.
  split; [|split].
  - rewrite group_add_keys.
    destruct (decide (row_key r ∈ map fst (ParseLogs.group_rows rows))) as [_|Hnin]; [done|].
    apply NoDup_app. split; [done|]. split; [|apply NoDup_singleton].
    intros x Hx Hx'. apply list_elem_of_singleton in Hx' as ->. contradiction.
  - intros k l Hin. rewrite filter_app.
    destruct (group_add_elem _ _ _ _ _ Hnd Hin) as [[-> [(l0 & Hl0 & ->) | [Hk ->]]] | [Hk Hl]].
    + destruct (Hgrp _ _ Hl0) as [_ ->]. split; [by destruct (filter _ rows)|].
      f_equal. rewrite filter_cons_True by done. done.
    + split; [done|].
      assert (Hnone : filter (fun r0 => row_key r0 = row_key r) rows = []).
      { destruct (filter _ rows) as [|x l] eqn:E; [done|]. exfalso.
        assert (Hx : x ∈ filter (fun r0 => row_key r0 = row_key r) rows)
          by (rewrite E; by left).
        apply list_elem_of_filter in Hx as [Hkey Hx]. apply Hk.
        rewrite <- Hkey. by apply Hall. }
      rewrite Hnone, filter_cons_True by done. done.
    + destruct (Hgrp _ _ Hl) as [Hne ->]. split; [done|].
      rewrite (filter_cons_False _ r) by congruence. by rewrite filter_nil, app_nil_r.
  - intros x Hx. rewrite group_add_keys.
    apply elem_of_app in Hx as [Hx|Hx].
    + destruct (decide (row_key r ∈ map fst (ParseLogs.group_rows rows)));
        [by apply Hall|]. apply elem_of_app. left. by apply Hall.
    + apply list_elem_of_singleton in Hx as ->.
      destruct (decide (row_key r ∈ map fst (ParseLogs.group_rows rows))) as [H|_];
        [done|]. apply elem_of_app. right. by left.
Qed.

Lemma group_add_total_length (k : Z * Z) (r : Sample) (g : list ((Z * Z) * list Sample)) :
  length (concat (map snd (ParseLogs.group_add k r g)))
  = S (length (concat (map snd g))).
Proof.
  induction g as [|[k' l] g IH]; simpl; [done|].
  destruct (decide (k = k')); simpl; rewrite !length_app; simpl; [lia|].
  rewrite IH. lia.
Qed.

Lemma group_rows_total_length rows :
  length (concat (map snd (ParseLogs.group_rows rows))) = length rows.
Proof.
  induction rows as [|r rows IH] using rev_ind; [done|].
  rewrite group_rows_snoc, group_add_total_length, IH, length_app. simpl. lia.
Qed.

Lemma flat_map_length_bound {A B} (F : A * list B -> list ParseLogs.Feature)
    (g : list (A * list B)) :
  (forall x, x ∈ g -> snd x <> [] /\ (length (F x) <= length (snd x) - 1)%nat) ->
  (length (flat_map F g) + length g <= length (concat (map snd g)))%nat.
Proof.
  induction g as [|x g IH]; intros H; simpl; [lia|].
  destruct (H x) as [Hne Hx]; [by left|].
  assert (IH' : (length (flat_map F g) + length g <= length (concat (map snd g)))%nat).
  { apply IH. intros y Hy. apply H. by right. }
  rewrite !length_app. destruct (snd x) as [|b l]; [done|]. simpl in *. lia.
Qed.

Lemma group_features_elem rows f :
  f ∈ ParseLogs.compute_features rows ->
  exists k l, (k, l) ∈ ParseLogs.group_rows rows /\
    f ∈ ParseLogs.scan None
          (ParseLogs.stable_sort
             (fun a b => ParseLogs.Qlt_bool (timestamp a) (timestamp b)) l).
Proof.
  unfold ParseLogs.compute_features. rewrite stable_sort_perm.
  intros H. apply list_elem_of_In, in_flat_map in H as [[k l] [Hg Hf]].
  exists k, l. split; [by apply list_elem_of_In | by apply list_elem_of_In].
Qed.

(** X17. The features come out ordered by timestamp, then switch, then
    port: every feature is at most every later one. The final sort loses and
    adds nothing. *)
Theorem compute_features_is_sorted (rows : list Sample) :
  StronglySorted feature_le (ParseLogs.compute_features rows) /\
  ParseLogs.compute_features rows
  ≡ₚ flat_map (fun g => ParseLogs.scan None
                          (ParseLogs.stable_sort
                             (fun a b => ParseLogs.Qlt_bool (timestamp a) (timestamp b))
                             (snd g)))
              (ParseLogs.group_rows rows).
Proof.
  unfold ParseLogs.compute_features. split.
  - apply stable_sort_sorted.
    + apply feature_lt_le.
    + apply feature_not_lt_le.
    + apply feature_le_trans.
  - apply stable_sort_perm.
Qed.

(** X18. Every feature is the interval between two rows of the log that
    belong to the same switch and port, the later one strictly later in time:
    it carries the timestamp, switch and port of the later row, and none of
    its four rates is negative. Rows of different ports are never mixed, and
    an interval with a repeated timestamp or a falling counter gives no
    feature. *)
Theorem compute_features_come_from_rows_of_one_port (rows : list Sample)
    (f : ParseLogs.Feature) :
  f ∈ ParseLogs.compute_features rows ->
  exists prev cur,
    prev ∈ rows /\ cur ∈ rows /\ row_key prev = row_key cur /\
    (timestamp prev < timestamp cur)%Q /\
    ParseLogs.interval prev cur = Some f /\
    ParseLogs.f_timestamp f = timestamp cur /\
    (ParseLogs.f_dpid f, ParseLogs.f_port_no f) = row_key cur /\
    (0 <= ParseLogs.tx_bps f)%Q /\ (0 <= ParseLogs.rx_bps f)%Q /\
    (0 <= ParseLogs.tx_pps f)%Q /\ (0 <= ParseLogs.rx_pps f)%Q.
Proof.
  intros Hf. destruct (group_features_elem rows f Hf) as (k & l & Hg & Hs).
  destruct (scan_elem f None _ Hs) as (p & c & Hi & Hc & Hp).
  destruct Hp as [Hp|Hp]; [done|].
  rewrite stable_sort_perm in Hc, Hp.
  destruct (group_rows_inv rows) as (_ & Hgrp & _).
  destruct (Hgrp k l Hg) as [_ Hl]. rewrite Hl in Hc, Hp.
  apply list_elem_of_filter in Hc as [Hck Hc], Hp as [Hpk Hp].
  destruct (interval_Some p c f Hi) as (Hlt & Ht & Hd & Hpo & H1 & H2 & H3 & H4).
  exists p, c. split; [done|]. split; [done|]. split; [congruence|].
  split; [done|]. split; [done|]. split; [done|].
  split; [unfold row_key; congruence|]. auto.
Qed.

Lemma compute_features_come_from_rows_witness :
  exists prev cur,
    prev ∈ Demo.log_rows /\ cur ∈ Demo.log_rows /\ row_key prev = row_key cur /\
    (timestamp prev < timestamp cur)%Q /\
    ParseLogs.interval prev cur = Some Demo.log_feature.
Proof.
  destruct (compute_features_come_from_rows_of_one_port Demo.log_rows Demo.log_feature)
    as (prev & cur & H1 & H2 & H3 & H4 & H5 & _).
  - vm_compute. left.
  - exists prev, cur. auto.
Defined.

(** X19. A port with n rows in the log gives at most n - 1 features: the
    features and the groups together are no more than the rows. In
    particular a log with at most one row for every (switch, port) gives no
    feature at all. *)
Theorem compute_features_needs_two_rows_per_port (rows : list Sample) :
  (length (ParseLogs.compute_features rows) + length (ParseLogs.group_rows rows)
   <= length rows)%nat /\
  (NoDup (map row_key rows) -> ParseLogs.compute_features rows = []).
Proof.
  assert (Hlen : (length (ParseLogs.compute_features rows)
                  + length (ParseLogs.group_rows rows) <= length rows)%nat).
  { unfold ParseLogs.compute_features. rewrite stable_sort_perm.
    rewrite <- (group_rows_total_length rows).
    apply flat_map_length_bound. intros [k l] Hin. simpl.
    destruct (group_rows_inv rows) as (_ & Hgrp & _).
    destruct (Hgrp k l Hin) as [Hne _]. split; [done|].
    destruct (scan_length None
                (ParseLogs.stable_sort
                   (fun a b => ParseLogs.Qlt_bool (timestamp a) (timestamp b)) l))
      as [_ H].
    specialize (H eq_refl).
    by rewrite (Permutation_length (stable_sort_perm _ l)) in H. }
  split; [exact Hlen|]. intros Hnd.
  destruct (group_rows_inv rows) as (_ & _ & Hall).
  assert (Hsub : map row_key rows ⊆+ map fst (ParseLogs.group_rows rows)).
  { apply NoDup_submseteq; [done|]. intros k Hk.
    apply list_elem_of_fmap in Hk as [r [-> Hr]]. by apply Hall. }
  apply submseteq_length in Hsub. rewrite !length_map in Hsub.
  destruct (ParseLogs.compute_features rows); [done|]. simpl in Hlen. lia.
Qed.

Lemma compute_features_needs_two_rows_witness :
  ParseLogs.compute_features [Ex.sample_t0; mkSample 1 1 4 9000 10000 0 0 0] = [].
Proof.
  apply (compute_features_needs_two_rows_per_port
           [Ex.sample_t0; mkSample 1 1 4 9000 10000 0 0 0]).
  apply (bool_decide_unpack _). vm_compute. exact I.
Defined.

(** X20. The rows are grouped by (switch, port) without loss: the groups
    have distinct keys, every row's key has a group, and the group of a key
    is, in the order of the log, exactly the rows with that key (so it is never
    empty). *)
Theorem group_rows_partitions_the_log (rows : list Sample) :
  NoDup (map fst (ParseLogs.group_rows rows)) /\
  (forall r, r ∈ rows -> row_key r ∈ map fst (ParseLogs.group_rows rows)) /\
  (forall k l, (k, l) ∈ ParseLogs.group_rows rows ->
     l <> [] /\ l = filter (fun r => row_key r = k) rows) /\
  length (concat (map snd (ParseLogs.group_rows rows))) = length rows.
Proof.
  destruct (group_rows_inv rows) as (Hnd & Hgrp & Hall).
  split; [exact Hnd|]. split; [exact Hall|]. split; [exact Hgrp|].
  apply group_rows_total_length.
Qed.

Lemma group_rows_partitions_witness :
  [mkSample 2 1 3 9000 10000 90 100 2; mkSample 1 1 3 1000 2000 10 20 1;
   mkSample 3 1 3 100 200 1 2 0]
  = filter (fun r => row_key r = (1, 3)) Demo.log_rows.
Proof.
  destruct (group_rows_partitions_the_log Demo.log_rows) as (_ & _ & H & _).
  apply (H (1, 3)). vm_compute. left.
Defined.

(** ** The observation handed to the decision agent *)

Lemma py_min_le (a b : Q) : (AgentManager.py_min a b <= a)%Q.
Proof.
  unfold AgentManager.py_min. destruct (Qlt_le_dec b a) as [L|L];
    [by apply Qlt_le_weak | apply Qle_refl].
Qed.

Lemma py_min_big (a b : Q) : (a <= b)%Q -> AgentManager.py_min a b = a.
Proof.
  intros H. unfold AgentManager.py_min. destruct (Qlt_le_dec b a) as [L|L]; [|done].
  exfalso. by apply (Qlt_not_le b a).
Qed.

Lemma py_min_small (a b : Q) : (b < a)%Q -> AgentManager.py_min a b = b.
Proof.
  intros H. unfold AgentManager.py_min. destruct (Qlt_le_dec b a) as [L|L]; [done|].
  exfalso. by apply (Qlt_not_le b a).
Qed.

Lemma py_max_le (a b : Q) : (a <= py_max a b)%Q.
Proof.
  unfold py_max. destruct (Qlt_le_dec a b) as [L|L];
    [by apply Qlt_le_weak | apply Qle_refl].
Qed.

Lemma clamp_bounds (x : Q) :
  (0 <= py_max 0 (AgentManager.py_min 1 x))%Q /\ (py_max 0 (AgentManager.py_min 1 x) <= 1)%Q.
Proof.
  split; [apply py_max_le|].
  unfold py_max. destruct (Qlt_le_dec 0 _) as [L|L]; [apply py_min_le | discriminate].
Qed.

Lemma clamp_saturates (x : Q) : (1 <= x)%Q -> py_max 0 (AgentManager.py_min 1 x) = 1%Q.
Proof. intros H. by rewrite py_min_big. Qed.

Lemma clamp_floor (x : Q) : (x <= 0)%Q -> py_max 0 (AgentManager.py_min 1 x) = 0%Q.
Proof.
  intros H. rewrite py_min_small.
  - by apply py_max_small.
  - eapply Qle_lt_trans; [exact H | reflexivity].
Qed.

Lemma Q_div_ge_1 (a b : Q) : (0 < b)%Q -> (b <= a)%Q -> (1 <= a / b)%Q.
Proof. intros Hb H. apply Qle_shift_div_l; [done|]. by rewrite Qmult_1_l. Qed.

(** X21. The rate entries of an observation are clamped into [0, 1]: a
    rate of SCALE (100 Mbit/s) or more gives 1 and a rate of 0 or less gives
    0. The switch and port entries are only capped at 1: they are not negative
    for identifiers that are not negative, and every identifier of 100 or more
    gives 1, so that such switches, and such ports, look alike to the agent. *)
Theorem normalize_bounds (d p : Z) (tx rx : Q) :
  let o := AgentManager._normalize d p tx rx in
  ((0 <= AgentManager.tx_n o)%Q /\ (AgentManager.tx_n o <= 1)%Q) /\
  ((0 <= AgentManager.rx_n o)%Q /\ (AgentManager.rx_n o <= 1)%Q) /\
  (AgentManager.dpid_n o <= 1)%Q /\ (AgentManager.port_n o <= 1)%Q /\
  (0 <= d -> (0 <= AgentManager.dpid_n o)%Q) /\
  (0 <= p -> (0 <= AgentManager.port_n o)%Q) /\
  ((AgentManager.SCALE <= tx)%Q -> AgentManager.tx_n o = 1%Q) /\
  ((tx <= 0)%Q -> AgentManager.tx_n o = 0%Q) /\
  (100 <= d -> AgentManager.dpid_n o = 1%Q) /\
  (100 <= p -> AgentManager.port_n o = 1%Q).
Proof.
  intros o. subst o. unfold AgentManager._normalize. simpl.
  assert (Hid : forall z, 0 <= z -> (0 <= AgentManager.py_min 1 (inject_Z z / 100))%Q).
  { intros z Hz. unfold AgentManager.py_min.
    destruct (Qlt_le_dec _ 1); [|discriminate].
    apply Q_div_nonneg; [by apply inject_Z_nonneg | reflexivity]. }
  assert (Hbig : forall z, 100 <= z -> AgentManager.py_min 1 (inject_Z z / 100) = 1%Q).
  { intros z Hz. apply py_min_big. apply Q_div_ge_1; [reflexivity|].
    change 100%Q with (inject_Z 100). by rewrite <- Zle_Qle. }
  split; [apply clamp_bounds|]. split; [apply clamp_bounds|].
  split; [apply py_min_le|]. split; [apply py_min_le|].
  split; [apply Hid|]. split; [apply Hid|].
  split.
  { intros H. apply clamp_saturates. apply Q_div_ge_1; [reflexivity | done]. }
  split; [|split; apply Hbig].
  intros H. apply clamp_floor. unfold Qdiv.
  apply Qle_trans with (0 * / AgentManager.SCALE)%Q; [|discriminate].
  apply Qmult_le_compat_r; [done | discriminate].
Qed.

Lemma normalize_bounds_witness :
  AgentManager.tx_n (AgentManager._normalize 1 3 250000000 64000) = 1%Q /\
  AgentManager.dpid_n (AgentManager._normalize 4096 3 250000000 64000) = 1%Q.
Proof.
  split.
  - apply (normalize_bounds 1 3 250000000 64000). discriminate.
  - apply (normalize_bounds 4096 3 250000000 64000). vm_compute. discriminate.
Defined.

(** X22. With the agent manager in place, a reply whose clock reading is
    not after the previous sample of a port makes the link look saturated: as
    soon as one more byte was transmitted, the transmit entry of the
    observation the decision agent is asked about is 1, whatever the true
    rate. *)
Theorem repeated_timestamp_saturates_the_observation
    (policy : AgentManager.Observation -> Z) (now : Q) (dp : Datapath) (stat : PortStat)
    (w : World) (prev : Sample) :
  last_stats (ctl w) !! (dp_id dp, st_port_no stat) = Some prev ->
  (now - timestamp prev <= 0)%Q ->
  1 <= st_tx_bytes stat - tx_bytes prev -> 0 <= st_rx_bytes stat - rx_bytes prev ->
  exists c,
    calls_by (stat_entry (AgentManager.act policy) now dp stat) w = [c] /\
    AgentManager.tx_n
      (AgentManager._normalize (ac_dpid c) (ac_port c) (ac_tx_bps c) (ac_rx_bps c)) = 1%Q.
Proof.
  intros Hprev Hdt Htx Hrx.
  pose proof (handler_dt_clamped now prev Hdt) as Hclamp.
  eexists. split.
  - rewrite calls_by_entry, Hprev. unfold entry_call.
    assert (H1 : (0 <=? st_tx_bytes stat - tx_bytes prev) = true) by (apply Z.leb_le; lia).
    apply Z.leb_le in Hrx. rewrite H1, Hrx, Hclamp. reflexivity.
  - simpl. apply clamp_saturates. apply Q_div_ge_1; [reflexivity|].
    set (d := st_tx_bytes stat - tx_bytes prev) in *.
    destruct (bps_within d Double.lit_1e_9 ltac:(lia) lit_1e_9_pos) as [L _].
    eapply Qle_trans; [|exact L].
    set (k := ((1 - Double.u) * ((1 - Double.u) * (1 - Double.u)))%Q).
    apply Qle_trans with (k * (inject_Z 1 * 8 / Double.lit_1e_9))%Q;
      [vm_compute; discriminate|].
    rewrite !(Qmult_comm k). apply Qmult_le_compat_r; [|vm_compute; discriminate].
    unfold Qdiv. apply Qmult_le_compat_r; [|vm_compute; discriminate].
    apply Qmult_le_compat_r; [by rewrite <- Zle_Qle | discriminate].
Qed.

Lemma repeated_timestamp_witness :
  exists c,
    calls_by (stat_entry (AgentManager.act (fun _ => ACT_NOOP)) 0 Ex.dp1 Ex.stat_t1)
             Ex.w_sampled = [c] /\
    AgentManager.tx_n
      (AgentManager._normalize (ac_dpid c) (ac_port c) (ac_tx_bps c) (ac_rx_bps c)) = 1%Q.
Proof.
  apply (repeated_timestamp_saturates_the_observation (fun _ => ACT_NOOP) 0 Ex.dp1
           Ex.stat_t1 Ex.w_sampled Ex.sample_t0).
  - reflexivity.
  - discriminate.
  - vm_compute. discriminate.
  - vm_compute. discriminate.
Defined.

(** ** The handles the controller talks to *)

Lemma grows_Forall {X} (proj : World -> list X) (P Q : X -> Prop) w w' :
  grows proj P w w' -> (forall x, P x -> Q x) -> Forall Q (proj w) -> Forall Q (proj w').
Proof.
  intros [d [E F]] HPQ HQ. rewrite E. apply Forall_app. split; [done|].
  eapply Forall_impl; eauto.
Qed.

Lemma frames_registry_stats_reply agent now ev :
  frames (fun w => datapaths (ctl w)) (_port_stats_reply_handler agent now ev).
Proof.
  intros w. unfold _port_stats_reply_handler, bind.
  destruct (entries_frame agent now (rp_datapath ev) (rp_body ev) w) as (Hd & _).
  destruct (for_each _ _ w) as [[[]|e] w1]; simpl in *; [|done].
  unfold try_except, write_rows, logger. by destruct (csv_fault w1).
Qed.

Lemma switch_features_registry dp w :
  datapaths (ctl (snd (switch_features_handler dp w))) = <[dp_id dp := dp]> (datapaths (ctl w)).
Proof.
  unfold switch_features_handler. run. by destruct (faults w) as [|[e|] rest].
Qed.

Lemma dispatch_handles agent ev known w :
  (forall dp, event_handle ev = Some dp -> dp ∈ known) ->
  handles_within known w -> handles_within known (snd (dispatch agent ev w)).
Proof.
  intros Hev [Hreg Hwire].
  assert (Hto : forall dp (m : M unit),
            dp ∈ known -> keeps wire (fun x => fst x = dp) m ->
            Forall (fun x => fst x ∈ known) (wire (snd (m w)))).
  { intros dp m Hdp Hm. apply (grows_Forall wire _ _ w _ (Hm w)); [|done].
    by intros x ->. }
  destruct ev as [dp|sc|pin|now reply|]; simpl in *.
  - assert (Hdp : dp ∈ known) by by apply Hev.
    split.
    + intros k dp' H.
      rewrite switch_features_registry in H.
      apply lookup_insert_Some in H as [[_ <-]|[_ H]]; [done | by eapply Hreg].
    + apply (Hto dp); [done|].
      unfold switch_features_handler, _install_table_miss. keeps_wire. done.
  - assert (Hdp : sc_datapath sc ∈ known) by by apply Hev.
    unfold state_change_handler. destruct (sc_state sc); simpl; split; try done.
    + intros k dp' H. simpl in H. apply lookup_insert_Some in H as [[_ <-]|[_ H]];
        [done | by eapply Hreg].
    + intros k dp' H. simpl in H. apply lookup_delete_Some in H as [_ H]. by eapply Hreg.
  - split.
    + intros k dp' H. rewrite (frames_registry_packet_in pin w) in H. by eapply Hreg.
    + apply (Hto (pi_datapath pin)); [by apply Hev|].
      unfold _packet_in. keeps_wire; done.
  - split.
    + intros k dp' H. rewrite (frames_registry_stats_reply agent now reply w) in H.
      by eapply Hreg.
    + apply (grows_Forall wire _ _ w _ (handler_wire agent now (rp_datapath reply)
                                          (rp_body reply) w)); [|done].
      intros x [-> _]. by apply Hev.
  - split.
    + intros k dp' H. rewrite (frames_registry_monitor w) in H. by eapply Hreg.
    + pose proof (monitor_round_wire w) as Hm.
      assert (G : grows wire (fun x => exists k, datapaths (ctl w) !! k = Some (fst x)) w
                    (snd (_monitor_round w))).
      {
        destruct (request_all_wire (ctl w) w) as [d [E F]]. exists d. split; [exact E|].
        eapply Forall_impl; [exact F|]. by intros x [_ H]. }
      apply (grows_Forall wire _ _ w _ G); [|done].
      intros x [k Hk]. by eapply Hreg.
Qed.

Lemma run_handles agent evs known w :
  (forall dp, dp ∈ omap event_handle evs -> dp ∈ known) ->
  handles_within known w -> handles_within known (run_events agent evs w).
Proof.
  revert w. induction evs as [|ev evs IH]; intros w Hev Hw; simpl; [done|].
  apply IH.
  - intros dp Hdp. apply Hev. simpl. destruct (event_handle ev); [by right | done].
  - apply dispatch_handles; [|done]. intros dp E. apply Hev. simpl. rewrite E. by left.
Qed.

(** X23. The controller only ever talks to switch handles it was given:
    whatever events it handles, every handle in its registry and every handle
    a message was submitted to came with one of those events; the poll round
    brings in no handle of its own. *)
Theorem controller_only_uses_handles_of_its_events
    (agent : Z -> Z -> Q -> Q -> Z) (evs : list Event) (fs : list (option Exn))
    (cf : option Exn) :
  let w := run_events agent evs (fresh_world fs cf) in
  (forall k dp, datapaths (ctl w) !! k = Some dp -> dp ∈ omap event_handle evs) /\
  (forall dp msg, (dp, msg) ∈ wire w -> dp ∈ omap event_handle evs).
Proof.
  intros w.
  assert (H : handles_within (omap event_handle evs) w).
  { apply run_handles; [done|]. split.
    - intros k dp H. simpl in H. by rewrite lookup_empty in H.
    - constructor. }
  destruct H as [Hreg Hwire]. split; [exact Hreg|].
  intros dp msg Hin. rewrite Forall_forall in Hwire. by apply (Hwire (dp, msg)).
Qed.

Lemma controller_handles_witness :
  Ex.dp1 ∈ omap event_handle
             [EventOFPSwitchFeatures Ex.dp1; MonitorTick;
              EventOFPPortStatsReply 0 (mkReply Ex.dp1 [Ex.stat_t0])].
Proof.
  destruct (controller_only_uses_handles_of_its_events (Ex.stub ACT_DROP)
              [EventOFPSwitchFeatures Ex.dp1; MonitorTick;
               EventOFPPortStatsReply 0 (mkReply Ex.dp1 [Ex.stat_t0])] [] None) as [_ H].
  apply (H Ex.dp1 (snd (stats_request Ex.dp1))). vm_compute. right. left.
Defined.

(** ** What stays *)

Lemma frames_ctl_monitor : frames ctl _monitor_round.
Proof.
  unfold _monitor_round. apply frames_bind; [apply frames_get_ctl|]. intros c.
  apply frames_for_each. intros dp. apply frames_ctl_send.
Qed.

Lemma switch_features_forwarding dp w :
  mac_to_port (ctl (snd (switch_features_handler dp w))) = mac_to_port (ctl w).
Proof.
  unfold switch_features_handler. run. by destruct (faults w) as [|[e|] rest].
Qed.

Lemma dispatch_keeps_addresses agent ev w d mac :
  is_Some (fwd_lookup (ctl w) d mac) ->
  is_Some (fwd_lookup (ctl (snd (dispatch agent ev w))) d mac).
Proof.
  intros Hs. destruct ev as [dp|sc|pin|now reply|]; simpl.
  - unfold fwd_lookup. by rewrite switch_features_forwarding.
  - unfold state_change_handler. by destruct (sc_state sc).
  - destruct (pi_eth pin) as [|eth rest] eqn:Heth.
    { unfold _packet_in. by rewrite Heth. }
    destruct (decide (ethertype eth = ETH_TYPE_LLDP)) as [Hl|Hl].
    { unfold _packet_in. rewrite Heth. apply Z.eqb_eq in Hl. by rewrite Hl. }
    rewrite (packet_in_ctl pin eth rest w Heth Hl). unfold fwd_lookup in *. simpl.
    destruct (decide (dp_id (pi_datapath pin) = d)) as [<-|Hne].
    + rewrite lookup_insert_eq. simpl.
      destruct (decide (src eth = mac)) as [<-|Hm].
      * rewrite lookup_insert_eq. by eexists.
      * rewrite lookup_insert_ne by done.
        by destruct (mac_to_port (ctl w) !! dp_id (pi_datapath pin)).
    + by rewrite lookup_insert_ne.
  - unfold fwd_lookup.
    assert (E : mac_to_port (ctl (snd (_port_stats_reply_handler agent now reply w)))
                = mac_to_port (ctl w)).
    { unfold _port_stats_reply_handler, bind.
      destruct (entries_frame agent now (rp_datapath reply) (rp_body reply) w)
        as (_ & Hm & _).
      destruct (for_each _ _ w) as [[[]|e] w1]; simpl in *; [|done].
      unfold try_except, write_rows, logger. by destruct (csv_fault w1). }
    by rewrite E.
  - by rewrite (frames_ctl_monitor w).
Qed.

Lemma foldl_samples_keep (now : Q) (d : Z) (body : list PortStat)
    (m : gmap (Z * Z) Sample) (key : Z * Z) :
  is_Some (m !! key) ->
  is_Some (foldl (fun m stat => <[(d, st_port_no stat) := cur_sample now d stat]> m) m body
           !! key).
Proof.
  revert m. induction body as [|stat body IH]; intros m Hs; simpl; [done|].
  apply IH. rewrite lookup_insert. by case_decide.
Qed.

Lemma packet_in_samples ev w :
  last_stats (ctl (snd (_packet_in ev w))) = last_stats (ctl w).
Proof.
  destruct (pi_eth ev) as [|eth rest] eqn:Heth.
  { unfold _packet_in. by rewrite Heth. }
  destruct (decide (ethertype eth = ETH_TYPE_LLDP)) as [Hl|Hl].
  { unfold _packet_in. rewrite Heth. apply Z.eqb_eq in Hl. by rewrite Hl. }
  by rewrite (packet_in_ctl ev eth rest w Heth Hl).
Qed.

Lemma dispatch_keeps_samples agent ev w key :
  is_Some (last_stats (ctl w) !! key) ->
  is_Some (last_stats (ctl (snd (dispatch agent ev w))) !! key).
Proof.
  intros Hs. destruct ev as [dp|sc|pin|now reply|]; simpl.
  - assert (E : last_stats (ctl (snd (switch_features_handler dp w))) = last_stats (ctl w)).
    { unfold switch_features_handler. run. by destruct (faults w) as [|[e|] rest]. }
    by rewrite E.
  - unfold state_change_handler. by destruct (sc_state sc).
  - by rewrite packet_in_samples.
  - destruct reply as [dp body]. rewrite handler_samples. by apply foldl_samples_keep.
  - by rewrite (frames_ctl_monitor w).
Qed.

(** X24. Nothing is ever evicted. Whatever events follow, also the
    disconnect of the switch, an address the forwarding table holds for a
    switch stays in it (the port may change), a port that has a sample keeps
    one, and a recorded meter stays recorded. *)
Theorem stores_only_grow (agent : Z -> Z -> Q -> Q -> Z) (evs : list Event) (w : World) :
  let w' := run_events agent evs w in
  (forall d mac, is_Some (fwd_lookup (ctl w) d mac) -> is_Some (fwd_lookup (ctl w') d mac)) /\
  (forall key, is_Some (last_stats (ctl w) !! key) -> is_Some (last_stats (ctl w') !! key)) /\
  (forall k, k ∈ meter_installed (ctl w) -> k ∈ meter_installed (ctl w')).
Proof.
  intros w'. subst w'. split; [|split].
  - revert w. induction evs as [|ev evs IH]; intros w d mac Hs; simpl; [done|].
    apply IH. by apply dispatch_keeps_addresses.
  - revert w. induction evs as [|ev evs IH]; intros w key Hs; simpl; [done|].
    apply IH. by apply dispatch_keeps_samples.
  - intros k Hk. destruct (meter_step_run agent evs w) as [l [_ Hm]]. rewrite Hm.
    apply elem_of_union. by right.
Qed.

Lemma stores_only_grow_witness :
  is_Some (fwd_lookup
             (ctl (run_events (Ex.stub ACT_DROP)
                     [EventOFPStateChange (mkStateChange Ex.dp1 DEAD_DISPATCHER);
                      EventOFPPacketIn Demo.pkt_ba] Demo.w_learnt)) 1 "aa").
Proof.
  apply (stores_only_grow (Ex.stub ACT_DROP)
           [EventOFPStateChange (mkStateChange Ex.dp1 DEAD_DISPATCHER);
            EventOFPPacketIn Demo.pkt_ba] Demo.w_learnt).
  vm_compute. by eexists.
Defined.

(** X25. A stats reply, with all the enforcement it triggers, leaves the
    forwarding table and the registry as they were, forgets no meter, and
    whatever meter it newly records belongs to the switch of the reply. *)
Theorem stats_reply_leaves_forwarding_and_registry
    (agent : Z -> Z -> Q -> Q -> Z) (now : Q) (dp : Datapath) (body : list PortStat)
    (w : World) :
  let w' := snd (_port_stats_reply_handler agent now (mkReply dp body) w) in
  mac_to_port (ctl w') = mac_to_port (ctl w) /\
  datapaths (ctl w') = datapaths (ctl w) /\
  (forall k, k ∈ meter_installed (ctl w) -> k ∈ meter_installed (ctl w')) /\
  (forall k, k ∈ meter_installed (ctl w') -> k ∉ meter_installed (ctl w) -> fst k = dp_id dp).
Proof.
  intros w'. subst w'.
  set (w' := snd (_port_stats_reply_handler agent now (mkReply dp body) w)).
  assert (Hm : mac_to_port (ctl w') = mac_to_port (ctl w)).
  { unfold w', _port_stats_reply_handler, bind. simpl.
    destruct (entries_frame agent now dp body w) as (_ & Hm & _).
    destruct (for_each _ _ w) as [[[]|e] w1]; simpl in *; [|done].
    unfold try_except, write_rows, logger. by destruct (csv_fault w1). }
  assert (Hd : datapaths (ctl w') = datapaths (ctl w))
    by apply (frames_registry_stats_reply agent now (mkReply dp body) w).
  destruct (syncs_dispatch agent (EventOFPPortStatsReply now (mkReply dp body)) w)
    as [l [Hw Hk]]. simpl in Hw, Hk. fold w' in Hw, Hk.
  destruct (handler_wire agent now dp body w) as [l' [Hw' Hl']]. fold w' in Hw'.
  assert (l' = l) as -> by (eapply app_inv_head; by rewrite <- Hw, <- Hw').
  split; [exact Hm|]. split; [exact Hd|]. split.
  - intros k Hin. rewrite Hk. apply elem_of_union. by right.
  - intros k Hin Hnot. rewrite Hk in Hin. apply elem_of_union in Hin as [Hin|Hin]; [|done].
    apply elem_of_list_to_set in Hin. unfold meter_keys in Hin.
    apply list_elem_of_omap in Hin as [[dp' msg] [Hx Hkey]]. simpl in Hkey.
    rewrite Forall_forall in Hl'. destruct (Hl' _ Hx) as [Hdp _]. simpl in Hdp. subst dp'.
    destruct (meter_of msg); [|done]. simpl in Hkey. by injection Hkey as <-.
Qed.

Lemma stats_reply_leaves_witness :
  fst (1, 1003) = dp_id Ex.dp1.
Proof.
  destruct (stats_reply_leaves_forwarding_and_registry (Ex.stub ACT_METER) 1 Ex.dp1
              [Ex.stat_t1] Ex.w_sampled) as (_ & _ & _ & H).
  apply (H (1, 1003)); apply (bool_decide_unpack _); vm_compute; exact I.
Defined.
